(** * The robot-language virtual machine and its program-synthesis solvers

    A shallow embedding of the JavaScript sources of the puzzle solver:

    - [Solver] (standalone-game/assets/js/solver.js): [executeProgram],
      [generatePrograms], [generateInstructionSubsets], [solve];
    - [ConstraintSolver] and [GameEngine]
      (standalone-game/assets/js/constraint-solver.js): constraint
      propagation, the deepening search, and the interactive engine's [step];
    - [FinalSolver] (standalone-game/assets/js/final-solver.js):
      [executeWithLoopDetection], [hashState], [isValidSequence];
    - [FixedExecutor]: the [executeProgram] of the level-1 test script.

    Numbers are the integers of the level files and of the instruction
    encoding [condition * 100 + opcode]; they are modelled as [Z], with
    JavaScript's [%] as [Z.rem] (truncating, sign of the dividend) and
    [Math.floor (a / 100)] as [Z.div] (flooring).  Arrays are read with
    JavaScript's rules: an index outside the array yields [undefined], and a
    property read on [undefined] throws a TypeError.  The [while] loops of
    the executors run on fuel that is shown to suffice.  The [solve]
    functions are modelled without their deadline and their [stop()] flag,
    which only cut a search short. *)

From Stdlib Require Import ZArith Lia List Bool.
From stdpp Require Import base decidable option list gmap strings pretty.

Open Scope Z_scope.

(* ===================================================================== *)
(** ** JavaScript values and arrays *)
(* ===================================================================== *)

Module Js.

(** A value read from a board cell: a number, or [undefined] when the
    index names no element. *)
Inductive val := undefined | num (n : Z).

(** [a[i]] on a dense array held as a list. *)
Definition index {A} (a : list A) (i : Z) : option A :=
  if 0 <=? i then a !! Z.to_nat i else None.

(** [v > k], [v === k] and [v % k] against a number: comparisons with
    [undefined] are false and its remainder is NaN (here [None]). *)
Definition gt (v : val) (k : Z) : bool :=
  match v with num n => k <? n | undefined => false end.

Definition strict_eq (v : val) (k : Z) : bool :=
  match v with num n => n =? k | undefined => false end.

Definition rem (v : val) (k : Z) : option Z :=
  match v with num n => Some (Z.rem n k) | undefined => None end.

(** [a !== k] where [a] may be NaN: NaN differs from every number. *)
Definition strict_ne (a : option Z) (k : Z) : bool :=
  match a with Some n => negb (n =? k) | None => true end.

(** A board row at run time.  A JavaScript array is an object whose
    integer-named properties are its elements: reading an absent one gives
    [undefined], writing at or past [length] extends the array (leaving
    holes), writing at a negative index adds a plain property. *)
Record row := mkRow { cells : gmap Z Z; len : Z }.

Definition row_get (r : row) (i : Z) : val :=
  match cells r !! i with Some n => num n | None => undefined end.

Definition row_set (r : row) (i n : Z) : row :=
  mkRow (<[i := n]> (cells r))
        (if (len r <=? i) && (i <? 4294967295) then i + 1 else len r).

(** [[...row]] on a row of the level file. *)
Definition spread (l : list Z) : row :=
  mkRow (list_to_map (imap (fun i n => (Z.of_nat i, n)) l))
        (Z.of_nat (length l)).

End Js.

(* ===================================================================== *)
(** ** Instruction encoding *)
(* ===================================================================== *)

Module INST.
Definition NO : Z := 0.
Definition FW : Z := 1.
Definition TL : Z := 2.
Definition TR : Z := 3.
Definition P1 : Z := 4.
Definition P2 : Z := 5.
Definition P3 : Z := 6.
Definition F0 : Z := 7.
Definition F1 : Z := 8.
Definition F2 : Z := 9.
End INST.

(** [const cond = Math.floor(instr / 100); const opcode = instr % 100]. *)
Definition decodeInstruction (instr : Z) : Z * Z :=
  (instr / 100, Z.rem instr 100).

(** The names a level file lists in [activeInstructions]. *)
Inductive Name := NO | FW | TL | TR | P1 | P2 | P3 | F0 | F1 | F2 | C1 | C2 | C3.

(** [INST[name]]: [None] for the names that are not opcodes. *)
Definition INST_of (n : Name) : option Z :=
  match n with
  | NO => Some INST.NO | FW => Some INST.FW | TL => Some INST.TL
  | TR => Some INST.TR | P1 => Some INST.P1 | P2 => Some INST.P2
  | P3 => Some INST.P3 | F0 => Some INST.F0 | F1 => Some INST.F1
  | F2 => Some INST.F2 | C1 | C2 | C3 => None
  end.

(** [COND[name]]: [{ C1: 1, C2: 2, C3: 3 }]. *)
Definition COND_of (n : Name) : option Z :=
  match n with C1 => Some 1 | C2 => Some 2 | C3 => Some 3 | _ => None end.

(* ===================================================================== *)
(** ** Level data and run-time state *)
(* ===================================================================== *)

Module level.
(** The fields of a parsed level file that the solvers read. *)
Record t := mk {
  player_x : Z;
  player_y : Z;
  player_direction : Z;
  stars : Z;
  board : list (list Z);
  activeInstructions : option (list Name);
  functions : option (list Z)        (* the [length] of each function slot *)
}.
End level.

Module state.
(** The [state] object of the executors. *)
Record t := mk {
  x : Z;
  y : Z;
  dir : Z;
  stars : Z;
  board : list Js.row;
  stack : list Z;
  steps : Z
}.

Definition with_dir (d : Z) (s : t) : t :=
  mk (x s) (y s) d (stars s) (board s) (stack s) (steps s).

Definition with_stack (k : list Z) (s : t) : t :=
  mk (x s) (y s) (dir s) (stars s) (board s) k (steps s).

Definition with_board (b : list Js.row) (s : t) : t :=
  mk (x s) (y s) (dir s) (stars s) b (stack s) (steps s).

(** [state.stack.shift(); state.steps++] leaves this state behind. *)
Definition popped (rest : list Z) (s : t) : t :=
  mk (x s) (y s) (dir s) (stars s) (board s) rest (steps s + 1).
End state.

(** [board[y][x]]: [None] is the TypeError of indexing a missing row. *)
Definition read_cell (b : list Js.row) (y x : Z) : option Js.val :=
  match Js.index b y with
  | Some r => Some (Js.row_get r x)
  | None => None
  end.

(** [board[y][x] = n] on an existing row. *)
Definition write_cell (b : list Js.row) (y x n : Z) : list Js.row :=
  match Js.index b y with
  | Some r => <[Z.to_nat y := Js.row_set r x n]> b
  | None => b
  end.

(** What one run returns: [{ solved: true, steps }], [{ solved: false }],
    or (loop-detecting executor only) [{ solved: false, loopDetected: true }]. *)
Inductive RunResult :=
| Solved (steps : Z)
| Unsolved
| UnsolvedLoop.

(** The [solved] field of the returned object. *)
Definition solved (r : RunResult) : bool :=
  match r with Solved _ => true | _ => false end.

(** How one pass through the loop body ends: it falls through to the next
    test of the loop condition, executes a [return], or an uncaught
    TypeError escapes.  The state is the [state] object at that moment. *)
Inductive Flow :=
| Next (s : state.t)
| Return (r : RunResult) (s : state.t)
| Throws (s : state.t).

(** How a whole run ends. *)
Inductive Final :=
| Done (r : RunResult) (s : state.t)
| Threw (s : state.t)
| OutOfFuel (s : state.t).

(* ===================================================================== *)
(** ** The opcodes *)
(* ===================================================================== *)

Definition dx : list Z := [-1; 0; 1; 0].
Definition dy : list Z := [0; -1; 0; 1].

(** [case INST.FW]. *)
Definition forward (s : state.t) : Flow :=
  match Js.index dx (state.dir s), Js.index dy (state.dir s) with
  | Some ddx, Some ddy =>
      let newX := state.x s + ddx in
      let newY := state.y s + ddy in
      if (newX <? 0) || (16 <=? newX) || (newY <? 0) || (16 <=? newY)
      then Return Unsolved s
      else
        match read_cell (state.board s) newY newX with
        | None => Throws s
        | Some targetCell =>
            if Js.strict_eq targetCell 0 then Return Unsolved s
            else
              match targetCell with
              | Js.num n =>
                  if 3 <? n
                  then Next (state.mk newX newY (state.dir s) (state.stars s - 1)
                               (write_cell (state.board s) newY newX (n - 4))
                               (state.stack s) (state.steps s))
                  else Next (state.mk newX newY (state.dir s) (state.stars s)
                               (state.board s) (state.stack s) (state.steps s))
              | Js.undefined =>
                  Next (state.mk newX newY (state.dir s) (state.stars s)
                          (state.board s) (state.stack s) (state.steps s))
              end
        end
  | _, _ => Throws s   (* NaN coordinates pass the bounds test; board[NaN] is undefined *)
  end.

(** [case INST.TL] and [case INST.TR]. *)
Definition turnLeft (s : state.t) : state.t :=
  state.with_dir (Z.rem (state.dir s + 3) 4) s.

Definition turnRight (s : state.t) : state.t :=
  state.with_dir (Z.rem (state.dir s + 1) 4) s.

(** [case INST.P1 .. P3]: [board[y][x] = color + (board[y][x] > 3 ? 4 : 0)]. *)
Definition paint (color : Z) (s : state.t) : Flow :=
  match read_cell (state.board s) (state.y s) (state.x s) with
  | None => Throws s
  | Some v =>
      Next (state.with_board
              (write_cell (state.board s) (state.y s) (state.x s)
                 (color + (if Js.gt v 3 then 4 else 0)))
              s)
  end.

(** [case INST.F0: case INST.F1: case INST.F2]: the body of the called
    function is put in front of the stack.  [nonEmptyOnly] is the extra
    [&& programFunctions[funcIndex].length > 0] of two of the executors. *)
Definition call (nonEmptyOnly : bool) (programFunctions : list (list Z))
    (funcIndex : Z) (s : state.t) : state.t :=
  match Js.index programFunctions funcIndex with
  | Some f =>
      if nonEmptyOnly && (length f =? 0)%nat then s
      else state.with_stack (f ++ state.stack s) s
  | None => s
  end.

(** The [switch (opcode)] of the executors; an opcode without a case does
    nothing. *)
Definition execOpcode (nonEmptyOnly : bool) (programFunctions : list (list Z))
    (opcode : Z) (s : state.t) : Flow :=
  if opcode =? INST.FW then forward s
  else if opcode =? INST.TL then Next (turnLeft s)
  else if opcode =? INST.TR then Next (turnRight s)
  else if opcode =? INST.P1 then paint 1 s
  else if opcode =? INST.P2 then paint 2 s
  else if opcode =? INST.P3 then paint 3 s
  else if (opcode =? INST.F0) || (opcode =? INST.F1) || (opcode =? INST.F2)
       then Next (call nonEmptyOnly programFunctions (opcode - INST.F0) s)
  else Next s.

(** From [const instr = state.stack.shift()] to the end of the loop body.
    The loop condition guarantees a non-empty stack; on an empty one
    [shift()] would give [undefined], whose decoding is NaN and matches no
    case. *)
Definition execInstruction (nonEmptyOnly : bool)
    (programFunctions : list (list Z)) (s : state.t) : Flow :=
  match state.stack s with
  | [] => Next (state.popped [] s)
  | instr :: rest =>
      let s1 := state.popped rest s in
      let '(cond, opcode) := decodeInstruction instr in
      if 0 <? cond then
        match read_cell (state.board s1) (state.y s1) (state.x s1) with
        | None => Throws s1
        | Some tileValue =>
            let tileColor := Js.rem tileValue 4 in
            if Js.strict_ne tileColor cond then Next s1
            else execOpcode nonEmptyOnly programFunctions opcode s1
        end
      else execOpcode nonEmptyOnly programFunctions opcode s1
  end.

(** The initial [state] object. *)
Definition initialState (levelData : level.t) (programFunctions : list (list Z))
  : state.t :=
  state.mk (level.player_x levelData) (level.player_y levelData)
           (level.player_direction levelData) (level.stars levelData)
           (map Js.spread (level.board levelData))
           (match programFunctions !! 0%nat with Some f => f | None => [] end)
           0.

(* ===================================================================== *)
(** ** Helpers shared by the search engines *)
(* ===================================================================== *)

(** [a.slice(start, end)]; a negative index counts from the end. *)
Definition slice {A} (a : list A) (start finish : Z) : list A :=
  let n := Z.of_nat (length a) in
  let norm k := if k <? 0 then Z.max (n + k) 0 else Z.min k n in
  drop (Z.to_nat (norm start)) (take (Z.to_nat (norm finish)) a).

(** The values [0, 1, ..., last] of a counting [for] loop. *)
Definition upTo (last : Z) : list nat := seq 0 (Z.to_nat (last + 1)).

(** [functionLengths.reduce((a, b) => a + b, 0)]. *)
Definition sumLengths (functionLengths : list Z) : Z :=
  foldl Z.add 0 functionLengths.

(** [(levelData.functions || [{ length: 12 }]).map(f => f.length)]. *)
Definition functionLengthsOf (levelData : level.t) : list Z :=
  match level.functions levelData with Some fs => fs | None => [12] end.

(** [levelData.activeInstructions || []]. *)
Definition availableInstructionsOf (levelData : level.t) : list Name :=
  match level.activeInstructions levelData with Some ns => ns | None => [] end.

(** The number of instructions of a program. *)
Definition instrCount (program : list (list Z)) : Z :=
  Z.of_nat (length (concat program)).

(** What a solver's [solve] resolves to when no deadline passes and nobody
    calls [stop()]: [{ solved: true, program, steps, tested }] or
    [{ solved: false, tested }]; [SolveThrew] when an executor's TypeError
    escapes. *)
Inductive SolveResult (P : Type) :=
| Found (program : P) (steps : Z) (tested : Z)
| NotFound (tested : Z)
| SolveThrew.
Arguments Found {P} _ _ _.
Arguments NotFound {P} _.
Arguments SolveThrew {P}.

(* ===================================================================== *)
(** ** [Solver]: the executor, program generation and the search *)
(* ===================================================================== *)

Module Solver.

(** [state.steps < maxSteps && state.stack.length > 0]. *)
Definition loopCondition (maxSteps : Z) (s : state.t) : bool :=
  (state.steps s <? maxSteps) && (0 <? length (state.stack s))%nat.

(** The body of the [while] loop. *)
Definition loopBody (programFunctions : list (list Z)) (s : state.t) : Flow :=
  if state.stars s =? 0 then Return (Solved (state.steps s)) s
  else if (100 <? length (state.stack s))%nat then Return Unsolved s
  else execInstruction false programFunctions s.

(** The two statements after the loop. *)
Definition afterLoop (s : state.t) : RunResult :=
  if state.stars s =? 0 then Solved (state.steps s) else Unsolved.

(** One test of the loop condition followed by the body or by the code
    after the loop. *)
Definition iteration (programFunctions : list (list Z)) (maxSteps : Z)
    (s : state.t) : Flow :=
  if loopCondition maxSteps s then loopBody programFunctions s
  else Return (afterLoop s) s.

Fixpoint run (programFunctions : list (list Z)) (maxSteps : Z)
    (fuel : nat) (s : state.t) : Final :=
  match fuel with
  | O => OutOfFuel s
  | S fuel' =>
      match iteration programFunctions maxSteps s with
      | Next s' => run programFunctions maxSteps fuel' s'
      | Return r s' => Done r s'
      | Throws s' => Threw s'
      end
  end.

(** Every pass through the body increments [steps], so [maxSteps] passes
    and one last test of the condition are all a run can make. *)
Definition fuelFor (maxSteps : Z) : nat := S (Z.to_nat maxSteps).

Definition executeProgram (levelData : level.t)
    (programFunctions : list (list Z)) (maxSteps : Z) : Final :=
  run programFunctions maxSteps (fuelFor maxSteps)
      (initialState levelData programFunctions).

Definition defaultMaxSteps : Z := 10000.

Record InstructionSet := mkSet {
  unconditional : list Z;
  conditional : list Z;
  all : list Z
}.

(** [buildInstructionSet(activeInstructions)]. *)
Definition buildInstructionSet (activeInstructions : list Name) : InstructionSet :=
  let opcodes := omap INST_of activeInstructions in
  let conds := omap COND_of activeInstructions in
  let unconditional := opcodes in
  let conditional :=
    flat_map (fun cond => map (fun op => cond * 100 + op) opcodes) conds in
  mkSet unconditional conditional (unconditional ++ conditional).

(** The sequences [genInstructions(len, [])] completes, in the order it
    reaches them: every list of [len] instructions, the first position
    varying slowest. *)
Fixpoint sequences (instrList : list Z) (len : nat) : list (list Z) :=
  match len with
  | O => [[]]
  | S len' =>
      flat_map (fun instr => map (cons instr) (sequences instrList len')) instrList
  end.

(** [genFunc(funcIndex, totalUsed)], as the list of what it yields; the
    argument is the lengths of the slots from [funcIndex] on, and a yielded
    value is the part of the program from [funcIndex] on (each level writes
    its own slot of the array the innermost level created). *)
Fixpoint genFunc (maxTotalInstructions : Z) (instrList : list Z)
    (functionLengths : list Z) (totalUsed : Z) : list (list (list Z)) :=
  match functionLengths with
  | [] => if 0 <? totalUsed then [[]] else []
  | flen :: later =>
      let maxLen := Z.min flen (maxTotalInstructions - totalUsed) in
      flat_map
        (fun len =>
           flat_map
             (fun seq =>
                map (cons seq)
                    (genFunc maxTotalInstructions instrList later
                       (totalUsed + Z.of_nat len)))
             (sequences instrList len))
        (upTo maxLen)
  end.

(** [generatePrograms(instructionSet, functionLengths, maxTotalInstructions,
    unconditionalOnly)]. *)
Definition generatePrograms (instructionSet : InstructionSet)
    (functionLengths : list Z) (maxTotalInstructions : Z)
    (unconditionalOnly : bool) : list (list (list Z)) :=
  let instrList :=
    if unconditionalOnly then unconditional instructionSet
    else unconditional instructionSet ++ conditional instructionSet in
  genFunc maxTotalInstructions instrList functionLengths 0.

(** Strategies 1 to 3 of [generateInstructionSubsets(allInstr, size,
    priorityInstr)], which involve no random choice. *)
Definition plannedSubsets (allInstr : list Z) (size : Z) : list (list Z) :=
  let funcCalls := filter (fun i => 7 <= i /\ i <= 9) allInstr in
  let movement := filter (fun i => 1 <= i /\ i <= 3) allInstr in
  let paint := filter (fun i => 4 <= i /\ i <= 6) allInstr in
  let conditional := filter (fun i => 100 <= i) allInstr in
  let nonEmpty (l : list Z) := (0 <? length l)%nat in
  (if (3 <=? size) && nonEmpty movement && nonEmpty conditional then
     let base := slice movement 0 (Z.min 2 (size - 1)) in
     let width := size - Z.of_nat (length base) in
     map (fun i => base ++ slice conditional (Z.of_nat i) (Z.of_nat i + width))
         (upTo (Z.min (Z.of_nat (length conditional)) width - 1))
   else []) ++
  (if (4 <=? size) && nonEmpty movement && nonEmpty paint && nonEmpty conditional
   then [slice movement 0 2 ++ slice paint 0 1 ++ slice conditional 0 (size - 3)]
   else []) ++
  (if (4 <=? size) && nonEmpty funcCalls && nonEmpty movement
   then [slice movement 0 2 ++ slice funcCalls 0 (Z.min 2 (size - 2)) ++
         slice conditional 0 (Z.max 0 (size - 4))]
   else []).

(** [generateInstructionSubsets]: the planned subsets, then the subsets
    strategy 4 draws with [Math.random()], which are a parameter here. *)
Definition generateInstructionSubsets (drawn : Z -> list (list Z))
    (allInstr : list Z) (size : Z) : list (list Z) :=
  plannedSubsets allInstr size ++ drawn size.

Definition maxPerDepth : nat := 5000.

(** The loop [for (const program of this.generatePrograms(...))] of one
    depth: the programs are executed in order until one is solved. *)
Fixpoint testPrograms (levelData : level.t) (programs : list (list (list Z)))
    (tested : Z) : SolveResult (list (list Z)) :=
  match programs with
  | [] => NotFound tested
  | program :: later =>
      match executeProgram levelData program defaultMaxSteps with
      | Done (Solved steps) _ => Found program steps (tested + 1)
      | Done _ _ => testPrograms levelData later (tested + 1)
      | Threw _ | OutOfFuel _ => SolveThrew
      end
  end.

(** The loop [for (let depth = 1; depth <= maxDepth; depth++)]; at most
    [maxPerDepth] programs are executed per depth. *)
Fixpoint testDepths (levelData : level.t) (subset : list Z)
    (functionLengths : list Z) (depths : list Z) (tested : Z)
  : SolveResult (list (list Z)) :=
  match depths with
  | [] => NotFound tested
  | depth :: deeper =>
      let subsetInstrSet := mkSet subset [] subset in
      match testPrograms levelData
              (take maxPerDepth
                 (generatePrograms subsetInstrSet functionLengths depth false))
              tested with
      | NotFound tested' =>
          testDepths levelData subset functionLengths deeper tested'
      | r => r
      end
  end.

(** The depths [1 .. maxDepth]. *)
Definition depthsTo (maxDepth : Z) : list Z :=
  map (fun d => Z.of_nat d) (seq 1 (Z.to_nat maxDepth)).

(** The loop [for (const subset of subsets)]. *)
Fixpoint testSubsets (levelData : level.t) (functionLengths : list Z)
    (subsets : list (list Z)) (tested : Z) : SolveResult (list (list Z)) :=
  match subsets with
  | [] => NotFound tested
  | subset :: others =>
      let maxDepth := Z.min (sumLengths functionLengths) 8 in
      match testDepths levelData subset functionLengths (depthsTo maxDepth)
              tested with
      | NotFound tested' => testSubsets levelData functionLengths others tested'
      | r => r
      end
  end.

(** The loop [for (let subsetSize = 3; subsetSize <= maxInstrInSubset;
    subsetSize++)]. *)
Fixpoint testSizes (drawn : Z -> list (list Z)) (levelData : level.t)
    (functionLengths : list Z) (allInstr : list Z) (sizes : list Z)
    (tested : Z) : SolveResult (list (list Z)) :=
  match sizes with
  | [] => NotFound tested
  | subsetSize :: larger =>
      match testSubsets levelData functionLengths
              (generateInstructionSubsets drawn allInstr subsetSize) tested with
      | NotFound tested' =>
          testSizes drawn levelData functionLengths allInstr larger tested'
      | r => r
      end
  end.

(** The subset sizes [3 .. maxInstrInSubset]. *)
Definition sizesTo (maxInstrInSubset : Z) : list Z :=
  map (fun k => Z.of_nat k) (seq 3 (Z.to_nat (maxInstrInSubset - 2))).

(** [solve(levelData)]. *)
Definition solve (drawn : Z -> list (list Z)) (levelData : level.t)
  : SolveResult (list (list Z)) :=
  let availableInstructions := availableInstructionsOf levelData in
  let functionLengths := functionLengthsOf levelData in
  if (length availableInstructions =? 0)%nat then
    let emptyProgram := map (fun _ => []) functionLengths in
    match executeProgram levelData emptyProgram defaultMaxSteps with
    | Done (Solved steps) _ => Found emptyProgram steps 1
    | Done _ _ => NotFound 1
    | Threw _ | OutOfFuel _ => SolveThrew
    end
  else
    let instructionSet := buildInstructionSet availableInstructions in
    let allInstr := unconditional instructionSet ++ conditional instructionSet in
    let maxInstrInSubset := Z.min (Z.of_nat (length allInstr)) 8 in
    testSizes drawn levelData functionLengths allInstr
      (sizesTo maxInstrInSubset) 0.

(** Every program the search may execute: for each subset size, subset and
    depth, the programs generated for it up to the cap per depth. *)
Definition searchSpace (drawn : Z -> list (list Z)) (levelData : level.t)
  : list (list (list Z)) :=
  let functionLengths := functionLengthsOf levelData in
  let instructionSet := buildInstructionSet (availableInstructionsOf levelData) in
  let allInstr := unconditional instructionSet ++ conditional instructionSet in
  flat_map
    (fun subsetSize =>
       flat_map
         (fun subset =>
            flat_map
              (fun depth =>
                 take maxPerDepth
                   (generatePrograms (mkSet subset [] subset) functionLengths
                      depth false))
              (depthsTo (Z.min (sumLengths functionLengths) 8)))
         (generateInstructionSubsets drawn allInstr subsetSize))
    (sizesTo (Z.min (Z.of_nat (length allInstr)) 8)).

End Solver.

(* ===================================================================== *)
(** ** The executor of the level-1 test script *)
(* ===================================================================== *)

Module FixedExecutor.

(** The script's own [executeProgram] ("Testing fixed executor on level
    1"): the loop of [Solver.executeProgram] with a [switch] that has no
    paint cases, and an initial stack [[...programFunctions[0]]] that throws
    when function 0 is not defined. *)
Definition execOpcode (programFunctions : list (list Z)) (opcode : Z)
    (s : state.t) : Flow :=
  if opcode =? INST.FW then forward s
  else if opcode =? INST.TL then Next (turnLeft s)
  else if opcode =? INST.TR then Next (turnRight s)
  else if (opcode =? INST.F0) || (opcode =? INST.F1) || (opcode =? INST.F2)
       then Next (call false programFunctions (opcode - INST.F0) s)
  else Next s.

Definition execInstruction (programFunctions : list (list Z)) (s : state.t)
  : Flow :=
  match state.stack s with
  | [] => Next (state.popped [] s)
  | instr :: rest =>
      let s1 := state.popped rest s in
      let '(cond, opcode) := decodeInstruction instr in
      if 0 <? cond then
        match read_cell (state.board s1) (state.y s1) (state.x s1) with
        | None => Throws s1
        | Some tileValue =>
            let tileColor := Js.rem tileValue 4 in
            if Js.strict_ne tileColor cond then Next s1
            else execOpcode programFunctions opcode s1
        end
      else execOpcode programFunctions opcode s1
  end.

Definition loopCondition (maxSteps : Z) (s : state.t) : bool :=
  (state.steps s <? maxSteps) && (0 <? length (state.stack s))%nat.

Definition loopBody (programFunctions : list (list Z)) (s : state.t) : Flow :=
  if state.stars s =? 0 then Return (Solved (state.steps s)) s
  else if (100 <? length (state.stack s))%nat then Return Unsolved s
  else execInstruction programFunctions s.

Definition afterLoop (s : state.t) : RunResult :=
  if state.stars s =? 0 then Solved (state.steps s) else Unsolved.

Definition iteration (programFunctions : list (list Z)) (maxSteps : Z)
    (s : state.t) : Flow :=
  if loopCondition maxSteps s then loopBody programFunctions s
  else Return (afterLoop s) s.

Fixpoint run (programFunctions : list (list Z)) (maxSteps : Z)
    (fuel : nat) (s : state.t) : Final :=
  match fuel with
  | O => OutOfFuel s
  | S fuel' =>
      match iteration programFunctions maxSteps s with
      | Next s' => run programFunctions maxSteps fuel' s'
      | Return r s' => Done r s'
      | Throws s' => Threw s'
      end
  end.

Definition executeProgram (levelData : level.t)
    (programFunctions : list (list Z)) (maxSteps : Z) : Final :=
  match programFunctions !! 0%nat with
  | Some _ =>
      run programFunctions maxSteps (S (Z.to_nat maxSteps))
          (initialState levelData programFunctions)
  | None => Threw (initialState levelData programFunctions)
  end.

End FixedExecutor.

(* ===================================================================== *)
(** ** [ConstraintSolver]: constraint propagation *)
(* ===================================================================== *)

Module ConstraintSolver.

(** The constraints object; the two flags are absent (falsy) in the
    initial object [{ leftTurns: 0, rightTurns: 0, lastPaint: null,
    terminated: false }]. *)
Record Constraints := mkC {
  leftTurns : Z;
  rightTurns : Z;
  lastPaint : option Z;
  terminated : bool;
  noLeftTurn : bool;
  noRightTurn : bool
}.

Definition initialConstraints : Constraints := mkC 0 0 None false false false.

(** [propagateConstraints(constraints, instruction, pos, maxLen)].  The
    result is never [null]. *)
Definition propagateConstraints (constraints : Constraints) (instruction : Z)
  : option Constraints :=
  let cond := instruction / 100 in
  let opcode := Z.rem instruction 100 in
  let terminated' :=
    if (cond =? 0) &&
       ((opcode =? INST.F0) || (opcode =? INST.F1) || (opcode =? INST.F2))
    then true else terminated constraints in
  let lastPaint' :=
    if opcode =? INST.P3 then Some 3
    else if opcode =? INST.P2 then Some 2
    else if opcode =? INST.P1 then Some 1
    else lastPaint constraints in
  if opcode =? INST.TL then
    let leftTurns' := leftTurns constraints + 1 in
    Some (mkC leftTurns' 0 lastPaint' terminated'
              (noLeftTurn constraints)
              (if 2 <=? leftTurns' then true else noRightTurn constraints))
  else if opcode =? INST.TR then
    let rightTurns' := rightTurns constraints + 1 in
    Some (mkC 0 rightTurns' lastPaint' terminated'
              (if 2 <=? rightTurns' then true else noLeftTurn constraints)
              (noRightTurn constraints))
  else Some (mkC 0 0 lastPaint' terminated' false false).

(** [getValidInstructions(constraints, allInstructions)]. *)
Definition getValidInstructions (constraints : Constraints)
    (allInstructions : list Z) : list Z :=
  if terminated constraints then []
  else
    let valid := allInstructions in
    let valid :=
      if noLeftTurn constraints
      then filter (fun i => Z.rem i 100 <> INST.TL) valid else valid in
    let valid :=
      if noRightTurn constraints
      then filter (fun i => Z.rem i 100 <> INST.TR) valid else valid in
    valid.

(** [buildInstructions(activeInstructions)]: opcodes as they come, each
    condition combined with every opcode, duplicates removed (a [Set] keeps
    the first occurrence). *)
Fixpoint dedupe (l : list Z) : list Z :=
  match l with
  | [] => []
  | i :: rest => i :: filter (fun j => j <> i) (dedupe rest)
  end.

Definition buildInstructions (activeInstructions : list Name) : list Z :=
  dedupe
    (flat_map
       (fun name =>
          match INST_of name, COND_of name with
          | Some op, _ => [op]
          | None, Some condNum =>
              map (fun op => condNum * 100 + op) (omap INST_of activeInstructions)
          | None, None => []
          end)
       activeInstructions).

(** [executeProgram]: the executor of this class, whose call case has the
    extra non-empty test. *)
Definition loopCondition (maxSteps : Z) (s : state.t) : bool :=
  (state.steps s <? maxSteps) && (0 <? length (state.stack s))%nat.

Definition loopBody (programFunctions : list (list Z)) (s : state.t) : Flow :=
  if state.stars s =? 0 then Return (Solved (state.steps s)) s
  else if (100 <? length (state.stack s))%nat then Return Unsolved s
  else execInstruction true programFunctions s.

Definition afterLoop (s : state.t) : RunResult :=
  if state.stars s =? 0 then Solved (state.steps s) else Unsolved.

Definition iteration (programFunctions : list (list Z)) (maxSteps : Z)
    (s : state.t) : Flow :=
  if loopCondition maxSteps s then loopBody programFunctions s
  else Return (afterLoop s) s.

Fixpoint run (programFunctions : list (list Z)) (maxSteps : Z)
    (fuel : nat) (s : state.t) : Final :=
  match fuel with
  | O => OutOfFuel s
  | S fuel' =>
      match iteration programFunctions maxSteps s with
      | Next s' => run programFunctions maxSteps fuel' s'
      | Return r s' => Done r s'
      | Throws s' => Threw s'
      end
  end.

Definition executeProgram (levelData : level.t)
    (programFunctions : list (list Z)) (maxSteps : Z) : Final :=
  run programFunctions maxSteps (S (Z.to_nat maxSteps))
      (initialState levelData programFunctions).

Definition defaultMaxSteps : Z := 10000.

(** The [program] array the search fills in place: one array per function
    slot, whose entries are instructions or [null]. *)
Abbreviation Store := (list (list (option Z))).

(** A [null] entry reaches the executor as an instruction; in
    [Math.floor(instr / 100)] and [instr % 100] it counts as 0. *)
Definition asNumber (e : option Z) : Z :=
  match e with Some i => i | None => 0 end.

Definition asProgram (program : Store) : list (list Z) :=
  map (map asNumber) program.

(** [f[pos] = e] on an array [f] filled from the left: an index below the
    length overwrites, the index [length] appends (larger indices, which the
    search never writes, would leave holes that read as [undefined]; they
    are padded with [null], which the executor treats alike). *)
Definition setAt (f : list (option Z)) (pos : nat) (e : option Z)
  : list (option Z) :=
  if (pos <? length f)%nat then <[pos := e]> f
  else f ++ replicate (pos - length f) None ++ [e].

(** [program[funcIdx][pos] = e]; [None] when [program[funcIdx]] is
    [undefined] and the assignment throws. *)
Definition setEntry (program : Store) (funcIdx pos : nat) (e : option Z)
  : option Store :=
  match program !! funcIdx with
  | Some f => Some (<[funcIdx := setAt f pos e]> program)
  | None => None
  end.

(** What a search function hands back: its return value, the [program]
    array as it leaves it, and the programs it has executed, in order (the
    source counts them in [tested]). *)
Inductive Outcome :=
| Success (program : Store) (steps : Z)     (* [{ solved: true, program, steps }] *)
| Failure                                   (* [{ solved: false }] *)
| Error.                                    (* an exception escapes *)

Record Ran := mkRan {
  outcome : Outcome;
  store : Store;
  tested : list Store
}.

(** [r] happened, then [r'] happened. *)
Definition andThen (r r' : Ran) : Ran :=
  mkRan (outcome r') (store r') (tested r ++ tested r').

(** A [for (const a of items)] loop whose body returns from the enclosing
    function as soon as its result is solved. *)
Fixpoint forEach {A} (items : list A) (body : A -> Store -> Ran)
    (program : Store) : Ran :=
  match items with
  | [] => mkRan Failure program []
  | a :: more =>
      let r := body a program in
      match outcome r with
      | Failure => andThen r (forEach more body (store r))
      | _ => r
      end
  end.

Section Enumeration.

Variable levelData : level.t.
Variable allInstructions : list Z.
Variable funcLengths : list Z.
Variable targetTotal : Z.

(** The inner [search(pos, constraints)] of [fillFunction]; [remaining] is
    [targetLen - pos]. *)
Fixpoint fillSearch (funcIdx : nat) (onComplete : Store -> Ran)
    (remaining : nat) (pos : nat) (constraints : Constraints)
    (program : Store) : Ran :=
  match remaining with
  | O => onComplete program
  | S remaining' =>
      let allowed := getValidInstructions constraints allInstructions in
      forEach allowed
        (fun instr program =>
           match setEntry program funcIdx pos (Some instr) with
           | None => mkRan Error program []
           | Some program1 =>
               let tried :=
                 match propagateConstraints constraints instr with
                 | Some newConstraints =>
                     fillSearch funcIdx onComplete remaining' (S pos)
                       newConstraints program1
                 | None => mkRan Failure program1 []
                 end in
               match outcome tried with
               | Failure =>
                   match setEntry (store tried) funcIdx pos None with
                   | Some program2 => mkRan Failure program2 (tested tried)
                   | None => mkRan Error (store tried) (tested tried)
                   end
               | _ => tried
               end
           end)
        program
  end.

(** [fillFunction(program, funcIdx, targetLen, allInstructions, onComplete)]. *)
Definition fillFunction (program : Store) (funcIdx : nat) (targetLen : nat)
    (onComplete : Store -> Ran) : Ran :=
  fillSearch funcIdx onComplete targetLen 0 initialConstraints program.

(** The test of a completed program in [tryBuildProgram]. *)
Definition testProgram (program : Store) : Ran :=
  match executeProgram levelData (asProgram program) defaultMaxSteps with
  | Done (Solved steps) _ => mkRan (Success program steps) program [program]
  | Done _ _ => mkRan Failure program [program]
  | Threw _ | OutOfFuel _ => mkRan Error program [program]
  end.

(** The [search(funcIdx, usedTotal)] of [tryBuildProgram]; the argument is
    what is left of [funcOrder] from [funcIdx] on. *)
Fixpoint search (funcOrder : list nat) (usedTotal : Z) (program : Store) : Ran :=
  match funcOrder with
  | [] =>
      if usedTotal =? targetTotal then testProgram program
      else mkRan Failure program []
  | realIdx :: later =>
      match funcLengths !! realIdx with
      | Some flen =>
          let maxLen := Z.min flen (targetTotal - usedTotal) in
          forEach (upTo maxLen)
            (fun len program =>
               fillFunction program realIdx len
                 (fun program => search later (usedTotal + Z.of_nat len) program))
            program
      | None => mkRan Failure program []     (* [Math.min(undefined, _)] is NaN: no pass *)
      end
  end.

(** [tryBuildProgram(levelData, instructions, funcLengths, funcOrder,
    targetTotal, progressCallback)]. *)
Definition tryBuildProgram (funcOrder : list nat) : Ran :=
  search funcOrder 0 (map (fun _ => []) funcLengths).

End Enumeration.

(** [functionLengths.map((len, idx) => ({ idx, len })).sort((a, b) =>
    b.len - a.len).map(f => f.idx)]: the slot indices, longest slot first,
    equal lengths in index order (the sort is stable). *)
Fixpoint insertByLength (e : nat * Z) (sorted : list (nat * Z)) : list (nat * Z) :=
  match sorted with
  | [] => [e]
  | e' :: rest =>
      if snd e' <? snd e then e :: sorted
      else e' :: insertByLength e rest
  end.

Definition sortByLength (l : list (nat * Z)) : list (nat * Z) :=
  foldl (fun sorted e => insertByLength e sorted) [] l.

Definition funcOrderOf (functionLengths : list Z) : list nat :=
  map fst (sortByLength (imap (fun idx len => (idx, len)) functionLengths)).

(** The loop [for (let totalInstr = 1; totalInstr <= sum; totalInstr++)] of
    [solve]; [count] is the number of programs executed before. *)
Fixpoint deepen (levelData : level.t) (instructions : list Z)
    (functionLengths : list Z) (funcOrder : list nat) (depths : list Z)
    (count : Z) : SolveResult Store :=
  match depths with
  | [] => NotFound count
  | totalInstr :: deeper =>
      let result :=
        tryBuildProgram levelData instructions functionLengths totalInstr
          funcOrder in
      let count' := count + Z.of_nat (length (tested result)) in
      match outcome result with
      | Success program steps => Found program steps count'
      | Failure =>
          deepen levelData instructions functionLengths funcOrder deeper count'
      | Error => SolveThrew
      end
  end.

(** The depths [1 .. sum]. *)
Definition depthsTo (sum : Z) : list Z :=
  map (fun d => Z.of_nat d) (seq 1 (Z.to_nat sum)).

(** [solve(levelData)]. *)
Definition solve (levelData : level.t) : SolveResult Store :=
  let availableInstructions := availableInstructionsOf levelData in
  let functionLengths := functionLengthsOf levelData in
  let instructions := buildInstructions availableInstructions in
  let funcOrder := funcOrderOf functionLengths in
  deepen levelData instructions functionLengths funcOrder
    (depthsTo (sumLengths functionLengths)) 0.

(** The programs executed at one depth, in order, up to the first solved
    one. *)
Definition candidatesAt (levelData : level.t) (totalInstr : Z) : list Store :=
  tested
    (tryBuildProgram levelData
       (buildInstructions (availableInstructionsOf levelData))
       (functionLengthsOf levelData) totalInstr
       (funcOrderOf (functionLengthsOf levelData))).

(** The instructions of a program array, its [null] entries left out. *)
Definition instructionsOf (program : Store) : list (list Z) :=
  map (omap id) program.


End ConstraintSolver.

(* ===================================================================== *)
(** ** [FinalSolver]: the executor with loop detection *)
(* ===================================================================== *)

Module FinalSolver.

(** [hashBoard(board)]: the text [x y value] of every cell above 0, rows
    and columns in index order, without separators. *)
Definition hashRow (y : nat) (r : Js.row) : string :=
  foldl (fun hash x =>
           match Js.row_get r (Z.of_nat x) with
           | Js.num n =>
               if 0 <? n
               then hash +:+ (pretty x +:+ pretty y +:+ pretty n)
               else hash
           | Js.undefined => hash
           end)
        "" (seq 0 (Z.to_nat (Js.len r))).

Definition hashBoard (board : list Js.row) : string :=
  foldl (fun hash yr => hash +:+ hashRow (fst yr) (snd yr))
        "" (imap (fun y r => (y, r)) board).

(** [a.join(',')]. *)
Fixpoint join (a : list Z) : string :=
  match a with
  | [] => ""
  | [i] => pretty i
  | i :: rest => pretty i +:+ "," +:+ join rest
  end.

(** [hashState(state)]: position, direction, stars, the first five stack
    entries and the board hash, separated by commas. *)
Definition hashState (s : state.t) : string :=
  let stackPreview := join (take 5 (state.stack s)) in
  let boardHash := hashBoard (state.board s) in
  pretty (state.x s) +:+ "," +:+ pretty (state.y s) +:+ "," +:+
  pretty (state.dir s) +:+ "," +:+ pretty (state.stars s) +:+ "," +:+
  stackPreview +:+ "," +:+ boardHash.

(** [state.steps < maxSteps && state.stack.length > 0 &&
    state.stack.length <= 100]. *)
Definition loopCondition (maxSteps : Z) (s : state.t) : bool :=
  (state.steps s <? maxSteps) && (0 <? length (state.stack s))%nat &&
  (length (state.stack s) <=? 100)%nat.

(** The loop body; [stateCache] is the set of keys seen so far. *)
Definition loopBody (programFunctions : list (list Z)) (s : state.t)
    (stateCache : gset string) : Flow * gset string :=
  if state.stars s =? 0 then (Return (Solved (state.steps s)) s, stateCache)
  else
    let stateKey := hashState s in
    if bool_decide (stateKey ∈ stateCache) then (Return UnsolvedLoop s, stateCache)
    else (execInstruction true programFunctions s, {[stateKey]} ∪ stateCache).

Definition afterLoop (s : state.t) : RunResult :=
  if state.stars s =? 0 then Solved (state.steps s) else Unsolved.

Definition iteration (programFunctions : list (list Z)) (maxSteps : Z)
    (s : state.t) (stateCache : gset string) : Flow * gset string :=
  if loopCondition maxSteps s then loopBody programFunctions s stateCache
  else (Return (afterLoop s) s, stateCache).

Fixpoint run (programFunctions : list (list Z)) (maxSteps : Z) (fuel : nat)
    (s : state.t) (stateCache : gset string) : Final :=
  match fuel with
  | O => OutOfFuel s
  | S fuel' =>
      match iteration programFunctions maxSteps s stateCache with
      | (Next s', cache') => run programFunctions maxSteps fuel' s' cache'
      | (Return r s', _) => Done r s'
      | (Throws s', _) => Threw s'
      end
  end.

(** [executeWithLoopDetection]; the cache is cleared first. *)
Definition executeWithLoopDetection (levelData : level.t)
    (programFunctions : list (list Z)) (maxSteps : Z) : Final :=
  run programFunctions maxSteps (S (Z.to_nat maxSteps))
      (initialState levelData programFunctions) ∅.

Definition defaultMaxSteps : Z := 1000.

(** [x % 100] and [Math.floor(x / 100)] of an array element that may be
    missing ([undefined] gives NaN, here [None]). *)
Definition opOf (e : option Z) : option Z := (fun i => Z.rem i 100) <$> e.
Definition condOf (e : option Z) : option Z := (fun i => i / 100) <$> e.

(** [a === k] for a possibly-NaN [a]. *)
Definition equals (a : option Z) (k : Z) : bool :=
  match a with Some n => n =? k | None => false end.

(** [isValidSequence(sequence, pos, funcIdx, funcLengths)]. *)
Definition isValidSequence (sequence : list Z) (pos : Z) : bool :=
  if pos =? 0 then true
  else
    let prev := Js.index sequence (pos - 1) in
    let curr := Js.index sequence pos in
    let prevOp := opOf prev in
    let currOp := opOf curr in
    if equals (condOf prev) 0 &&
       (equals prevOp INST.F0 || equals prevOp INST.F1 || equals prevOp INST.F2)
    then false
    else if (2 <=? pos) &&
            (let prev2Op := opOf (Js.index sequence (pos - 2)) in
             (equals prev2Op INST.TL && equals prevOp INST.TL && equals currOp INST.TR) ||
             (equals prev2Op INST.TR && equals prevOp INST.TR && equals currOp INST.TL))
    then false
    else true.

End FinalSolver.

(* ===================================================================== *)
(** ** [GameEngine] (the interactive engine behind the board view) *)
(* ===================================================================== *)

Module GameEngine.

Inductive Status := ready | running | won | failed.

(** [this.state]: the executor state with the [status] and [message]
    fields the engine adds. *)
Record gstate := mkG {
  core : state.t;
  status : Status;
  message : string
}.

(** The fields of the engine object that [step] reads. *)
Record t := mk {
  this_state : option gstate;                      (* null before loadLevel *)
  programFunctions : option (list (list Z))        (* undefined before loadProgram *)
}.

(** A method call returns its boolean, or a TypeError escapes. *)
Inductive Outcome :=
| Returns (b : bool) (g : gstate)
| TypeError (g : gstate).

Definition setMessage (m : string) (g : gstate) : gstate :=
  mkG (core g) (status g) m.

Definition setStatus (st : Status) (g : gstate) : gstate :=
  mkG (core g) st (message g).

Definition setCore (c : state.t) (g : gstate) : gstate :=
  mkG c (status g) (message g).

(** [`${n}`] for a number that may be NaN. *)
Definition show (n : option Z) : string :=
  match n with Some z => pretty z | None => "NaN" end.

(** [moveForward()]. *)
Definition moveForward (g : gstate) : Outcome :=
  let s := core g in
  match Js.index dx (state.dir s), Js.index dy (state.dir s) with
  | Some ddx, Some ddy =>
      let newX := state.x s + ddx in
      let newY := state.y s + ddy in
      if (newX <? 0) || (16 <=? newX) || (newY <? 0) || (16 <=? newY)
      then Returns false (setMessage "Out of bounds" g)
      else
        match read_cell (state.board s) newY newX with
        | None => TypeError g
        | Some targetCell =>
            if Js.strict_eq targetCell 0
            then Returns false (setMessage "Fell into void" g)
            else
              match targetCell with
              | Js.num n =>
                  if 3 <? n
                  then
                    let s' := state.mk newX newY (state.dir s) (state.stars s - 1)
                                (write_cell (state.board s) newY newX (n - 4))
                                (state.stack s) (state.steps s) in
                    Returns true
                      (mkG s' (status g)
                         ("Moved forward and collected star! (" +:+
                          pretty (state.stars s') +:+ " remaining)"))
                  else
                    Returns true
                      (mkG (state.mk newX newY (state.dir s) (state.stars s)
                              (state.board s) (state.stack s) (state.steps s))
                           (status g) "Moved forward")
              | Js.undefined =>
                  Returns true
                    (mkG (state.mk newX newY (state.dir s) (state.stars s)
                            (state.board s) (state.stack s) (state.steps s))
                         (status g) "Moved forward")
              end
        end
  | _, _ => TypeError g
  end.

(** [paintTile(color)]. *)
Definition paintTile (color : Z) (g : gstate) : Outcome :=
  let s := core g in
  match read_cell (state.board s) (state.y s) (state.x s) with
  | None => TypeError g
  | Some v =>
      let hasStar := Js.gt v 3 in
      Returns true
        (mkG (state.with_board
                (write_cell (state.board s) (state.y s) (state.x s)
                   (color + (if hasStar then 4 else 0))) s)
             (status g) ("Painted tile color " +:+ pretty color))
  end.

(** [callFunction(funcIndex)]: a slot that is not defined is refused. *)
Definition callFunction (programFunctions : option (list (list Z)))
    (funcIndex : Z) (g : gstate) : Outcome :=
  match programFunctions with
  | None =>
      Returns false
        (setMessage ("Function F" +:+ pretty funcIndex +:+ " not defined") g)
  | Some pf =>
      match Js.index pf funcIndex with
      | None =>
          Returns false
            (setMessage ("Function F" +:+ pretty funcIndex +:+ " not defined") g)
      | Some func =>
          Returns true
            (mkG (state.with_stack (func ++ state.stack (core g)) (core g))
                 (status g)
                 ("Called F" +:+ pretty funcIndex +:+ " (prepended " +:+
                  pretty (length func) +:+ " instructions)"))
      end
  end.

(** [executeOpcode(opcode)]; the [default] case refuses unknown opcodes. *)
Definition executeOpcode (programFunctions : option (list (list Z)))
    (opcode : Z) (g : gstate) : Outcome :=
  if opcode =? INST.NO then Returns true (setMessage "NO operation" g)
  else if opcode =? INST.FW then moveForward g
  else if opcode =? INST.TL
       then Returns true (mkG (turnLeft (core g)) (status g) "Turned left")
  else if opcode =? INST.TR
       then Returns true (mkG (turnRight (core g)) (status g) "Turned right")
  else if opcode =? INST.P1 then paintTile 1 g
  else if opcode =? INST.P2 then paintTile 2 g
  else if opcode =? INST.P3 then paintTile 3 g
  else if (opcode =? INST.F0) || (opcode =? INST.F1) || (opcode =? INST.F2)
       then callFunction programFunctions (opcode - INST.F0) g
  else Returns false (setMessage ("Unknown opcode: " +:+ pretty opcode) g).

Definition isFinished (st : Status) : bool :=
  match st with won | failed => true | _ => false end.

(** [step()] on an engine whose [this.state] is set. *)
Definition stepState (programFunctions : option (list (list Z))) (g : gstate)
  : Outcome :=
  if isFinished (status g) then Returns false g
  else if state.stars (core g) =? 0 then
    Returns false
      (mkG (core g) won
         ("Victory! Solved in " +:+ pretty (state.steps (core g)) +:+ " steps"))
  else
    match state.stack (core g) with
    | [] =>
        Returns false
          (mkG (core g) failed "Program ended without collecting all stars")
    | instr :: rest =>
        if (100 <? length (state.stack (core g)))%nat then
          Returns false (mkG (core g) failed "Stack overflow (>100 instructions)")
        else
          let g1 := setCore (state.popped rest (core g)) g in
          let '(cond, opcode) := decodeInstruction instr in
          let run :=
            match executeOpcode programFunctions opcode g1 with
            | Returns true g2 => Returns true g2
            | Returns false g2 => Returns false (setStatus failed g2)
            | TypeError g2 => TypeError g2
            end in
          if 0 <? cond then
            match read_cell (state.board (core g1)) (state.y (core g1))
                    (state.x (core g1)) with
            | None => TypeError g1
            | Some tileValue =>
                let tileColor := Js.rem tileValue 4 in
                if Js.strict_ne tileColor cond
                then Returns true
                       (setMessage ("Condition C" +:+ pretty cond +:+
                                    " failed (on color " +:+ show tileColor +:+ ")")
                                   g1)
                else run
            end
          else run
    end.

(** [step()]. *)
Definition step (e : t) : option Outcome :=
  match this_state e with
  | None => None                                  (* [return false], nothing to change *)
  | Some g => Some (stepState (programFunctions e) g)
  end.

End GameEngine.

(* ===================================================================== *)
(** ** Notions used to state the properties *)
(* ===================================================================== *)

(** The tagged outcome of the specification's data model. *)
Inductive RunOutcome :=
| OutcomeSolved (steps : Z)
| OutcomeDied (steps : Z)
| OutcomeExhausted
| OutcomeStepLimitReached.

(** The four termination conditions in the order the specification lists
    them: no stars left, empty stack, stack above the ceiling of 100, step
    counter at the cap. [None]: no condition holds and an instruction is
    popped. *)
Definition specTermination (maxSteps : Z) (s : state.t) : option RunOutcome :=
  if state.stars s =? 0 then Some (OutcomeSolved (state.steps s))
  else if (length (state.stack s) =? 0)%nat then Some OutcomeExhausted
  else if (100 <? length (state.stack s))%nat then Some (OutcomeDied (state.steps s))
  else if maxSteps <=? state.steps s then Some OutcomeStepLimitReached
  else None.

(** What the executors' return value keeps of such an outcome. *)
Definition returned (o : RunOutcome) : RunResult :=
  match o with
  | OutcomeSolved n => Solved n
  | OutcomeDied _ | OutcomeExhausted | OutcomeStepLimitReached => Unsolved
  end.

(** The cell the robot faces, [(newX, newY)] of [case INST.FW]. *)
Definition destination (s : state.t) : option (Z * Z) :=
  match Js.index dx (state.dir s), Js.index dy (state.dir s) with
  | Some ddx, Some ddy => Some (state.x s + ddx, state.y s + ddy)
  | _, _ => None
  end.

(** A board of 16 rows of 16 numbers, as every level file has it. *)
Definition grid16 (b : list Js.row) : Prop :=
  length b = 16%nat /\
  Forall (fun r => forall i, (exists n, Js.row_get r i = Js.num n) <-> 0 <= i < 16) b.

(** The robot stands on a 16 x 16 board and faces one of the four
    directions. *)
Definition wellPlaced (s : state.t) : Prop :=
  grid16 (state.board s) /\
  0 <= state.x s < 16 /\ 0 <= state.y s < 16 /\ 0 <= state.dir s < 4.

(** A level file with a 16 x 16 board and the robot on it. *)
Definition wellFormedLevel (levelData : level.t) : Prop :=
  length (level.board levelData) = 16%nat /\
  Forall (fun l => length l = 16%nat) (level.board levelData) /\
  0 <= level.player_x levelData < 16 /\
  0 <= level.player_y levelData < 16 /\
  0 <= level.player_direction levelData < 4.

(** [newX < 0 || newX >= 16 || newY < 0 || newY >= 16]. *)
Definition outOfBounds (p : Z * Z) : Prop :=
  fst p < 0 \/ 16 <= fst p \/ snd p < 0 \/ 16 <= snd p.

(** The instructions [F0], [F1], [F2] without a condition. *)
Definition isCall (instr : Z) : Prop :=
  instr = INST.F0 \/ instr = INST.F1 \/ instr = INST.F2.

(** The body a call of function [n] puts on the stack: nothing when the
    slot is not defined. *)
Definition bodyOf (pf : list (list Z)) (n : Z) : list Z :=
  match Js.index pf n with Some f => f | None => [] end.

(** The next instruction on the stack is not a paint instruction. *)
Definition noPaintNext (s : state.t) : Prop :=
  match state.stack s with
  | [] => True
  | instr :: _ =>
      Z.rem instr 100 <> INST.P1 /\ Z.rem instr 100 <> INST.P2 /\
      Z.rem instr 100 <> INST.P3
  end.

(** An instruction fires when it has no condition or its condition is the
    colour of the tile the robot stands on. *)
Definition fires (s : state.t) (instr : Z) : Prop :=
  instr / 100 <= 0 \/
  exists v, read_cell (state.board s) (state.y s) (state.x s) = Some v /\
            Js.rem v 4 = Some (instr / 100).

(** The states a run goes through in its first [n] passes through the loop,
    the starting state first; the list is shorter when the run ends earlier. *)
Fixpoint trace (pf : list (list Z)) (maxSteps : Z) (n : nat) (s : state.t)
  : list state.t :=
  s :: match n with
       | O => []
       | S n' =>
           match Solver.iteration pf maxSteps s with
           | Next s' => trace pf maxSteps n' s'
           | _ => []
           end
       end.

(** The slot a call instruction names is empty or not defined. *)
Definition emptyOrUndefined (pf : list (list Z)) (n : Z) : Prop :=
  Js.index pf n = None \/ Js.index pf n = Some [].

(** "Calling an empty or undefined function is a no-op", read on
    [GameEngine.step]: the step succeeds, only the call is popped and the
    step is counted. *)
Definition gameEngineCallIsNoOp : Prop :=
  forall (pf : list (list Z)) (g : GameEngine.gstate) (instr : Z) (rest : list Z),
    GameEngine.status g = GameEngine.ready ->
    state.stars (GameEngine.core g) <> 0 ->
    state.stack (GameEngine.core g) = instr :: rest ->
    (length rest < 100)%nat ->
    isCall instr ->
    emptyOrUndefined pf (instr - INST.F0) ->
    exists g',
      GameEngine.stepState (Some pf) g = GameEngine.Returns true g' /\
      GameEngine.core g' = state.popped rest (GameEngine.core g) /\
      GameEngine.status g' <> GameEngine.failed.

(** The two stacks the program [F0 = [TL; F0]] alternates between. *)
Definition spinStack (k : list Z) : Prop :=
  k = [INST.TL; INST.F0] \/ k = [INST.F0].

(** The executor reports the program solved. *)
Definition solvedBy (levelData : level.t) (program : list (list Z)) : Prop :=
  exists steps s,
    Solver.executeProgram levelData program Solver.defaultMaxSteps
    = Done (Solved steps) s.

(** "The returned solution's instruction count is minimal among the
    solutions of the search space", read on [Solver.solve]. *)
Definition solverReturnsMinimal : Prop :=
  forall (drawn : Z -> list (list Z)) (levelData : level.t)
         (program : list (list Z)) (steps tested : Z) (other : list (list Z)),
    Solver.solve drawn levelData = Found program steps tested ->
    other ∈ Solver.searchSpace drawn levelData ->
    solvedBy levelData other ->
    instrCount program <= instrCount other.

(** A 16 x 16 level: the robot starts at the left end of the top row on a
    colour-3 tile and faces right; the tiles ahead have colours 1, 2, 1, 1,
    2, and the sixth holds the only star on colour 1; all else is void.
    Forward, the call of F0 and the three conditions are allowed, in one
    function of six slots. *)
Definition zigzagLevel : level.t :=
  level.mk 0 0 2 1
    ([3; 1; 2; 1; 1; 2; 5; 0; 0; 0; 0; 0; 0; 0; 0; 0] :: replicate 15 (replicate 16 0))
    (Some [FW; F0; C1; C2; C3]) (Some [6]).

Module Deepening.
Import ConstraintSolver.

(** The number of instructions in a program array. *)
Definition count (program : Store) : Z := instrCount (instructionsOf program).

(** [ConstraintSolver.executeProgram] reports the program array solved. *)
Definition solves (levelData : level.t) (program : Store) (steps : Z) : Prop :=
  exists s, executeProgram levelData (asProgram program) defaultMaxSteps
            = Done (Solved steps) s.

Definition unsolved (levelData : level.t) (program : Store) : Prop :=
  forall steps, ~ solves levelData program steps.

(** An array filled from the left: instructions first, then only [null]. *)
Definition filledFromLeft (f : list (option Z)) : Prop :=
  exists k, f = map Some (omap id f) ++ replicate k None.

Definition wellFormed (program : Store) : Prop := Forall filledFromLeft program.

(** The verdicts behind a search result: every executed program but a
    returned one was not solved, and a returned one is the last executed and
    is solved. *)
Definition judged (levelData : level.t) (r : Ran) : Prop :=
  match outcome r with
  | Failure => Forall (unsolved levelData) (tested r)
  | Success program steps =>
      exists earlier,
        tested r = earlier ++ [program] /\
        Forall (unsolved levelData) earlier /\
        solves levelData program steps
  | Error => True
  end.

(** What a search function guarantees when started on the array [pre] at
    target total [total]. *)
Definition spec (levelData : level.t) (total : Z) (pre : Store) (r : Ran) : Prop :=
  Forall (fun q => count q = total) (tested r) /\
  judged levelData r /\
  (outcome r = Failure ->
   wellFormed (store r) /\ instructionsOf (store r) = instructionsOf pre).

End Deepening.

(** Why a run of [Solver.executeProgram] ends, named as the specification
    names it: the termination condition met at the top of a step, or Died
    when a Forward leaves the grid or enters a void tile.  [None] when a
    TypeError escapes or the fuel runs out. *)
Fixpoint specRun (pf : list (list Z)) (maxSteps : Z) (fuel : nat) (s : state.t)
  : option RunOutcome :=
  match fuel with
  | O => None
  | S fuel' =>
      match specTermination maxSteps s with
      | Some o => Some o
      | None =>
          match execInstruction false pf s with
          | Next s' => specRun pf maxSteps fuel' s'
          | Return _ s' => Some (OutcomeDied (state.steps s'))
          | Throws _ => None
          end
      end
  end.

Definition specOutcome (levelData : level.t) (pf : list (list Z)) (maxSteps : Z)
  : option RunOutcome :=
  specRun pf maxSteps (Solver.fuelFor maxSteps) (initialState levelData pf).

(** "The returned value tells a caller which outcome occurred", read on
    [Solver.executeProgram]. *)
Definition resultTellsOutcome : Prop :=
  exists tell : RunResult -> RunOutcome,
    forall (levelData : level.t) (pf : list (list Z)) (maxSteps : Z)
           (r : RunResult) (s : state.t) (o : RunOutcome),
      Solver.executeProgram levelData pf maxSteps = Done r s ->
      specOutcome levelData pf maxSteps = Some o ->
      tell r = o.

(** "For every VM state, executing Forward when the destination cell is
    outside the board makes the run fail at once", read on
    [Solver.executeProgram]: the destination is outside the board when the
    board has no cell there. *)
Definition forwardOffBoardDies : Prop :=
  forall (pf : list (list Z)) (maxSteps : Z) (s : state.t) (instr : Z)
         (rest : list Z) (p : Z * Z),
    state.stack s = instr :: rest ->
    Z.rem instr 100 = INST.FW ->
    fires s instr ->
    state.steps s < maxSteps ->
    state.stars s <> 0 ->
    (length (state.stack s) <= 100)%nat ->
    destination s = Some p ->
    (~ exists n, read_cell (state.board s) (snd p) (fst p) = Some (Js.num n)) ->
    exists s', Solver.iteration pf maxSteps s = Return Unsolved s'.

(* ===================================================================== *)
(** * Further functions of the sources

    - [Solver] and [ConstraintSolver]: [instructionToString];
    - [FinalSolver]: [buildInstructions], [orderInstructions],
      [fillFunction], [searchDepth], [solve], the last three also with the
      deadline and the stop flag;
    - [GameEngine]: [loadLevel], [reset], [loadProgram], [run]. *)
(* ===================================================================== *)

(* ===================================================================== *)
(** ** Instruction names *)
(* ===================================================================== *)

(** A name as the level files and the program editor write it. *)
Definition nameText (n : Name) : string :=
  match n with
  | NO => "NO" | FW => "FW" | TL => "TL" | TR => "TR"
  | P1 => "P1" | P2 => "P2" | P3 => "P3"
  | F0 => "F0" | F1 => "F1" | F2 => "F2"
  | C1 => "C1" | C2 => "C2" | C3 => "C3"
  end.

(** [{ 0: 'NO', 1: 'FW', 2: 'TL', 3: 'TR', 4: 'P1', 5: 'P2', 6: 'P3',
    7: 'F0', 8: 'F1', 9: 'F2' }[opcode]]. *)
Definition opcodeNames (opcode : Z) : option string :=
  if opcode =? 0 then Some "NO"
  else if opcode =? 1 then Some "FW"
  else if opcode =? 2 then Some "TL"
  else if opcode =? 3 then Some "TR"
  else if opcode =? 4 then Some "P1"
  else if opcode =? 5 then Some "P2"
  else if opcode =? 6 then Some "P3"
  else if opcode =? 7 then Some "F0"
  else if opcode =? 8 then Some "F1"
  else if opcode =? 9 then Some "F2"
  else None.

(** [instructionToString(instr)], the same in every solver class and, with
    the table [INST_NAMES], in [GameEngine]. *)
Definition instructionToString (instr : Z) : string :=
  let cond := instr / 100 in
  let opcode := Z.rem instr 100 in
  let opcodeName :=
    match opcodeNames opcode with Some name => name | None => "UNKNOWN" end in
  if 0 <? cond then "C" +:+ pretty cond +:+ "+" +:+ opcodeName
  else opcodeName.

(** The instructions a level can offer: an opcode 0..9 under no condition
    or under one of the three colours. *)
Definition encodable (instr : Z) : Prop :=
  exists cond op, 0 <= cond <= 3 /\ 0 <= op <= 9 /\ instr = cond * 100 + op.

(* ===================================================================== *)
(** ** [FinalSolver]: the instruction list *)
(* ===================================================================== *)

Module FinalSolverSearch.

(** [buildInstructions(activeInstructions)] of [FinalSolver]: the opcodes
    first, then each condition combined with every opcode, duplicates
    removed.  (The names that start with a C are the three conditions.) *)
Definition buildInstructions (activeInstructions : list Name) : list Z :=
  ConstraintSolver.dedupe
    (omap INST_of activeInstructions ++
     flat_map
       (fun name =>
          match COND_of name with
          | Some condNum =>
              map (fun op => condNum * 100 + op) (omap INST_of activeInstructions)
          | None => []
          end)
       activeInstructions).

(** The priority table of [orderInstructions],
    [{ 1: 10, 2: 8, 3: 8, 7: 6, 8: 6, 4: 3, 5: 3, 6: 3 }[op] || 0]. *)
Definition priority (op : Z) : Z :=
  if op =? 1 then 10
  else if (op =? 2) || (op =? 3) then 8
  else if (op =? 7) || (op =? 8) then 6
  else if (op =? 4) || (op =? 5) || (op =? 6) then 3
  else 0.

(** [ordered.sort((a, b) => priority[b % 100] - priority[a % 100])]: the
    higher priority first, equal priorities in the order they had (the
    sort is stable). *)
Fixpoint insertByPriority (i : Z) (sorted : list Z) : list Z :=
  match sorted with
  | [] => [i]
  | j :: rest =>
      if priority (Z.rem j 100) <? priority (Z.rem i 100) then i :: sorted
      else j :: insertByPriority i rest
  end.

Definition sortByPriority (l : list Z) : list Z :=
  foldl (fun sorted i => insertByPriority i sorted) [] l.

(** [orderInstructions(instructions, currentSeq, pos, funcLengths)]. *)
Definition orderInstructions (instructions : list Z) (pos : nat) : list Z :=
  if (pos =? 0)%nat then sortByPriority instructions else instructions.

(** What [solve] resolves to when no deadline passes and nobody calls
    [stop()]: [{ solved: true, program, steps, instrCount, tested }] or
    [{ solved: false, tested }]; [Escaped] when a TypeError escapes. *)
Inductive Result :=
| FoundProgram (program : ConstraintSolver.Store) (steps instrCount tested : Z)
| NoProgram (tested : Z)
| Escaped.

Section Enumeration.

Variable levelData : level.t.
Variable instructions : list Z.
Variable funcLengths : list Z.
Variable targetTotal : Z.

(** The inner [search(pos)] of [fillFunction]; [remaining] is [len - pos].
    The program array is the one of [ConstraintSolver]'s model: entries
    are instructions, and an entry an assignment would skip is a hole. *)
Fixpoint fillSearch (funcIdx : nat) (onComplete : ConstraintSolver.Store -> ConstraintSolver.Ran)
    (remaining : nat) (pos : nat) (program : ConstraintSolver.Store)
  : ConstraintSolver.Ran :=
  match remaining with
  | O => onComplete program
  | S remaining' =>
      let orderedInstr := orderInstructions instructions pos in
      ConstraintSolver.forEach orderedInstr
        (fun instr program =>
           match ConstraintSolver.setEntry program funcIdx pos (Some instr) with
           | None => ConstraintSolver.mkRan ConstraintSolver.Error program []
           | Some program1 =>
               match program1 !! funcIdx with
               | Some f =>
                   if FinalSolver.isValidSequence
                        (map ConstraintSolver.asNumber f) (Z.of_nat pos)
                   then fillSearch funcIdx onComplete remaining' (S pos) program1
                   else ConstraintSolver.mkRan ConstraintSolver.Failure program1 []
               | None => ConstraintSolver.mkRan ConstraintSolver.Error program1 []
               end
           end)
        program
  end.

(** [fillFunction(program, funcIdx, len, instructions, funcLengths,
    onComplete)]; [funcIdx] is an index of the program array. *)
Definition fillFunction (program : ConstraintSolver.Store) (funcIdx len : nat)
    (onComplete : ConstraintSolver.Store -> ConstraintSolver.Ran)
  : ConstraintSolver.Ran :=
  match len with
  | O => onComplete program
  | S _ =>
      let result := fillSearch funcIdx onComplete len 0 (<[funcIdx := []]> program) in
      ConstraintSolver.mkRan (ConstraintSolver.outcome result)
        (<[funcIdx := []]> (ConstraintSolver.store result))
        (ConstraintSolver.tested result)
  end.

(** The test of a completed program in [searchDepth]. *)
Definition testProgram (program : ConstraintSolver.Store) : ConstraintSolver.Ran :=
  match FinalSolver.executeWithLoopDetection levelData
          (ConstraintSolver.asProgram program) FinalSolver.defaultMaxSteps with
  | Done (Solved steps) _ =>
      ConstraintSolver.mkRan (ConstraintSolver.Success program steps) program [program]
  | Done _ _ => ConstraintSolver.mkRan ConstraintSolver.Failure program [program]
  | Threw _ | OutOfFuel _ =>
      ConstraintSolver.mkRan ConstraintSolver.Error program [program]
  end.

(** The [search(funcIdx, usedTotal)] of [searchDepth]; [later] is
    [funcLengths] from [funcIdx] on. *)
Fixpoint search (later : list Z) (funcIdx : nat) (usedTotal : Z)
    (program : ConstraintSolver.Store) : ConstraintSolver.Ran :=
  match later with
  | [] =>
      if usedTotal =? targetTotal then testProgram program
      else ConstraintSolver.mkRan ConstraintSolver.Failure program []
  | flen :: later' =>
      let maxLen := Z.min flen (targetTotal - usedTotal) in
      ConstraintSolver.forEach (upTo maxLen)
        (fun len program =>
           fillFunction program funcIdx len
             (fun program =>
                search later' (S funcIdx) (usedTotal + Z.of_nat len) program))
        program
  end.

(** [searchDepth(levelData, instructions, funcLengths, targetTotal,
    progressCallback)]. *)
Definition searchDepth : ConstraintSolver.Ran :=
  search funcLengths 0 0 (map (fun _ => []) funcLengths).

End Enumeration.

(** The loop [for (let totalInstr = 1; totalInstr <= maxTotal;
    totalInstr++)] of [solve]; [count] is the number of programs executed
    before. *)
Fixpoint deepen (levelData : level.t) (instructions functionLengths : list Z)
    (depths : list Z) (count : Z) : Result :=
  match depths with
  | [] => NoProgram count
  | totalInstr :: deeper =>
      let result := searchDepth levelData instructions functionLengths totalInstr in
      let count' := count + Z.of_nat (length (ConstraintSolver.tested result)) in
      match ConstraintSolver.outcome result with
      | ConstraintSolver.Success program steps =>
          FoundProgram program steps totalInstr count'
      | ConstraintSolver.Failure =>
          deepen levelData instructions functionLengths deeper count'
      | ConstraintSolver.Error => Escaped
      end
  end.

(** [solve(levelData)]. *)
Definition solve (levelData : level.t) : Result :=
  let availableInstructions := availableInstructionsOf levelData in
  let functionLengths := functionLengthsOf levelData in
  let instructions := buildInstructions availableInstructions in
  let maxTotal := Z.min (sumLengths functionLengths) 10 in
  deepen levelData instructions functionLengths
    (ConstraintSolver.depthsTo maxTotal) 0.

(** The programs executed at one depth, in order, up to the first solved
    one. *)
Definition candidatesAt (levelData : level.t) (totalInstr : Z)
  : list ConstraintSolver.Store :=
  ConstraintSolver.tested
    (searchDepth levelData (buildInstructions (availableInstructionsOf levelData))
       (functionLengthsOf levelData) totalInstr).

End FinalSolverSearch.

(* ===================================================================== *)
(** ** Notions used to state further properties *)
(* ===================================================================== *)

(** A program that turns around once in F1 before it goes on:
    [F0 = [F1; F1; FW]], [F1 = [TL; TL; TL; TL; NO]]. *)
Definition turnAroundTwice : list (list Z) :=
  [[INST.F1; INST.F1; INST.FW]; [INST.TL; INST.TL; INST.TL; INST.TL; INST.NO]].

(** What the loops of [Solver.solve] guarantee about a result, given the
    programs they go through, in order, and the count they start from: a
    returned program is the first of them that the executor finds solved,
    and [tested] has grown by the number of programs executed. *)
Definition sound (levelData : level.t) (space : list (list (list Z)))
    (tested : Z) (r : SolveResult (list (list Z))) : Prop :=
  match r with
  | Found p steps tested' =>
      exists earlier later,
        space = earlier ++ p :: later /\
        Forall (fun q => ~ solvedBy levelData q) earlier /\
        (exists s, Solver.executeProgram levelData p Solver.defaultMaxSteps
                   = Done (Solved steps) s) /\
        tested' = tested + Z.of_nat (length earlier) + 1
  | NotFound tested' =>
      Forall (fun q => ~ solvedBy levelData q) space /\
      tested' = tested + Z.of_nat (length space)
  | SolveThrew => True
  end.

(** A run of the loop-detecting executor that ends in a detected loop. *)
Definition loops (pf : list (list Z)) (maxSteps : Z) (fuel : nat)
    (s : state.t) (cache : gset string) : Prop :=
  exists final, FinalSolver.run pf maxSteps fuel s cache = Done UnsolvedLoop final.

(** The sequences [ConstraintSolver.fillFunction] can build from a
    constraints object: every instruction is one that
    [getValidInstructions] allows under the constraints propagated so far. *)
Fixpoint admits (allInstructions : list Z)
    (constraints : ConstraintSolver.Constraints) (sequence : list Z) : Prop :=
  match sequence with
  | [] => True
  | instr :: rest =>
      instr ∈ ConstraintSolver.getValidInstructions constraints allInstructions /\
      match ConstraintSolver.propagateConstraints constraints instr with
      | Some newConstraints => admits allInstructions newConstraints rest
      | None => False
      end
  end.

(** The sequences [FinalSolver.fillFunction] keeps: [isValidSequence]
    accepts every position. *)
Definition validEverywhere (sequence : list Z) : Prop :=
  forall pos, 0 <= pos < Z.of_nat (length sequence) ->
    FinalSolver.isValidSequence sequence pos = true.

(** The two entries before position [length pre], as [isValidSequence]
    reads them. *)
Definition lastTwo (pre : list Z) : option Z * option Z :=
  (Js.index pre (Z.of_nat (length pre) - 2),
   Js.index pre (Z.of_nat (length pre) - 1)).

Definition isTurnLeft (e : option Z) : bool :=
  FinalSolver.equals (FinalSolver.opOf e) INST.TL.

Definition isTurnRight (e : option Z) : bool :=
  FinalSolver.equals (FinalSolver.opOf e) INST.TR.

Definition isPlainCall (e : option Z) : bool :=
  FinalSolver.equals (FinalSolver.condOf e) 0 &&
  (FinalSolver.equals (FinalSolver.opOf e) INST.F0 ||
   FinalSolver.equals (FinalSolver.opOf e) INST.F1 ||
   FinalSolver.equals (FinalSolver.opOf e) INST.F2).

(** What [isValidSequence] answers for the instruction [instr] that
    follows the entries [h]. *)
Definition acceptsNext (h : option Z * option Z) (instr : Z) : bool :=
  negb (isPlainCall (snd h)) &&
  negb ((isTurnLeft (fst h) && isTurnLeft (snd h) && isTurnRight (Some instr)) ||
        (isTurnRight (fst h) && isTurnRight (snd h) && isTurnLeft (Some instr))).

(** A constraints object that records the entries [h]. *)
Definition records (c : ConstraintSolver.Constraints) (h : option Z * option Z)
  : Prop :=
  ConstraintSolver.terminated c = isPlainCall (snd h) /\
  ConstraintSolver.noRightTurn c = (isTurnLeft (fst h) && isTurnLeft (snd h)) /\
  ConstraintSolver.noLeftTurn c = (isTurnRight (fst h) && isTurnRight (snd h)) /\
  (1 <=? ConstraintSolver.leftTurns c) = isTurnLeft (snd h) /\
  (1 <=? ConstraintSolver.rightTurns c) = isTurnRight (snd h) /\
  0 <= ConstraintSolver.leftTurns c /\ 0 <= ConstraintSolver.rightTurns c.

(** [isValidSequence] accepts the positions of [sequence] when it follows
    [pre]. *)
Definition validAfter (pre sequence : list Z) : Prop :=
  forall k, (k < length sequence)%nat ->
    FinalSolver.isValidSequence (pre ++ sequence) (Z.of_nat (length pre + k)) = true.

(* ===================================================================== *)
(** ** [GameEngine]: loading and running *)
(* ===================================================================== *)

Module GameSession.

(** The fields of a [GameEngine] object ([animationSpeed], a constant,
    left out). *)
Record t := mk {
  levelData : option level.t;
  state : option GameEngine.gstate;
  initialState : option GameEngine.gstate;
  running : bool;
  programFunctions : option (list (list Z))
}.

(** [new GameEngine()]. *)
Definition create : t := mk None None None false None.

(** [reset()]. *)
Definition reset (e : t) : t :=
  match levelData e with
  | None => e
  | Some lvl =>
      let fresh :=
        GameEngine.mkG
          (state.mk (level.player_x lvl) (level.player_y lvl)
             (level.player_direction lvl) (level.stars lvl)
             (map Js.spread (level.board lvl)) [] 0)
          GameEngine.ready "" in
      mk (Some lvl) (Some fresh) (Some fresh) false (programFunctions e)
  end.

(** [loadLevel(levelData)]. *)
Definition loadLevel (lvl : level.t) (e : t) : t :=
  reset (mk (Some lvl) (state e) (initialState e) (running e)
            (programFunctions e)).

(** [loadProgram(programFunctions)]. *)
Definition loadProgram (pf : list (list Z)) (e : t) : t :=
  match state e with
  | None => e
  | Some g =>
      let s := GameEngine.core g in
      mk (levelData e)
         (Some (GameEngine.mkG
                  (state.mk (state.x s) (state.y s) (state.dir s)
                     (state.stars s) (state.board s)
                     (match pf !! 0%nat with Some f => f | None => [] end) 0)
                  GameEngine.ready "Program loaded"))
         (initialState e) (running e) (Some pf)
  end.

(** How [run()] ends when nobody calls [stop()]: [step()] has returned
    false, or a TypeError has escaped. *)
Inductive Ending :=
| Stopped (g : GameEngine.gstate)
| Crashed (g : GameEngine.gstate).

(** The loop [while (this.running && this.step())] of [run()] on an engine
    whose state is set; [None] when it is still going after [fuel] steps
    (the engine has no step cap). *)
Fixpoint steps (fuel : nat) (pf : option (list (list Z)))
    (g : GameEngine.gstate) : option Ending :=
  match fuel with
  | O => None
  | S fuel' =>
      match GameEngine.stepState pf g with
      | GameEngine.Returns true g' => steps fuel' pf g'
      | GameEngine.Returns false g' => Some (Stopped g')
      | GameEngine.TypeError g' => Some (Crashed g')
      end
  end.

(** [run()]: the engine it leaves behind. *)
Definition run (fuel : nat) (e : t) : option (t + GameEngine.gstate) :=
  match state e with
  | None => Some (inl (mk (levelData e) None (initialState e) false
                          (programFunctions e)))
  | Some g =>
      match steps fuel (programFunctions e) g with
      | Some (Stopped g') =>
          Some (inl (mk (levelData e) (Some g') (initialState e) false
                        (programFunctions e)))
      | Some (Crashed g') => Some (inr g')
      | None => None
      end
  end.

End GameSession.

(** A program the interactive engine can play: every opcode is one of the
    ten, and every call names a function of the program. *)
Definition playable (pf : list (list Z)) (instr : Z) : Prop :=
  0 <= Z.rem instr 100 <= 9 /\
  (7 <= Z.rem instr 100 -> Z.rem instr 100 - 7 < Z.of_nat (length pf)).

(** Every array of a program array fits its slot, [null] entries counted
    (an empty array fits a slot of any length). *)
Definition withinSlots (funcLengths : list Z) (program : list (list (option Z)))
  : Prop :=
  Forall2 (fun f flen => Z.of_nat (length f) <= Z.max 0 flen) program funcLengths.

(** The instructions of every function of a program array form a sequence
    the constraint propagation admits. *)
Definition allAdmitted (allInstructions : list Z)
    (program : list (list (option Z))) : Prop :=
  Forall (fun f => admits allInstructions ConstraintSolver.initialConstraints
                     (omap id f)) program.

Module Candidates.
Import ConstraintSolver.

(** What holds of the program array between two steps of the search. *)
Definition inv (funcLengths : list Z) (a0 : list (list Z)) (p : Store) : Prop :=
  Deepening.wellFormed p /\ instructionsOf p = a0 /\ withinSlots funcLengths p.

(** What a search function guarantees when started on an array whose
    instructions are [a0]. *)
Definition good (funcLengths allInstructions : list Z) (a0 : list (list Z))
    (r : Ran) : Prop :=
  Forall (fun q => withinSlots funcLengths q /\ allAdmitted allInstructions q)
         (tested r) /\
  (outcome r = Failure -> inv funcLengths a0 (store r)).

End Candidates.

(* ===================================================================== *)
(** ** Notions used to state the properties of [FinalSolver]'s search *)
(* ===================================================================== *)

Module FinalCandidates.
Import ConstraintSolver.

(** [executeWithLoopDetection] reports the program array solved. *)
Definition solves (levelData : level.t) (program : Store) (steps : Z) : Prop :=
  exists s, FinalSolver.executeWithLoopDetection levelData (asProgram program)
              FinalSolver.defaultMaxSteps = Done (Solved steps) s.

Definition unsolved (levelData : level.t) (program : Store) : Prop :=
  forall steps, ~ solves levelData program steps.

(** The verdicts behind a search result: every executed program but a
    returned one was not solved, and a returned one is the last executed
    and is solved. *)
Definition judged (levelData : level.t) (r : Ran) : Prop :=
  match outcome r with
  | Failure => Forall (unsolved levelData) (tested r)
  | Success program steps =>
      exists earlier,
        tested r = earlier ++ [program] /\
        Forall (unsolved levelData) earlier /\
        solves levelData program steps
  | Error => True
  end.

(** A function array that holds instructions and nothing else, fits a slot
    of length [flen], and passes [isValidSequence] at every position. *)
Definition okFunction (instructions : list Z) (flen : Z)
    (f : list (option Z)) : Prop :=
  exists a, f = map Some a /\
            Z.of_nat (length a) <= flen /\
            Forall (fun i => i ∈ instructions) a /\
            validEverywhere a.

(** A program the search has to execute at the total [total]: one function
    per slot, each of them as [okFunction] has it, [total] instructions in
    all. *)
Definition candidate (instructions funcLengths : list Z) (total : Z)
    (q : Store) : Prop :=
  Forall2 (okFunction instructions) funcLengths q /\
  Deepening.count q = total.

(** What a search function of [FinalSolver] guarantees at the total
    [total]: it executes candidates only and its verdicts are the
    executor's; no exception escapes it on a level with a 16 x 16 board and
    the robot on it; when it finds nothing, it leaves the program array in
    a state [after] allows and has executed every program of [due]. *)
Definition spec (levelData : level.t) (instructions funcLengths : list Z)
    (total : Z) (after due : Store -> Prop) (r : Ran) : Prop :=
  Forall (candidate instructions funcLengths total) (tested r) /\
  judged levelData r /\
  (wellFormedLevel levelData -> outcome r <> Error) /\
  (outcome r = Failure ->
   after (store r) /\ forall q, due q -> q ∈ tested r).

End FinalCandidates.

(* ===================================================================== *)
(** ** [FinalSolver.solve] with its deadline and its stop flag

    The clock and the flag [running] enter the search in two places.  At
    the top of the deepening loop [solve] tests both and gives up with a
    flagged result.  The progress callback, called for every completed
    program, first counts it in [tested] and then reads both again; when it
    returns false the program is not executed, and the search goes on to
    the next one.  What these tests find is an input of the model: [halted
    totalInstr] for the top of the loop, and [alive k] for the call of the
    callback that makes [tested] equal to [k]. *)
(* ===================================================================== *)

Module FinalSolverTimed.

(** Why [solve] gives up at the top of the loop: [!this.running], or
    [Date.now() - startTime > timeoutMs]. *)
Inductive Halt := Cancelled | TimedOut.

(** What [solve] resolves to:
    [{ solved: true, program, steps, instrCount, tested }],
    [{ solved: false, tested }],
    [{ solved: false, tested, cancelled: true }] or
    [{ solved: false, tested, timeout: true }]; [Escaped] when a TypeError
    escapes. *)
Inductive Result :=
| FoundProgram (program : ConstraintSolver.Store) (steps instrCount tested : Z)
| NoProgram (tested : Z)
| GaveUp (tested : Z) (why : Halt)
| Escaped.

(** A [for (const a of items)] loop whose body returns from the enclosing
    function as soon as its result is solved; [count] is the value of
    [tested] when the loop starts.  The programs of a result are those the
    callback was called for, so [tested] has grown by their number. *)
Fixpoint forEach {A} (items : list A)
    (body : A -> ConstraintSolver.Store -> Z -> ConstraintSolver.Ran)
    (program : ConstraintSolver.Store) (count : Z) : ConstraintSolver.Ran :=
  match items with
  | [] => ConstraintSolver.mkRan ConstraintSolver.Failure program []
  | a :: more =>
      let r := body a program count in
      match ConstraintSolver.outcome r with
      | ConstraintSolver.Failure =>
          ConstraintSolver.andThen r
            (forEach more body (ConstraintSolver.store r)
               (count + Z.of_nat (length (ConstraintSolver.tested r))))
      | _ => r
      end
  end.

Section Enumeration.

Variable alive : Z -> bool.
Variable levelData : level.t.
Variable instructions : list Z.
Variable funcLengths : list Z.
Variable targetTotal : Z.

(** The inner [search(pos)] of [fillFunction]; [remaining] is [len - pos]. *)
Fixpoint fillSearch (funcIdx : nat)
    (onComplete : ConstraintSolver.Store -> Z -> ConstraintSolver.Ran)
    (remaining : nat) (pos : nat) (program : ConstraintSolver.Store) (count : Z)
  : ConstraintSolver.Ran :=
  match remaining with
  | O => onComplete program count
  | S remaining' =>
      let orderedInstr := FinalSolverSearch.orderInstructions instructions pos in
      forEach orderedInstr
        (fun instr program count =>
           match ConstraintSolver.setEntry program funcIdx pos (Some instr) with
           | None => ConstraintSolver.mkRan ConstraintSolver.Error program []
           | Some program1 =>
               match program1 !! funcIdx with
               | Some f =>
                   if FinalSolver.isValidSequence
                        (map ConstraintSolver.asNumber f) (Z.of_nat pos)
                   then fillSearch funcIdx onComplete remaining' (S pos) program1 count
                   else ConstraintSolver.mkRan ConstraintSolver.Failure program1 []
               | None => ConstraintSolver.mkRan ConstraintSolver.Error program1 []
               end
           end)
        program count
  end.

(** [fillFunction(program, funcIdx, len, instructions, funcLengths,
    onComplete)]. *)
Definition fillFunction (program : ConstraintSolver.Store) (funcIdx len : nat)
    (onComplete : ConstraintSolver.Store -> Z -> ConstraintSolver.Ran) (count : Z)
  : ConstraintSolver.Ran :=
  match len with
  | O => onComplete program count
  | S _ =>
      let result :=
        fillSearch funcIdx onComplete len 0 (<[funcIdx := []]> program) count in
      ConstraintSolver.mkRan (ConstraintSolver.outcome result)
        (<[funcIdx := []]> (ConstraintSolver.store result))
        (ConstraintSolver.tested result)
  end.

(** A completed program in [searchDepth]:
    [if (!progressCallback()) return null], then the test.  The callback
    has counted the program in [tested] before it answers. *)
Definition testProgram (program : ConstraintSolver.Store) (count : Z)
  : ConstraintSolver.Ran :=
  if alive (count + 1) then
    match FinalSolver.executeWithLoopDetection levelData
            (ConstraintSolver.asProgram program) FinalSolver.defaultMaxSteps with
    | Done (Solved steps) _ =>
        ConstraintSolver.mkRan (ConstraintSolver.Success program steps) program [program]
    | Done _ _ => ConstraintSolver.mkRan ConstraintSolver.Failure program [program]
    | Threw _ | OutOfFuel _ =>
        ConstraintSolver.mkRan ConstraintSolver.Error program [program]
    end
  else ConstraintSolver.mkRan ConstraintSolver.Failure program [program].

(** The [search(funcIdx, usedTotal)] of [searchDepth]; [later] is
    [funcLengths] from [funcIdx] on. *)
Fixpoint search (later : list Z) (funcIdx : nat) (usedTotal : Z)
    (program : ConstraintSolver.Store) (count : Z) : ConstraintSolver.Ran :=
  match later with
  | [] =>
      if usedTotal =? targetTotal then testProgram program count
      else ConstraintSolver.mkRan ConstraintSolver.Failure program []
  | flen :: later' =>
      let maxLen := Z.min flen (targetTotal - usedTotal) in
      forEach (upTo maxLen)
        (fun len program count =>
           fillFunction program funcIdx len
             (fun program count =>
                search later' (S funcIdx) (usedTotal + Z.of_nat len) program count)
             count)
        program count
  end.

(** [searchDepth(levelData, instructions, funcLengths, targetTotal,
    progressCallback)], called when [tested] is [count]. *)
Definition searchDepth (count : Z) : ConstraintSolver.Ran :=
  search funcLengths 0 0 (map (fun _ => []) funcLengths) count.

End Enumeration.

(** The loop [for (let totalInstr = 1; totalInstr <= maxTotal;
    totalInstr++)] of [solve]. *)
Fixpoint deepen (alive : Z -> bool) (halted : Z -> option Halt)
    (levelData : level.t) (instructions functionLengths : list Z)
    (depths : list Z) (count : Z) : Result :=
  match depths with
  | [] => NoProgram count
  | totalInstr :: deeper =>
      match halted totalInstr with
      | Some why => GaveUp count why
      | None =>
          let result :=
            searchDepth alive levelData instructions functionLengths totalInstr
              count in
          let count' := count + Z.of_nat (length (ConstraintSolver.tested result)) in
          match ConstraintSolver.outcome result with
          | ConstraintSolver.Success program steps =>
              FoundProgram program steps totalInstr count'
          | ConstraintSolver.Failure =>
              deepen alive halted levelData instructions functionLengths deeper count'
          | ConstraintSolver.Error => Escaped
          end
      end
  end.

(** [solve(levelData, timeoutMs, onProgress)]. *)
Definition solve (alive : Z -> bool) (halted : Z -> option Halt)
    (levelData : level.t) : Result :=
  let availableInstructions := availableInstructionsOf levelData in
  let functionLengths := functionLengthsOf levelData in
  let instructions := FinalSolverSearch.buildInstructions availableInstructions in
  let maxTotal := Z.min (sumLengths functionLengths) 10 in
  deepen alive halted levelData instructions functionLengths
    (ConstraintSolver.depthsTo maxTotal) 0.

End FinalSolverTimed.

(** What a search function of [FinalSolverTimed] guarantees at the total
    [total] when [tested] was [count] at its start: the callback is called
    for candidates only; when the search finds nothing, it leaves the
    program array in a state [after] allows, the callback was called for
    every program of [due], and a program for which it returned true is not
    reported solved by the executor. *)
Definition timedSpec (alive : Z -> bool) (levelData : level.t)
    (instructions funcLengths : list Z) (total count : Z)
    (after due : ConstraintSolver.Store -> Prop) (r : ConstraintSolver.Ran)
  : Prop :=
  Forall (FinalCandidates.candidate instructions funcLengths total)
         (ConstraintSolver.tested r) /\
  (ConstraintSolver.outcome r = ConstraintSolver.Failure ->
   after (ConstraintSolver.store r) /\
   (forall q, due q -> q ∈ ConstraintSolver.tested r) /\
   (forall k q,
      ConstraintSolver.tested r !! k = Some q ->
      alive (count + Z.of_nat k + 1) = true ->
      FinalCandidates.unsolved levelData q)).


(* ===================================================================== *)
(** * Properties of the executors and of the search engines *)
(* ===================================================================== *)

(* ===================================================================== *)
(** ** Basic facts about arrays, cells and the opcodes *)
(* ===================================================================== *)

Lemma index_Some {A} (a : list A) (i : Z) (v : A) :
  Js.index a i = Some v <-> 0 <= i /\ a !! Z.to_nat i = Some v.
Proof.
  unfold Js.index. destruct (Z.leb_spec 0 i); split.
  - intros H1; split; [lia | exact H1].
  - intros [_ H1]; exact H1.
  - discriminate.
  - intros [H1 _]; lia.
Qed.

Lemma index_dx (d : Z) :
  0 <= d < 4 -> exists ddx ddy,
    Js.index dx d = Some ddx /\ Js.index dy d = Some ddy /\
    (d = 0 /\ ddx = -1 /\ ddy = 0 \/ d = 1 /\ ddx = 0 /\ ddy = -1 \/
     d = 2 /\ ddx = 1 /\ ddy = 0 \/ d = 3 /\ ddx = 0 /\ ddy = 1).
Proof.
  intros Hd.
  assert (d = 0 \/ d = 1 \/ d = 2 \/ d = 3) as [-> | [-> | [-> | ->] ] ] by lia;
    cbn; eexists _, _; repeat split; eauto 10.
Qed.

Lemma read_write_same (b : list Js.row) (y x n : Z) (v : Js.val) :
  read_cell b y x = Some v ->
  read_cell (write_cell b y x n) y x = Some (Js.num n).
Proof.
  unfold read_cell, write_cell.
  destruct (Js.index b y) as [r|] eqn:Hr; [|discriminate].
  intros _. apply index_Some in Hr as [Hy Hr].
  unfold Js.index. destruct (Z.leb_spec 0 y); [|lia].
  rewrite list_lookup_insert_eq by (eapply lookup_lt_Some; eauto).
  unfold Js.row_get, Js.row_set; cbn. by rewrite lookup_insert_eq.
Qed.

Lemma read_write_other (b : list Js.row) (y x n y' x' : Z) :
  (y', x') <> (y, x) ->
  read_cell (write_cell b y x n) y' x' = read_cell b y' x'.
Proof.
  intros Hne. unfold read_cell, write_cell.
  destruct (Js.index b y) as [r|] eqn:Hr; [|done].
  apply index_Some in Hr as [Hy Hr].
  unfold Js.index. destruct (Z.leb_spec 0 y'); [|done].
  destruct (decide (y' = y)) as [->|Hy'].
  - rewrite list_lookup_insert_eq by (eapply lookup_lt_Some; eauto).
    rewrite Hr. unfold Js.row_get, Js.row_set; cbn.
    rewrite lookup_insert_ne; [done|]. intros ->. by apply Hne.
  - rewrite list_lookup_insert_ne; [done|]. lia.
Qed.

(** The opcodes leave [steps] alone; popping adds exactly one. *)
Lemma forward_steps (s s' : state.t) :
  forward s = Next s' -> state.steps s' = state.steps s.
Proof.
  unfold forward.
  repeat match goal with
         | |- context [match ?e with _ => _ end] => destruct e
         end; intros H; inversion H; reflexivity.
Qed.

Lemma execOpcode_steps b pf opcode (s s' : state.t) :
  execOpcode b pf opcode s = Next s' -> state.steps s' = state.steps s.
Proof.
  unfold execOpcode, paint, call.
  repeat match goal with
         | |- context [if ?e then _ else _] => destruct e
         | |- context [match ?e with _ => _ end] => destruct e
         end;
    try (intros H; inversion H; reflexivity);
    apply forward_steps.
Qed.

Lemma execInstruction_steps b pf (s s' : state.t) :
  execInstruction b pf s = Next s' -> state.steps s' = state.steps s + 1.
Proof.
  unfold execInstruction.
  destruct (state.stack s) as [|instr rest].
  - intros H; inversion H; reflexivity.
  - cbn -[Z.div Z.rem].
    repeat match goal with
           | |- context [if ?e then _ else _] => destruct e
           | |- context [match ?e with _ => _ end] => destruct e
           end;
      try (intros H; inversion H; reflexivity);
      intros H; apply execOpcode_steps in H; exact H.
Qed.

Module SolverFacts.
Import Solver.

Lemma iteration_Next pf maxSteps (s s' : state.t) :
  iteration pf maxSteps s = Next s' ->
  state.steps s < maxSteps /\ state.steps s' = state.steps s + 1.
Proof.
  unfold iteration, loopCondition, loopBody.
  destruct (_ && _) eqn:Hc; [|discriminate].
  apply andb_true_iff in Hc as [Hlt _]. apply Z.ltb_lt in Hlt.
  destruct (_ =? _); [discriminate|].
  destruct (_ <? _)%nat; [discriminate|].
  intros H1; split; [done|]. by eapply execInstruction_steps.
Qed.

(** The run is total: the fuel [executeProgram] starts with is never
    used up. *)
Lemma run_enough_fuel pf maxSteps (fuel : nat) (s : state.t) :
  (Z.to_nat (maxSteps - state.steps s) < fuel)%nat ->
  forall s', run pf maxSteps fuel s <> OutOfFuel s'.
Proof.
  revert s. induction fuel as [|fuel IH]; intros s Hf s'; [lia|].
  cbn. destruct (iteration pf maxSteps s) as [s1|r s1|s1] eqn:Hi; try done.
  apply iteration_Next in Hi as [Hlt Hs1].
  apply IH. lia.
Qed.

Lemma executeProgram_total levelData pf maxSteps :
  forall s', executeProgram levelData pf maxSteps <> OutOfFuel s'.
Proof.
  apply run_enough_fuel. unfold fuelFor. cbn. lia.
Qed.

(** More fuel does not change a finished run. *)
Lemma run_fuel_mono pf maxSteps (fuel : nat) (s : state.t) r s' :
  run pf maxSteps fuel s = Done r s' ->
  forall fuel', (fuel <= fuel')%nat -> run pf maxSteps fuel' s = Done r s'.
Proof.
  revert s. induction fuel as [|fuel IH]; intros s H fuel' Hle; [discriminate|].
  destruct fuel' as [|fuel']; [lia|]. cbn in *.
  destruct (iteration pf maxSteps s); try done.
  apply IH; [done|lia].
Qed.

End SolverFacts.

(* ===================================================================== *)
(** ** Turns *)
(* ===================================================================== *)

Lemma with_dir_same (s : state.t) : state.with_dir (state.dir s) s = s.
Proof. by destruct s. Qed.

(** C10. Turning left then right, or right then left, gives back the
    direction the robot started with, for each of the four directions, and
    four left turns (or four right turns) are the identity; the updates are
    [(d + 3) % 4] and [(d + 1) % 4], and a turn changes no other field of the
    state: position, stars, board, stack and step counter are those of the
    state it ran in.  The executor runs [turnLeft] for opcode 2 and
    [turnRight] for opcode 3. *)
Theorem turn_round_trip (s : state.t) :
  0 <= state.dir s < 4 ->
  turnRight (turnLeft s) = s /\
  turnLeft (turnRight s) = s /\
  turnLeft (turnLeft (turnLeft (turnLeft s))) = s /\
  turnRight (turnRight (turnRight (turnRight s))) = s /\
  turnLeft s = state.mk (state.x s) (state.y s) (Z.rem (state.dir s + 3) 4)
                 (state.stars s) (state.board s) (state.stack s) (state.steps s) /\
  turnRight s = state.mk (state.x s) (state.y s) (Z.rem (state.dir s + 1) 4)
                  (state.stars s) (state.board s) (state.stack s) (state.steps s) /\
  (forall b pf, execOpcode b pf INST.TL s = Next (turnLeft s)) /\
  (forall b pf, execOpcode b pf INST.TR s = Next (turnRight s)).
Proof.
  intros Hd. destruct s as [x y d st bd sk sp]; cbn in Hd.
  unfold turnLeft, turnRight, state.with_dir; cbn.
  assert (d = 0 \/ d = 1 \/ d = 2 \/ d = 3) as Hcase by lia.
  repeat split; try reflexivity;
    destruct Hcase as [-> | [-> | [-> | ->] ] ]; reflexivity.
Qed.

Lemma turn_round_trip_witness :
  let s := state.mk 3 4 2 1 [] [INST.TL; INST.TR] 0 in
  turnRight (turnLeft s) = s /\ turnLeft (turnRight s) = s.
Proof.
  intros s.
  pose proof (turn_round_trip s ltac:(cbn; lia)) as (H1 & H2 & _).
  split; [exact H1 | exact H2].
Defined.

(* ===================================================================== *)
(** ** Conditions *)
(* ===================================================================== *)

(** C3. A popped instruction whose condition is present ([cond > 0]) and
    differs from the colour of the tile the robot stands on is discarded:
    the pass through the loop ends in the state with the same position,
    direction, star count and board, the step counter one higher, and the
    stack without the popped instruction; the run goes on from there. *)
Theorem guard_mismatch_no_op (pf : list (list Z)) (maxSteps : Z) (s : state.t)
    (instr : Z) (rest : list Z) (tileValue : Js.val) :
  state.stack s = instr :: rest ->
  0 < instr / 100 ->
  read_cell (state.board s) (state.y s) (state.x s) = Some tileValue ->
  Js.rem tileValue 4 <> Some (instr / 100) ->
  state.steps s < maxSteps ->
  state.stars s <> 0 ->
  (length (state.stack s) <= 100)%nat ->
  exists s',
    Solver.iteration pf maxSteps s = Next s' /\
    (forall fuel, Solver.run pf maxSteps (S fuel) s = Solver.run pf maxSteps fuel s') /\
    state.x s' = state.x s /\ state.y s' = state.y s /\
    state.dir s' = state.dir s /\ state.stars s' = state.stars s /\
    state.board s' = state.board s /\
    state.steps s' = state.steps s + 1 /\
    state.stack s' = rest.
Proof.
  intros Hstack Hcond Hcell Hne Hsteps Hstars Hlen.
  assert (Solver.iteration pf maxSteps s = Next (state.popped rest s)) as Hit.
  { unfold Solver.iteration, Solver.loopCondition, Solver.loopBody.
    rewrite (proj2 (Z.ltb_lt _ _) Hsteps).
    rewrite Hstack in Hlen |- *. cbn [length andb].
    replace (0 <? S (length rest))%nat with true by (symmetry; apply Nat.ltb_lt; lia).
    rewrite (proj2 (Z.eqb_neq _ _) Hstars).
    replace (100 <? S (length rest))%nat with false
      by (symmetry; apply Nat.ltb_ge; cbn in Hlen; lia).
    unfold execInstruction, decodeInstruction. rewrite Hstack.
    rewrite (proj2 (Z.ltb_lt _ _) Hcond). cbn [state.popped state.board state.x state.y].
    rewrite Hcell.
    destruct tileValue as [|n]; cbn; [done|].
    destruct (Z.eqb_spec (Z.rem n 4) (instr / 100)) as [He|_]; [|done].
    exfalso. apply Hne. cbn. by rewrite He. }
  exists (state.popped rest s). split; [exact Hit|].
  split; [intros fuel; cbn [Solver.run]; by rewrite Hit|].
  repeat split.
Qed.

Lemma guard_mismatch_no_op_witness :
  let s := state.mk 0 0 2 1 [Js.spread [2; 5]] [101; 1] 0 in
  exists s', Solver.iteration [[101; 1]] 10000 s = Next s' /\
             state.x s' = 0 /\ state.stars s' = 1 /\ state.steps s' = 1 /\
             state.stack s' = [1].
Proof.
  intros s.
  destruct (guard_mismatch_no_op [[101; 1]] 10000 s 101 [1] (Js.num 2))
    as (s' & Hit & _ & Hx & _ & _ & Hst & _ & Hsp & Hsk);
    try reflexivity; try (cbn; lia); try (vm_compute; congruence).
  exists s'. repeat split; assumption.
Defined.

(* ===================================================================== *)
(** ** Termination conditions *)
(* ===================================================================== *)

Lemma iteration_spec_order (pf : list (list Z)) (maxSteps : Z) (s : state.t) :
  Solver.iteration pf maxSteps s =
    match specTermination maxSteps s with
    | Some o => Return (returned o) s
    | None => execInstruction false pf s
    end.
Proof.
  unfold Solver.iteration, Solver.loopCondition, Solver.loopBody,
    Solver.afterLoop, specTermination.
  destruct (Z.eqb_spec (state.stars s) 0) as [Hz|Hnz].
  - by destruct (_ && _).
  - destruct (state.stack s) as [|i k]; cbn [length].
    + rewrite andb_false_r. reflexivity.
    + replace (0 <? S (length k))%nat with true
        by (symmetry; apply Nat.ltb_lt; lia).
      replace (S (length k) =? 0)%nat with false
        by (symmetry; apply Nat.eqb_neq; lia).
      rewrite andb_true_r.
      destruct (Z.ltb_spec (state.steps s) maxSteps) as [Hlt|Hge];
        destruct (100 <? S (length k))%nat; try reflexivity.
      * replace (maxSteps <=? state.steps s) with false
          by (symmetry; apply Z.leb_gt; lia). reflexivity.
      * replace (maxSteps <=? state.steps s) with true
          by (symmetry; apply Z.leb_le; lia). reflexivity.
Qed.

Lemma iteration_no_stars (pf : list (list Z)) (maxSteps : Z) (s : state.t) :
  state.stars s = 0 ->
  Solver.iteration pf maxSteps s = Return (Solved (state.steps s)) s.
Proof.
  intros Hz. rewrite iteration_spec_order.
  unfold specTermination. rewrite Hz. reflexivity.
Qed.

Lemma run_no_stars (pf : list (list Z)) (maxSteps : Z) (s : state.t) (fuel : nat) :
  state.stars s = 0 ->
  Solver.run pf maxSteps (S fuel) s = Done (Solved (state.steps s)) s.
Proof.
  intros Hz. cbn [Solver.run]. by rewrite iteration_no_stars.
Qed.

(** C5. At the top of every step the executor's decision is the one of the
    specification's priority order: Solved when no star remains, else
    Exhausted on an empty stack, else the stack-overflow death above 100
    entries, else StepLimitReached when the step counter is at the cap, else
    the next instruction is popped.  The source tests the loop condition
    first and the star count again after the loop; the returned value is the
    same ([{ solved: false }] stands for each of the three failures).  In
    particular a state without stars is reported Solved whatever the stack
    and the step counter are.  [GameEngine.step], which has no step cap,
    tests the first three conditions in this very order. *)
Theorem termination_priority (pf : list (list Z)) (maxSteps : Z) (s : state.t) :
  Solver.iteration pf maxSteps s =
    match specTermination maxSteps s with
    | Some o => Return (returned o) s
    | None => execInstruction false pf s
    end /\
  (state.stars s = 0 ->
   forall fuel, Solver.run pf maxSteps (S fuel) s = Done (Solved (state.steps s)) s) /\
  (forall programFunctions status message,
     GameEngine.isFinished status = false ->
     let g := GameEngine.mkG s status message in
     (state.stars s = 0 ->
      GameEngine.stepState programFunctions g =
        GameEngine.Returns false
          (GameEngine.mkG s GameEngine.won
             ("Victory! Solved in " +:+ pretty (state.steps s) +:+ " steps"))) /\
     (state.stars s <> 0 -> state.stack s = [] ->
      GameEngine.stepState programFunctions g =
        GameEngine.Returns false
          (GameEngine.mkG s GameEngine.failed
             "Program ended without collecting all stars")) /\
     (state.stars s <> 0 -> (100 < length (state.stack s))%nat ->
      GameEngine.stepState programFunctions g =
        GameEngine.Returns false
          (GameEngine.mkG s GameEngine.failed
             "Stack overflow (>100 instructions)"))).
Proof.
  split; [apply iteration_spec_order|]. split.
  - intros Hz fuel. by apply run_no_stars.
  - intros programFunctions status message Hfin g. unfold GameEngine.stepState.
    cbn [g GameEngine.status GameEngine.core]. rewrite Hfin.
    repeat split.
    + intros ->. reflexivity.
    + intros Hnz ->. by rewrite (proj2 (Z.eqb_neq _ _) Hnz).
    + intros Hnz Hlen. rewrite (proj2 (Z.eqb_neq _ _) Hnz).
      destruct (state.stack s) as [|instr rest]; [cbn in Hlen; lia|].
      by rewrite (proj2 (Nat.ltb_lt _ _) Hlen).
Qed.

Lemma termination_priority_witness :
  let s := state.mk 5 5 0 0 [] [] 10000 in
  Solver.run [[1]] 10000 1 s = Done (Solved 10000) s.
Proof.
  intros s.
  exact (proj1 (proj2 (termination_priority [[1]] 10000 s)) eq_refl 0%nat).
Defined.

(* ===================================================================== *)
(** ** Function calls *)
(* ===================================================================== *)

Lemma popped_call b (pf : list (list Z)) (s : state.t) (instr : Z) (rest : list Z) :
  state.stack s = instr :: rest ->
  isCall instr ->
  execInstruction b pf s =
    Next (state.mk (state.x s) (state.y s) (state.dir s) (state.stars s)
            (state.board s) (bodyOf pf (instr - INST.F0) ++ rest)
            (state.steps s + 1)).
Proof.
  intros Hstack Hcall. unfold execInstruction. rewrite Hstack.
  assert (decodeInstruction instr = (0, instr)) as ->
      by (destruct Hcall as [-> | [-> | ->] ]; reflexivity).
  cbn [Z.ltb Z.compare].
  assert (execOpcode b pf instr (state.popped rest s) =
          Next (call b pf (instr - INST.F0) (state.popped rest s))) as ->
      by (destruct Hcall as [-> | [-> | ->] ]; reflexivity).
  unfold call, bodyOf. destruct (Js.index pf _) as [f|]; [|reflexivity].
  destruct b; cbn [andb]; [|reflexivity].
  destruct f; reflexivity.
Qed.

Lemma iteration_pops (pf : list (list Z)) (maxSteps : Z) (s : state.t) :
  state.steps s < maxSteps ->
  state.stars s <> 0 ->
  (0 < length (state.stack s) <= 100)%nat ->
  Solver.iteration pf maxSteps s = execInstruction false pf s.
Proof.
  intros Hsteps Hstars Hlen.
  unfold Solver.iteration, Solver.loopCondition, Solver.loopBody.
  rewrite (proj2 (Z.ltb_lt _ _) Hsteps).
  replace (0 <? length (state.stack s))%nat with true
    by (symmetry; apply Nat.ltb_lt; lia).
  rewrite (proj2 (Z.eqb_neq _ _) Hstars).
  replace (100 <? length (state.stack s))%nat with false
    by (symmetry; apply Nat.ltb_ge; lia).
  reflexivity.
Qed.

Lemma execInstruction_fires b (pf : list (list Z)) (s : state.t) (instr : Z)
    (rest : list Z) :
  state.stack s = instr :: rest ->
  fires s instr ->
  execInstruction b pf s = execOpcode b pf (Z.rem instr 100) (state.popped rest s).
Proof.
  intros Hstack Hf. unfold execInstruction, decodeInstruction. rewrite Hstack.
  destruct (Z.ltb_spec 0 (instr / 100)) as [Hpos|Hle]; [|reflexivity].
  destruct Hf as [Hle|(v & Hv & Hc)]; [lia|].
  cbn [state.popped state.board state.x state.y]. rewrite Hv, Hc. cbn.
  by rewrite Z.eqb_refl.
Qed.

(* ===================================================================== *)
(** ** Boards of the level files *)
(* ===================================================================== *)

Lemma spread_cells_from (l : list Z) (k : nat) (j : Z) :
  (list_to_map (imap (fun i n => (Z.of_nat (k + i), n)) l) : gmap Z Z) !! j
  = if (Z.of_nat k <=? j) then l !! (Z.to_nat j - k)%nat else None.
Proof.
  revert k. induction l as [|n l IH]; intros k; cbn [imap].
  - rewrite list_to_map_nil, lookup_empty. by destruct (_ <=? _).
  - rewrite list_to_map_cons.
    rewrite (imap_ext _ (fun i n => (Z.of_nat (S k + i), n)))
      by (intros; cbn; f_equal; lia).
    destruct (decide (j = Z.of_nat k)) as [->|Hne].
    + rewrite Nat.add_0_r, lookup_insert_eq, Z.leb_refl.
      by replace (Z.to_nat (Z.of_nat k) - k)%nat with 0%nat by lia.
    + rewrite Nat.add_0_r, lookup_insert_ne by done. rewrite IH.
      destruct (Z.leb_spec (Z.of_nat (S k)) j), (Z.leb_spec (Z.of_nat k) j);
        try lia; try done.
      replace (Z.to_nat j - k)%nat with (S (Z.to_nat j - S k)) by lia. done.
Qed.

Lemma spread_get (l : list Z) (i : Z) :
  Js.row_get (Js.spread l) i
  = match Js.index l i with Some n => Js.num n | None => Js.undefined end.
Proof.
  unfold Js.row_get, Js.spread, Js.index. cbn [Js.cells].
  pose proof (spread_cells_from l 0 i) as H. cbn [Nat.add Z.of_nat] in H.
  rewrite H. change (Z.of_nat 0) with 0. by rewrite Nat.sub_0_r.
Qed.

Lemma grid16_spread (rows : list (list Z)) :
  length rows = 16%nat -> Forall (fun l => length l = 16%nat) rows ->
  grid16 (map Js.spread rows).
Proof.
  intros Hlen Hrows. split; [by rewrite length_map|].
  apply Forall_forall. intros r Hr. change (map ?f ?l) with (f <$> l) in Hr.
  apply list_elem_of_fmap in Hr as (l & -> & Hl).
  pose proof (proj1 (Forall_forall _ _) Hrows l Hl) as Hl16. cbn beta in Hl16.
  intros i. rewrite spread_get. unfold Js.index.
  destruct (Z.leb_spec 0 i) as [Hi|Hi].
  - destruct (l !! Z.to_nat i) as [n|] eqn:Hn.
    + apply lookup_lt_Some in Hn. split; [lia|by eexists].
    + apply lookup_ge_None in Hn. split; [by intros [? ?]|lia].
  - split; [by intros [? ?]|lia].
Qed.

Lemma grid16_cell (b : list Js.row) (p : Z * Z) :
  grid16 b ->
  outOfBounds p <-> ~ exists n, read_cell b (snd p) (fst p) = Some (Js.num n).
Proof.
  intros [Hlen Hrows]. unfold outOfBounds, read_cell, Js.index.
  destruct p as [x y]; cbn [fst snd].
  destruct (Z.leb_spec 0 y) as [Hy|Hy].
  - destruct (b !! Z.to_nat y) as [r|] eqn:Hr.
    + pose proof (lookup_lt_Some _ _ _ Hr) as Hlt.
      pose proof (proj1 (Forall_forall _ _) Hrows r
                    (list_elem_of_lookup_2 _ _ _ Hr) x) as Hx. cbn beta in Hx.
      split.
      * intros Hout [n Hn]. injection Hn as Hn.
        assert (0 <= x < 16) by (apply Hx; by exists n). lia.
      * intros Hno.
        destruct (decide (0 <= x < 16)) as [Hin|Hout]; [|lia].
        exfalso. apply Hno. apply Hx in Hin as [n Hn]. exists n. by rewrite Hn.
    + apply lookup_ge_None in Hr. split; [by intros _ [? ?]|lia].
  - split; [by intros _ [? ?]|lia].
Qed.

(* ===================================================================== *)
(** ** Forward *)
(* ===================================================================== *)

Lemma forward_dies (s : state.t) (p : Z * Z) :
  destination s = Some p ->
  outOfBounds p \/ read_cell (state.board s) (snd p) (fst p) = Some (Js.num 0) ->
  forward s = Return Unsolved s.
Proof.
  unfold destination, forward, outOfBounds.
  destruct (Js.index dx _) as [ddx|]; [|discriminate].
  destruct (Js.index dy _) as [ddy|]; [|discriminate].
  intros [= <-]; cbn [fst snd]. intros Hdie.
  destruct (_ || _) eqn:Hb; [reflexivity|].
  repeat (apply orb_false_iff in Hb as [Hb ?]).
  destruct Hdie as [Hout| ->]; [|reflexivity].
  exfalso.
  repeat match goal with
         | H : (_ <? _) = false |- _ => apply Z.ltb_ge in H
         | H : (_ <=? _) = false |- _ => apply Z.leb_gt in H
         end.
  lia.
Qed.

Lemma forward_moves (s : state.t) (p : Z * Z) (n : Z) :
  destination s = Some p ->
  ~ outOfBounds p ->
  read_cell (state.board s) (snd p) (fst p) = Some (Js.num n) ->
  n <> 0 ->
  forward s =
    if 3 <? n
    then Next (state.mk (fst p) (snd p) (state.dir s) (state.stars s - 1)
                 (write_cell (state.board s) (snd p) (fst p) (n - 4))
                 (state.stack s) (state.steps s))
    else Next (state.mk (fst p) (snd p) (state.dir s) (state.stars s)
                 (state.board s) (state.stack s) (state.steps s)).
Proof.
  unfold destination, forward, outOfBounds.
  destruct (Js.index dx _) as [ddx|]; [|discriminate].
  destruct (Js.index dy _) as [ddy|]; [|discriminate].
  intros [= <-]; cbn [fst snd]. intros Hin Hcell Hn.
  destruct (_ || _) eqn:Hb.
  - exfalso. apply Hin.
    repeat (apply orb_true_iff in Hb as [Hb|Hb]);
      repeat match goal with
             | H : (_ <? _) = true |- _ => apply Z.ltb_lt in H
             | H : (_ <=? _) = true |- _ => apply Z.leb_le in H
             end; lia.
  - rewrite Hcell. cbn [Js.strict_eq].
    by rewrite (proj2 (Z.eqb_neq _ _) Hn).
Qed.

(** C4. A Forward whose destination lies outside the 16 x 16 grid or is a
    void tile (value 0) ends the run at once with the failure result: the
    rest of the stack is never executed, and position, direction, board and
    star count are those from before the move.  Otherwise the robot moves to
    the destination; a destination that held a star (value above 3) has the
    star cleared (4 subtracted, every other cell untouched) and the star
    count goes down by one, any other destination leaves board and count as
    they were.  On a board of 16 rows of 16 numbers the destination is
    outside the grid exactly when the board has no cell there. *)
Theorem forward_death_atomicity (pf : list (list Z)) (maxSteps : Z)
    (s : state.t) (instr : Z) (rest : list Z) (p : Z * Z) :
  state.stack s = instr :: rest ->
  Z.rem instr 100 = INST.FW ->
  fires s instr ->
  state.steps s < maxSteps ->
  state.stars s <> 0 ->
  (length (state.stack s) <= 100)%nat ->
  destination s = Some p ->
  (outOfBounds p \/ read_cell (state.board s) (snd p) (fst p) = Some (Js.num 0) ->
   exists s',
     (forall fuel, Solver.run pf maxSteps (S fuel) s = Done Unsolved s') /\
     state.x s' = state.x s /\ state.y s' = state.y s /\
     state.dir s' = state.dir s /\ state.board s' = state.board s /\
     state.stars s' = state.stars s /\
     state.stack s' = rest /\ state.steps s' = state.steps s + 1) /\
  (forall n,
     ~ outOfBounds p ->
     read_cell (state.board s) (snd p) (fst p) = Some (Js.num n) ->
     n <> 0 ->
     exists s',
       Solver.iteration pf maxSteps s = Next s' /\
       state.x s' = fst p /\ state.y s' = snd p /\
       state.dir s' = state.dir s /\
       state.stack s' = rest /\ state.steps s' = state.steps s + 1 /\
       (3 < n ->
        state.stars s' = state.stars s - 1 /\
        read_cell (state.board s') (snd p) (fst p) = Some (Js.num (n - 4)) /\
        forall y' x', (y', x') <> (snd p, fst p) ->
          read_cell (state.board s') y' x' = read_cell (state.board s) y' x') /\
       (n <= 3 ->
        state.stars s' = state.stars s /\ state.board s' = state.board s)) /\
  (grid16 (state.board s) ->
   (outOfBounds p <->
    ~ exists n, read_cell (state.board s) (snd p) (fst p) = Some (Js.num n))).
Proof.
  intros Hstack Hop Hf Hsteps Hstars Hlen Hdest.
  assert (Solver.iteration pf maxSteps s = forward (state.popped rest s)) as Hit.
  { rewrite iteration_pops; [|done..|rewrite Hstack in *; cbn in *; lia].
    rewrite (execInstruction_fires _ _ _ _ _ Hstack Hf), Hop. reflexivity. }
  assert (destination (state.popped rest s) = Some p) as Hdest' by exact Hdest.
  split; [|split; [|by apply grid16_cell] ].
  - intros Hdie. exists (state.popped rest s).
    split; [|by repeat split].
    intros fuel. cbn [Solver.run]. rewrite Hit.
    by rewrite (forward_dies _ _ Hdest' Hdie).
  - intros n Hin Hcell Hn.
    rewrite Hit, (forward_moves _ _ n Hdest' Hin Hcell Hn).
    destruct (Z.ltb_spec 3 n) as [Hstar|Hplain]; eexists; (split; [reflexivity|]);
      cbn; repeat split; try lia.
    + eapply read_write_same. exact Hcell.
    + intros y' x' Hne. by apply read_write_other.
Qed.

Lemma forward_death_atomicity_witness :
  let s := state.mk 0 0 2 1 [Js.spread [1; 0; 5]] [INST.FW; INST.FW] 0 in
  exists s', Solver.run [[INST.FW; INST.FW]] 10000 1 s = Done Unsolved s' /\
             state.x s' = 0 /\ state.stars s' = 1 /\ state.stack s' = [INST.FW].
Proof.
  intros s.
  destruct (forward_death_atomicity [[INST.FW; INST.FW]] 10000 s INST.FW
              [INST.FW] (1, 0)) as (Hdie & _ & _);
    try reflexivity; try (cbn; lia); try (left; vm_compute; discriminate).
  destruct Hdie as (s' & Hrun & Hx & _ & _ & _ & Hst & Hsk & _);
    [right; reflexivity|].
  exists s'. split; [apply Hrun|]. repeat split; assumption.
Defined.

(** C4, as stated for every state, does not hold off the 16 x 16 grid the
    source hard-codes.  On a board of two rows of two tiles the robot
    stands on the right tile of the top row and faces right: the
    destination (2, 0) is no cell of the board, but it passes the test
    against 16, the cell read is [undefined], which is neither [=== 0] nor
    [> 3], and the robot moves there; the run goes on, executes the turn
    that follows and ends with the stack used up after two steps.  Facing
    down from the bottom row, the read of the missing row throws a
    TypeError instead of returning the failure result. *)
Lemma forward_off_small_board :
  ~ forwardOffBoardDies /\
  (exists final,
     Solver.executeProgram
       (level.mk 1 0 2 1 [[1; 1]; [1; 5]] (Some [FW; TL]) (Some [2]))
       [[INST.FW; INST.TL]] Solver.defaultMaxSteps = Done Unsolved final /\
     state.x final = 2 /\ state.y final = 0 /\ state.dir final = 1 /\
     state.steps final = 2) /\
  (exists s,
     Solver.executeProgram
       (level.mk 0 1 3 1 [[1; 1]; [1; 5]] (Some [FW; TL]) (Some [2]))
       [[INST.FW]] Solver.defaultMaxSteps = Threw s).
Proof.
  split; [|split].
  - intros Hclaim.
    destruct (Hclaim [[INST.FW; INST.TL]] Solver.defaultMaxSteps
                (state.mk 1 0 2 1 (map Js.spread [[1; 1]; [1; 5]])
                   [INST.FW; INST.TL] 0)
                INST.FW [INST.TL] (2, 0)) as [s' Hs'];
      try reflexivity; try (cbn; lia); try (left; reflexivity).
    + intros [n Hn]. vm_compute in Hn. discriminate Hn.
    + vm_compute in Hs'. discriminate Hs'.
  - eexists. split; [by vm_compute|]. by vm_compute.
  - eexists. by vm_compute.
Qed.

(* ===================================================================== *)
(** ** The executors of the other classes *)
(* ===================================================================== *)

(** The extra non-empty test of the call case changes nothing: putting an
    empty body in front of the stack leaves the stack as it is. *)
Lemma call_guard (pf : list (list Z)) (n : Z) (s : state.t) :
  call true pf n s = call false pf n s.
Proof.
  unfold call. destruct (Js.index pf n) as [f|]; [|done].
  destruct f; [|done]. by destruct s.
Qed.

Lemma execOpcode_guard (pf : list (list Z)) (opcode : Z) (s : state.t) :
  execOpcode true pf opcode s = execOpcode false pf opcode s.
Proof. unfold execOpcode. by rewrite call_guard. Qed.

Lemma execInstruction_guard (pf : list (list Z)) (s : state.t) :
  execInstruction true pf s = execInstruction false pf s.
Proof.
  unfold execInstruction, decodeInstruction.
  destruct (state.stack s); [done|]. by rewrite !execOpcode_guard.
Qed.

Lemma constraintSolver_iteration (pf : list (list Z)) (maxSteps : Z) (s : state.t) :
  ConstraintSolver.iteration pf maxSteps s = Solver.iteration pf maxSteps s.
Proof.
  unfold ConstraintSolver.iteration, ConstraintSolver.loopBody.
  by rewrite execInstruction_guard.
Qed.

Lemma constraintSolver_executeProgram (lvl : level.t) (pf : list (list Z))
    (maxSteps : Z) :
  ConstraintSolver.executeProgram lvl pf maxSteps
  = Solver.executeProgram lvl pf maxSteps.
Proof.
  unfold ConstraintSolver.executeProgram, Solver.executeProgram, Solver.fuelFor.
  generalize (initialState lvl pf). generalize (S (Z.to_nat maxSteps)).
  intros fuel. induction fuel as [|fuel IH]; intros s; [done|].
  cbn [ConstraintSolver.run Solver.run].
  rewrite constraintSolver_iteration.
  destruct (Solver.iteration pf maxSteps s); [apply IH|done..].
Qed.

(** The test script's executor has no paint cases; it does what
    [Solver.executeProgram] does as long as no paint instruction comes up. *)
Lemma fixed_iteration (pf : list (list Z)) (maxSteps : Z) (s : state.t) :
  noPaintNext s ->
  FixedExecutor.iteration pf maxSteps s = Solver.iteration pf maxSteps s.
Proof.
  unfold noPaintNext, FixedExecutor.iteration, Solver.iteration,
    FixedExecutor.loopBody, Solver.loopBody, FixedExecutor.execInstruction,
    execInstruction, decodeInstruction.
  destruct (state.stack s) as [|instr rest]; [done|].
  intros (H1 & H2 & H3).
  assert (forall s1, FixedExecutor.execOpcode pf (Z.rem instr 100) s1
                     = execOpcode false pf (Z.rem instr 100) s1) as ->; [|done].
  intros s1. unfold FixedExecutor.execOpcode, execOpcode.
  by rewrite (proj2 (Z.eqb_neq _ _) H1), (proj2 (Z.eqb_neq _ _) H2),
    (proj2 (Z.eqb_neq _ _) H3).
Qed.

Lemma fixed_run (pf : list (list Z)) (maxSteps : Z) (fuel : nat) (s : state.t) :
  Forall noPaintNext (trace pf maxSteps fuel s) ->
  FixedExecutor.run pf maxSteps fuel s = Solver.run pf maxSteps fuel s.
Proof.
  revert s. induction fuel as [|fuel IH]; intros s Hnp; [done|].
  cbn [trace] in Hnp. apply Forall_cons in Hnp as [Hs Hnp].
  cbn [FixedExecutor.run Solver.run]. rewrite (fixed_iteration _ _ _ Hs).
  destruct (Solver.iteration pf maxSteps s); [by apply IH|done..].
Qed.

(* ===================================================================== *)
(** ** Calls are stack rewriting *)
(* ===================================================================== *)

Section FiveAhead.

(** A level whose single star lies five tiles straight ahead of the robot,
    over tiles that are neither void nor starred, and a program whose
    function 0 is [[FW; F0]]. *)
Variables (lvl : level.t) (pf : list (list Z)) (maxSteps : Z).
Variables (ddx ddy : Z) (tile : Z -> Z).

Let px := level.player_x lvl.
Let py := level.player_y lvl.
Let d := level.player_direction lvl.
Let b0 := map Js.spread (level.board lvl).

Hypothesis Hprog : pf !! 0%nat = Some [INST.FW; INST.F0].
Hypothesis Hstars : level.stars lvl = 1.
Hypothesis Hdx : Js.index dx d = Some ddx.
Hypothesis Hdy : Js.index dy d = Some ddy.
Hypothesis Hpath : forall k, 1 <= k <= 5 ->
  ~ outOfBounds (px + k * ddx, py + k * ddy) /\
  read_cell b0 (py + k * ddy) (px + k * ddx) = Some (Js.num (tile k)).
Hypothesis Hplain : forall k, 1 <= k <= 4 -> 1 <= tile k <= 3.
Hypothesis Hstar : 3 < tile 5.
Hypothesis Hmax : 9 <= maxSteps.

Local Lemma five_init :
  initialState lvl pf = state.mk px py d 1 b0 [INST.FW; INST.F0] 0.
Proof. unfold initialState. by rewrite Hprog, Hstars. Qed.

Local Lemma five_forward (k x y steps : Z) (rest : list Z) :
  x = px + k * ddx -> y = py + k * ddy -> 0 <= k <= 3 ->
  steps < maxSteps -> (length rest < 100)%nat ->
  Solver.iteration pf maxSteps (state.mk x y d 1 b0 (INST.FW :: rest) steps) =
    Next (state.mk (x + ddx) (y + ddy) d 1 b0 rest (steps + 1)).
Proof.
  intros -> -> Hk Hsteps Hlen.
  destruct (Hpath (k + 1) ltac:(lia)) as [Hin Hcell].
  replace (px + (k + 1) * ddx) with (px + k * ddx + ddx) in * by lia.
  replace (py + (k + 1) * ddy) with (py + k * ddy + ddy) in * by lia.
  pose proof (Hplain (k + 1) ltac:(lia)) as Ht.
  rewrite iteration_pops by (cbn; lia).
  erewrite execInstruction_fires; [|reflexivity|left; by vm_compute].
  change (Z.rem INST.FW 100) with INST.FW. change (execOpcode _ _ INST.FW ?s) with (forward s).
  erewrite forward_moves with (n := tile (k + 1));
    [ | unfold destination; cbn; rewrite Hdx, Hdy; reflexivity
      | exact Hin | exact Hcell | lia].
  replace (3 <? tile (k + 1)) with false by (symmetry; apply Z.ltb_ge; lia).
  reflexivity.
Qed.

Local Lemma five_star (x y steps : Z) (rest : list Z) :
  x = px + 4 * ddx -> y = py + 4 * ddy ->
  steps < maxSteps -> (length rest < 100)%nat ->
  Solver.iteration pf maxSteps (state.mk x y d 1 b0 (INST.FW :: rest) steps) =
    Next (state.mk (x + ddx) (y + ddy) d 0
            (write_cell b0 (y + ddy) (x + ddx) (tile 5 - 4)) rest (steps + 1)).
Proof.
  intros -> -> Hsteps Hlen.
  destruct (Hpath 5 ltac:(lia)) as [Hin Hcell].
  replace (px + 5 * ddx) with (px + 4 * ddx + ddx) in * by lia.
  replace (py + 5 * ddy) with (py + 4 * ddy + ddy) in * by lia.
  rewrite iteration_pops by (cbn; lia).
  erewrite execInstruction_fires; [|reflexivity|left; by vm_compute].
  change (Z.rem INST.FW 100) with INST.FW. change (execOpcode _ _ INST.FW ?s) with (forward s).
  erewrite forward_moves with (n := tile 5);
    [ | unfold destination; cbn; rewrite Hdx, Hdy; reflexivity
      | exact Hin | exact Hcell | lia].
  replace (3 <? tile 5) with true by (symmetry; apply Z.ltb_lt; lia).
  reflexivity.
Qed.

Local Lemma five_call (x y steps : Z) :
  steps < maxSteps ->
  Solver.iteration pf maxSteps (state.mk x y d 1 b0 [INST.F0] steps) =
    Next (state.mk x y d 1 b0 [INST.FW; INST.F0] (steps + 1)).
Proof.
  intros Hsteps.
  rewrite iteration_pops by (cbn; lia).
  erewrite popped_call; [|reflexivity|by left].
  unfold bodyOf. change (Js.index pf (INST.F0 - INST.F0)) with (pf !! 0%nat).
  by rewrite Hprog.
Qed.

Local Lemma five_noPaint (fuel : nat) :
  Forall noPaintNext (trace pf maxSteps fuel (initialState lvl pf)).
Proof.
  rewrite five_init.
  assert (forall s, state.stack s = [INST.FW; INST.F0] \/ state.stack s = [INST.F0] ->
                    noPaintNext s) as Hnp
    by (intros s [Hs|Hs]; unfold noPaintNext; rewrite Hs; by vm_compute).
  repeat (destruct fuel as [|fuel];
          [ cbn [trace]; repeat (constructor; [apply Hnp; cbn; auto|]); constructor
          | cbn [trace];
            first [ rewrite (five_forward 0) by (cbn; lia)
                  | rewrite (five_forward 1) by (cbn; lia)
                  | rewrite (five_forward 2) by (cbn; lia)
                  | rewrite (five_forward 3) by (cbn; lia)
                  | rewrite five_star by (cbn; lia)
                  | rewrite five_call by lia
                  | rewrite iteration_no_stars by reflexivity ] ]).
  repeat (constructor; [apply Hnp; cbn; auto|]). constructor.
Qed.

Lemma five_ahead_run :
  exists final,
    Solver.executeProgram lvl pf maxSteps = Done (Solved 9) final /\
    FixedExecutor.executeProgram lvl pf maxSteps = Done (Solved 9) final /\
    state.x final = px + 5 * ddx /\ state.y final = py + 5 * ddy /\
    state.stars final = 0 /\ state.steps final = 9 /\
    let states := trace pf maxSteps 9 (initialState lvl pf) in
    last states = Some final /\
    map state.stars states = [1; 1; 1; 1; 1; 1; 1; 1; 1; 0] /\
    map state.steps states = [0; 1; 2; 3; 4; 5; 6; 7; 8; 9] /\
    map (fun s => (state.x s - px, state.y s - py)) states =
      [(0, 0); (ddx, ddy); (ddx, ddy); (2 * ddx, 2 * ddy); (2 * ddx, 2 * ddy);
       (3 * ddx, 3 * ddy); (3 * ddx, 3 * ddy); (4 * ddx, 4 * ddy);
       (4 * ddx, 4 * ddy); (5 * ddx, 5 * ddy)] /\
    map state.stack states =
      [[INST.FW; INST.F0]; [INST.F0]; [INST.FW; INST.F0]; [INST.F0];
       [INST.FW; INST.F0]; [INST.F0]; [INST.FW; INST.F0]; [INST.F0];
       [INST.FW; INST.F0]; [INST.F0]].
Proof.
  eexists. unfold FixedExecutor.executeProgram. rewrite Hprog.
  rewrite (fixed_run _ _ _ _ (five_noPaint _)).
  change (Solver.run pf maxSteps (S (Z.to_nat maxSteps)) (initialState lvl pf))
    with (Solver.executeProgram lvl pf maxSteps).
  rewrite five_init.
  unfold Solver.executeProgram, Solver.fuelFor.
  rewrite five_init.
  replace (S (Z.to_nat maxSteps)) with (10 + Z.to_nat (maxSteps - 9))%nat by lia.
  cbn [Solver.run Nat.add trace].
  rewrite (five_forward 0) by (cbn; lia).
  rewrite five_call by lia.
  rewrite (five_forward 1) by (cbn; lia).
  rewrite five_call by lia.
  rewrite (five_forward 2) by (cbn; lia).
  rewrite five_call by lia.
  rewrite (five_forward 3) by (cbn; lia).
  rewrite five_call by lia.
  rewrite five_star by (cbn; lia).
  cbn [last map state.stars state.steps state.x state.y state.stack].
  rewrite iteration_no_stars by reflexivity.
  repeat split; cbn; try lia; try reflexivity.
  repeat f_equal; lia.
Qed.

End FiveAhead.



(* ===================================================================== *)
(** ** Calling an empty or undefined function *)
(* ===================================================================== *)

Lemma bodyOf_empty (pf : list (list Z)) (n : Z) :
  emptyOrUndefined pf n -> bodyOf pf n = [].
Proof. unfold bodyOf. by intros [-> | ->]. Qed.

Lemma gameEngine_call (pf : list (list Z)) (g : GameEngine.gstate) (instr : Z)
    (rest : list Z) :
  GameEngine.status g = GameEngine.ready ->
  state.stars (GameEngine.core g) <> 0 ->
  state.stack (GameEngine.core g) = instr :: rest ->
  (length rest < 100)%nat ->
  isCall instr ->
  GameEngine.stepState (Some pf) g =
    match GameEngine.callFunction (Some pf) (instr - INST.F0)
            (GameEngine.setCore (state.popped rest (GameEngine.core g)) g) with
    | GameEngine.Returns true g2 => GameEngine.Returns true g2
    | GameEngine.Returns false g2 =>
        GameEngine.Returns false (GameEngine.setStatus GameEngine.failed g2)
    | GameEngine.TypeError g2 => GameEngine.TypeError g2
    end.
Proof.
  intros Hst Hstars Hstack Hlen Hcall.
  unfold GameEngine.stepState. rewrite Hst, Hstack. cbn [GameEngine.isFinished].
  rewrite (proj2 (Z.eqb_neq _ _) Hstars).
  replace (100 <? length (instr :: rest))%nat with false
    by (symmetry; apply Nat.ltb_ge; cbn; lia).
  destruct Hcall as [-> | [-> | ->] ]; reflexivity.
Qed.




(* ===================================================================== *)
(** ** Post-call termination in the candidate generators *)
(* ===================================================================== *)

Lemma decode_conditional (cond op : Z) :
  0 <= cond -> 0 <= op < 100 ->
  (cond * 100 + op) / 100 = cond /\ Z.rem (cond * 100 + op) 100 = op.
Proof.
  intros Hc Ho. split.
  - rewrite Z.div_add_l by lia. rewrite Z.div_small by lia. lia.
  - rewrite Z.rem_mod_nonneg by lia.
    rewrite Z.add_comm, Z.mod_add by lia. apply Z.mod_small; lia.
Qed.

(** C7. In [ConstraintSolver], extending a slot with an unconditional call
    (F0, F1 or F2) yields constraints that are terminated, and terminated
    constraints offer no instruction for the next position; the same call
    under a condition leaves a non-terminated slot non-terminated and every
    instruction remains on offer.  [FinalSolver.isValidSequence] applies the
    same rule to what follows a call: nothing is valid after an
    unconditional call, and a conditional call is followed by anything. *)
Theorem post_call_termination (op : Z) :
  isCall op ->
  (forall c all,
     exists c',
       ConstraintSolver.propagateConstraints c op = Some c' /\
       ConstraintSolver.terminated c' = true /\
       ConstraintSolver.getValidInstructions c' all = []) /\
  (forall c all cond,
     1 <= cond <= 3 ->
     ConstraintSolver.terminated c = false ->
     exists c',
       ConstraintSolver.propagateConstraints c (cond * 100 + op) = Some c' /\
       ConstraintSolver.terminated c' = false /\
       ConstraintSolver.getValidInstructions c' all = all) /\
  (forall before curr after,
     FinalSolver.isValidSequence (before ++ op :: curr :: after)
       (Z.of_nat (length before) + 1) = false) /\
  (forall before curr after cond,
     1 <= cond <= 3 ->
     FinalSolver.isValidSequence (before ++ (cond * 100 + op) :: curr :: after)
       (Z.of_nat (length before) + 1) = true).
Proof.
  intros Hcall.
  assert (0 <= op < 100 /\ op <> INST.TL /\ op <> INST.TR /\
          ((op =? INST.F0) || (op =? INST.F1) || (op =? INST.F2) = true))
    as (Hop & HnTL & HnTR & Hb)
    by (destruct Hcall as [-> | [-> | ->] ]; repeat split; done).
  assert (forall before (i : Z) rest,
            Js.index (before ++ i :: rest) (Z.of_nat (length before) + 1 - 1)
            = Some i) as Hprev.
  { intros before i rest. apply index_Some. split; [lia|].
    replace (Z.to_nat (Z.of_nat (length before) + 1 - 1)) with (length before) by lia.
    by rewrite list_lookup_middle. }
  repeat split.
  - intros c all. unfold ConstraintSolver.propagateConstraints.
    assert (op / 100 = 0 /\ Z.rem op 100 = op) as [-> ->]
        by (destruct Hcall as [-> | [-> | ->] ]; done).
    rewrite Hb. cbn [Z.eqb andb].
    rewrite (proj2 (Z.eqb_neq _ _) HnTL), (proj2 (Z.eqb_neq _ _) HnTR).
    eexists; repeat split.
  - intros c all cond Hcond Hterm. unfold ConstraintSolver.propagateConstraints.
    destruct (decode_conditional cond op ltac:(lia) Hop) as [-> ->].
    rewrite (proj2 (Z.eqb_neq cond 0)) by lia. cbn [andb]. rewrite Hterm.
    rewrite (proj2 (Z.eqb_neq _ _) HnTL), (proj2 (Z.eqb_neq _ _) HnTR).
    eexists; split; [reflexivity|]. split; [reflexivity|].
    unfold ConstraintSolver.getValidInstructions. reflexivity.
  - intros before curr after. unfold FinalSolver.isValidSequence.
    rewrite (proj2 (Z.eqb_neq _ 0)) by lia.
    rewrite Hprev. cbn [FinalSolver.opOf FinalSolver.condOf fmap option_fmap option_map
                          FinalSolver.equals].
    assert (op / 100 = 0 /\ Z.rem op 100 = op) as [-> ->]
        by (destruct Hcall as [-> | [-> | ->] ]; done).
    rewrite Hb. reflexivity.
  - intros before curr after cond Hcond. unfold FinalSolver.isValidSequence.
    rewrite (proj2 (Z.eqb_neq _ 0)) by lia.
    rewrite Hprev. cbn [FinalSolver.opOf FinalSolver.condOf fmap option_fmap option_map
                          FinalSolver.equals].
    destruct (decode_conditional cond op ltac:(lia) Hop) as [-> ->].
    rewrite (proj2 (Z.eqb_neq cond 0)) by lia. cbn [andb].
    rewrite (proj2 (Z.eqb_neq _ _) HnTL), (proj2 (Z.eqb_neq _ _) HnTR).
    rewrite !andb_false_r. reflexivity.
Qed.

Lemma post_call_termination_witness :
  ConstraintSolver.getValidInstructions
    (default ConstraintSolver.initialConstraints
       (ConstraintSolver.propagateConstraints
          ConstraintSolver.initialConstraints INST.F0))
    [INST.FW; INST.F0; 101; 107] = [] /\
  FinalSolver.isValidSequence [INST.FW; 107; INST.FW] 2 = true.
Proof.
  destruct (post_call_termination INST.F0 ltac:(by left))
    as (H1 & _ & _ & H4).
  split.
  - destruct (H1 ConstraintSolver.initialConstraints [INST.FW; INST.F0; 101; 107])
      as (c' & -> & _ & Hv). exact Hv.
  - exact (H4 [INST.FW] INST.FW [] 1 ltac:(lia)).
Defined.

(* ===================================================================== *)
(** ** Loop detection *)
(* ===================================================================== *)

Lemma pretty_compass (d : Z) :
  0 <= d < 4 ->
  d = 0 /\ pretty d = "0" \/ d = 1 /\ pretty d = "1" \/
  d = 2 /\ pretty d = "2" \/ d = 3 /\ pretty d = "3".
Proof.
  intros Hd.
  assert (d = 0 \/ d = 1 \/ d = 2 \/ d = 3) as [-> | [-> | [-> | ->] ] ] by lia;
    [left | right; left | right; right; left | right; right; right];
    split; try reflexivity; by vm_compute.
Qed.

(** States of the spinning program that differ in direction or stack have
    different keys. *)
Lemma hashState_spin_ne (x y st : Z) (b : list Js.row) (d1 d2 n1 n2 : Z)
    (k1 k2 : list Z) :
  0 <= d1 < 4 -> 0 <= d2 < 4 -> spinStack k1 -> spinStack k2 ->
  (d1, k1) <> (d2, k2) ->
  FinalSolver.hashState (state.mk x y d1 st b k1 n1) <>
  FinalSolver.hashState (state.mk x y d2 st b k2 n2).
Proof.
  intros Hd1 Hd2 Hk1 Hk2 Hne Heq. unfold FinalSolver.hashState in Heq.
  cbn [state.x state.y state.dir state.stars state.stack state.board] in Heq.
  do 4 apply String.app_inj in Heq.
  assert (FinalSolver.join (take 5 [INST.TL; INST.F0]) = "2,7") as J1 by by vm_compute.
  assert (FinalSolver.join (take 5 [INST.F0]) = "7") as J2 by by vm_compute.
  revert Heq. generalize (pretty st) (FinalSolver.hashBoard b). intros ps bh Heq.
  destruct (pretty_compass d1 Hd1) as [ [-> E1] | [ [-> E1] | [ [-> E1] | [-> E1] ] ] ];
    destruct (pretty_compass d2 Hd2) as [ [-> E2] | [ [-> E2] | [ [-> E2] | [-> E2] ] ] ];
    rewrite ?E1, ?E2 in Heq; try discriminate Heq;
    do 4 apply String.app_inj in Heq;
    destruct Hk1 as [-> | ->]; destruct Hk2 as [-> | ->];
    try (by apply Hne); rewrite J1, J2 in Heq; discriminate Heq.
Qed.

Section Spin.

Variables (pf : list (list Z)) (maxSteps : Z).
Variables (x y st : Z) (b : list Js.row).

Hypothesis Hprog : pf !! 0%nat = Some [INST.TL; INST.F0].
Hypothesis Hst : st <> 0.

Local Lemma spin_turn (d d' n n' : Z) (cache : gset string) :
  d' = Z.rem (d + 3) 4 -> n' = n + 1 -> n < maxSteps ->
  FinalSolver.hashState (state.mk x y d st b [INST.TL; INST.F0] n) ∉ cache ->
  FinalSolver.iteration pf maxSteps
    (state.mk x y d st b [INST.TL; INST.F0] n) cache =
  (Next (state.mk x y d' st b [INST.F0] n'),
   {[FinalSolver.hashState (state.mk x y d st b [INST.TL; INST.F0] n)]} ∪ cache).
Proof.
  intros -> -> Hn Hfresh.
  unfold FinalSolver.iteration, FinalSolver.loopCondition, FinalSolver.loopBody.
  cbn [state.steps state.stack state.stars length].
  rewrite (proj2 (Z.ltb_lt _ _) Hn), (proj2 (Z.eqb_neq _ _) Hst).
  rewrite bool_decide_eq_false_2 by exact Hfresh.
  reflexivity.
Qed.

Local Lemma spin_call (d n n' : Z) (cache : gset string) :
  n' = n + 1 -> n < maxSteps ->
  FinalSolver.hashState (state.mk x y d st b [INST.F0] n) ∉ cache ->
  FinalSolver.iteration pf maxSteps (state.mk x y d st b [INST.F0] n) cache =
  (Next (state.mk x y d st b [INST.TL; INST.F0] n'),
   {[FinalSolver.hashState (state.mk x y d st b [INST.F0] n)]} ∪ cache).
Proof.
  intros -> Hn Hfresh.
  unfold FinalSolver.iteration, FinalSolver.loopCondition, FinalSolver.loopBody.
  cbn [state.steps state.stack state.stars length].
  rewrite (proj2 (Z.ltb_lt _ _) Hn), (proj2 (Z.eqb_neq _ _) Hst).
  rewrite bool_decide_eq_false_2 by exact Hfresh.
  erewrite popped_call; [|reflexivity|by left].
  unfold bodyOf. change (Js.index pf (INST.F0 - INST.F0)) with (pf !! 0%nat).
  by rewrite Hprog.
Qed.

Local Lemma spin_seen (s : state.t) (cache : gset string) :
  state.stack s = [INST.TL; INST.F0] -> state.stars s = st ->
  state.steps s < maxSteps ->
  FinalSolver.hashState s ∈ cache ->
  FinalSolver.iteration pf maxSteps s cache = (Return UnsolvedLoop s, cache).
Proof.
  intros Hk Hs Hn Hseen.
  unfold FinalSolver.iteration, FinalSolver.loopCondition, FinalSolver.loopBody.
  rewrite Hk, Hs. cbn [length].
  rewrite (proj2 (Z.ltb_lt _ _) Hn), (proj2 (Z.eqb_neq _ _) Hst).
  by rewrite bool_decide_eq_true_2.
Qed.

Ltac fresh_key :=
  let Hin := fresh "Hin" in
  intros Hin;
  repeat (apply elem_of_union in Hin as [Hin|Hin]);
  first
    [ by apply elem_of_empty in Hin
    | apply elem_of_singleton in Hin; revert Hin;
      apply hashState_spin_ne;
      [ lia | lia | unfold spinStack; auto | unfold spinStack; auto
      | intros [= ]; lia || discriminate ] ].

Ltac spin :=
  first
    [ erewrite spin_turn; [ | by vm_compute | by vm_compute | lia | fresh_key ]
    | erewrite spin_call; [ | by vm_compute | lia | fresh_key ] ].

Local Lemma spin_run (d : Z) (fuel : nat) :
  0 <= d < 4 -> 9 <= maxSteps ->
  FinalSolver.run pf maxSteps (9 + fuel)
    (state.mk x y d st b [INST.TL; INST.F0] 0) ∅ =
  Done UnsolvedLoop (state.mk x y d st b [INST.TL; INST.F0] 8).
Proof.
  intros Hd Hmax.
  assert (d = 0 \/ d = 1 \/ d = 2 \/ d = 3) as [-> | [-> | [-> | ->] ] ] by lia;
    cbn [FinalSolver.run Nat.add];
    do 8 spin;
    (rewrite spin_seen; [reflexivity | reflexivity | reflexivity | cbn; lia | ]);
    rewrite !elem_of_union, !elem_of_singleton; unfold FinalSolver.hashState;
    cbn [state.x state.y state.dir state.stars state.stack state.board];
    tauto.
Qed.

End Spin.

(** C6. With loop detection, the program [F0 = [TL; F0]] on a level with a
    star left is reported as a detected loop after 8 steps, before the step
    cap (1000 by default; any cap of at least 9): the key of position,
    direction, stars, first five stack entries and board hash of the
    starting state comes back once the robot has turned four times. *)
Theorem spin_is_detected (lvl : level.t) (pf : list (list Z)) (maxSteps : Z) :
  pf !! 0%nat = Some [INST.TL; INST.F0] ->
  level.stars lvl <> 0 ->
  0 <= level.player_direction lvl < 4 ->
  9 <= maxSteps ->
  exists final,
    FinalSolver.executeWithLoopDetection lvl pf maxSteps = Done UnsolvedLoop final /\
    state.steps final = 8 /\ state.steps final < maxSteps /\
    final = state.mk (level.player_x lvl) (level.player_y lvl)
              (level.player_direction lvl) (level.stars lvl)
              (map Js.spread (level.board lvl)) [INST.TL; INST.F0] 8 /\
    FinalSolver.hashState final = FinalSolver.hashState (initialState lvl pf).
Proof.
  intros Hprog Hstars Hd Hmax. eexists.
  unfold FinalSolver.executeWithLoopDetection, initialState. rewrite Hprog.
  replace (S (Z.to_nat maxSteps)) with (9 + (Z.to_nat maxSteps - 8))%nat by lia.
  rewrite (spin_run pf maxSteps _ _ _ _ Hprog Hstars _ _ Hd Hmax).
  repeat split; cbn; lia.
Qed.

Lemma spin_is_detected_witness :
  exists final,
    FinalSolver.executeWithLoopDetection
      (level.mk 3 4 2 1 [[1; 2]; [0; 5]] None None)
      [[INST.TL; INST.F0]] FinalSolver.defaultMaxSteps = Done UnsolvedLoop final /\
    state.steps final = 8.
Proof.
  destruct (spin_is_detected (level.mk 3 4 2 1 [[1; 2]; [0; 5]] None None)
              [[INST.TL; INST.F0]] FinalSolver.defaultMaxSteps)
    as (final & Hrun & Hsteps & _); try reflexivity; try (cbn; lia);
    try (vm_compute; lia).
  - cbn. discriminate.
  - exists final. split; assumption.
Defined.

(* ===================================================================== *)
(** ** Search by instruction subsets does not return a shortest program *)
(* ===================================================================== *)

Lemma zigzag_solve (drawn : Z -> list (list Z)) :
  Solver.solve drawn zigzagLevel = Found [[1; 1; 1; 107]] 7 96.
Proof.
  unfold Solver.solve.
  change (availableInstructionsOf zigzagLevel) with [FW; F0; C1; C2; C3].
  change (functionLengthsOf zigzagLevel) with [6].
  cbn [length Nat.eqb].
  set (allInstr := _ ++ _).
  assert (allInstr = [1; 7; 101; 107; 201; 207; 301; 307]) as -> by by vm_compute.
  assert (Solver.sizesTo (Z.min (Z.of_nat (length [1; 7; 101; 107; 201; 207; 301; 307])) 8)
          = [3; 4; 5; 6; 7; 8]) as -> by by vm_compute.
  cbn [Solver.testSizes].
  unfold Solver.generateInstructionSubsets.
  assert (Solver.plannedSubsets [1; 7; 101; 107; 201; 207; 301; 307] 3
          = [[1; 101; 107]; [1; 107; 201]]) as -> by by vm_compute.
  cbn [app Solver.testSubsets].
  assert (Solver.testDepths zigzagLevel [1; 101; 107] [6]
            (Solver.depthsTo (Z.min (sumLengths [6]) 8)) 0
          = Found [[1; 1; 1; 107]] 7 96) as -> by by vm_compute.
  reflexivity.
Qed.

(** C2, as stated, does not hold of [Solver.solve], which tries instruction
    subsets one after the other and deepens inside each: on [zigzagLevel]
    it returns the four-instruction program [FW; FW; FW; C1+F0] found with
    its first subset, while the three-instruction program
    [FW; C2+FW; C1+F0], generated for its second subset, is solved too. *)
Lemma subset_search_not_minimal : ~ solverReturnsMinimal.
Proof.
  intros Hmin.
  specialize (Hmin (fun _ => []) zigzagLevel [[1; 1; 1; 107]] 7 96
                [[1; 201; 107]] (zigzag_solve _)).
  assert (instrCount [[1; 1; 1; 107]] <= instrCount [[1; 201; 107]]) as Hle.
  { apply Hmin.
    - unfold Solver.searchSpace.
      apply list_elem_of_In, in_flat_map. exists 3. split; [vm_compute; tauto|].
      apply in_flat_map. exists [1; 107; 201]. split; [vm_compute; tauto|].
      apply in_flat_map. exists 3. split; [vm_compute; tauto|].
      apply list_elem_of_In.
      apply (list_elem_of_lookup_2 _ 19%nat). by vm_compute.
    - exists 11. eexists. by vm_compute. }
  vm_compute in Hle. by apply Hle.
Qed.

(* ===================================================================== *)
(** ** Iterative deepening in [ConstraintSolver] *)
(* ===================================================================== *)

Module DeepeningFacts.
Import ConstraintSolver Deepening.

(** *** Arrays filled from the left *)

Lemma omap_filled (a : list Z) (k : nat) :
  omap id (map Some a ++ replicate k None) = a.
Proof.
  induction a as [|v a IH]; cbn.
  - induction k as [|k IHk]; [done|exact IHk].
  - by rewrite IH.
Qed.

Lemma filled_intro (a : list Z) (k : nat) :
  filledFromLeft (map Some a ++ replicate k None).
Proof. exists k. by rewrite omap_filled. Qed.

Lemma setAt_push (a : list Z) (k : nat) (v : Z) :
  setAt (map Some a ++ replicate k None) (length a) (Some v)
  = map Some (a ++ [v]) ++ replicate (k - 1) None.
Proof.
  unfold setAt. rewrite length_app, length_map, length_replicate.
  destruct k as [|k].
  - replace (length a <? length a + 0)%nat with false
      by (symmetry; apply Nat.ltb_ge; lia).
    rewrite Nat.add_0_r, Nat.sub_diag. cbn.
    by rewrite map_app, !app_nil_r.
  - replace (length a <? length a + S k)%nat with true
      by (symmetry; apply Nat.ltb_lt; lia).
    rewrite insert_app_r_alt by (rewrite length_map; lia).
    rewrite length_map, Nat.sub_diag. cbn.
    rewrite Nat.sub_0_r, map_app, <- app_assoc. reflexivity.
Qed.

Lemma setAt_clear (a : list Z) (k : nat) (v : Z) :
  setAt (map Some (a ++ [v]) ++ replicate k None) (length a) None
  = map Some a ++ replicate (S k) None.
Proof.
  unfold setAt. rewrite length_app, length_map, length_app, length_replicate.
  cbn [length].
  replace (length a <? length a + 1 + k)%nat with true
    by (symmetry; apply Nat.ltb_lt; lia).
  rewrite map_app, <- app_assoc.
  rewrite insert_app_r_alt by (rewrite length_map; lia).
  rewrite length_map, Nat.sub_diag. reflexivity.
Qed.

(** *** The program array *)

Lemma instructionsOf_lookup (p : Store) (i : nat) :
  instructionsOf p !! i = omap id <$> p !! i.
Proof. unfold instructionsOf. apply list_lookup_fmap. Qed.

Lemma instructionsOf_insert (p : Store) (i : nat) (f : list (option Z)) :
  instructionsOf (<[i := f]> p) = <[i := omap id f]> (instructionsOf p).
Proof. unfold instructionsOf. apply list_fmap_insert. Qed.

Lemma setEntry_push (p : Store) (idx : nat) (a : list Z) (v : Z) :
  wellFormed p ->
  instructionsOf p !! idx = Some a ->
  exists p',
    setEntry p idx (length a) (Some v) = Some p' /\
    wellFormed p' /\
    instructionsOf p' = <[idx := a ++ [v]]> (instructionsOf p).
Proof.
  intros Hw Ha. rewrite instructionsOf_lookup in Ha.
  destruct (p !! idx) as [f|] eqn:Hf; [|discriminate]. injection Ha as Ha.
  destruct (proj1 (Forall_lookup _ _) Hw idx f Hf) as [k Hk].
  rewrite Ha in Hk. subst f.
  unfold setEntry. rewrite Hf, setAt_push. eexists; split; [reflexivity|].
  split.
  - apply Forall_insert; [exact Hw|apply filled_intro].
  - by rewrite instructionsOf_insert, omap_filled.
Qed.

Lemma setEntry_clear (p : Store) (idx : nat) (a : list Z) (v : Z) :
  wellFormed p ->
  instructionsOf p !! idx = Some (a ++ [v]) ->
  exists p',
    setEntry p idx (length a) None = Some p' /\
    wellFormed p' /\
    instructionsOf p' = <[idx := a]> (instructionsOf p).
Proof.
  intros Hw Ha. rewrite instructionsOf_lookup in Ha.
  destruct (p !! idx) as [f|] eqn:Hf; [|discriminate]. injection Ha as Ha.
  destruct (proj1 (Forall_lookup _ _) Hw idx f Hf) as [k Hk].
  rewrite Ha in Hk. subst f.
  unfold setEntry. rewrite Hf, setAt_clear. eexists; split; [reflexivity|].
  split.
  - apply Forall_insert; [exact Hw|apply filled_intro].
  - by rewrite instructionsOf_insert, omap_filled.
Qed.

Lemma concat_insert_length (l : list (list Z)) (i : nat) (a b : list Z) :
  l !! i = Some a ->
  (length (concat (<[i := b]> l)) + length a = length (concat l) + length b)%nat.
Proof.
  revert i. induction l as [|c l IH]; intros [|i] Hl; try discriminate.
  - injection Hl as ->. change (<[0%nat := b]> (a :: l)) with (b :: l).
    cbn [concat]. rewrite !length_app. lia.
  - change (<[S i := b]> (c :: l)) with (c :: <[i := b]> l).
    cbn [concat]. rewrite !length_app. specialize (IH i Hl). lia.
Qed.

Lemma count_push (p p' : Store) (idx : nat) (a : list Z) (v : Z) :
  instructionsOf p !! idx = Some a ->
  instructionsOf p' = <[idx := a ++ [v]]> (instructionsOf p) ->
  count p' = count p + 1.
Proof.
  intros Ha Hp'. unfold count, instrCount. rewrite Hp'.
  pose proof (concat_insert_length _ idx a (a ++ [v]) Ha) as H.
  rewrite length_app in H. cbn in H. lia.
Qed.

(** *** Loops that stop at the first solved result *)

Lemma spec_quiet (lvl : level.t) (total : Z) (p : Store) :
  wellFormed p -> spec lvl total p (mkRan Failure p []).
Proof. intros Hw. repeat split; try done; by constructor. Qed.

Lemma forEach_spec (lvl : level.t) (total : Z) {A} (items : list A)
    (body : A -> Store -> Ran) (a0 : list (list Z)) :
  (forall a p, a ∈ items -> wellFormed p -> instructionsOf p = a0 ->
               spec lvl total p (body a p)) ->
  forall p, wellFormed p -> instructionsOf p = a0 ->
            spec lvl total p (forEach items body p).
Proof.
  induction items as [|a more IH]; intros Hbody p Hw Ha0; cbn [forEach].
  - by apply spec_quiet.
  - pose proof (Hbody a p ltac:(left) Hw Ha0) as Hr.
    remember (body a p) as r eqn:Er. clear Er.
    destruct (outcome r) eqn:Ho; [exact Hr| |exact Hr].
    destruct Hr as (Hcount & Hjudged & Hback).
    destruct (Hback Ho) as [Hw' Ha'].
    assert (forall a' p', a' ∈ more -> wellFormed p' -> instructionsOf p' = a0 ->
                          spec lvl total p' (body a' p')) as Hbody'
      by (intros a' p' Hin; apply Hbody; by right).
    destruct (IH Hbody' (store r) Hw' ltac:(congruence))
      as (Hcount2 & Hjudged2 & Hback2).
    unfold judged in Hjudged. rewrite Ho in Hjudged.
    split; [|split].
    + unfold andThen; cbn [tested]. by apply Forall_app.
    + unfold judged in *. unfold andThen; cbn [store outcome tested].
      destruct (outcome (forEach more body (store r))) as [q steps| |].
      * destruct Hjudged2 as (earlier & -> & Hun & Hsol).
        exists (tested r ++ earlier).
        rewrite <- app_assoc. repeat split; [by apply Forall_app|done].
      * by apply Forall_app.
      * done.
    + unfold andThen; cbn [store outcome tested].
      intros Hf. destruct (Hback2 Hf) as [Hw2 Ha2].
      split; [done|]. by rewrite Ha2.
Qed.

Lemma testProgram_spec (lvl : level.t) (total : Z) (p : Store) :
  wellFormed p -> count p = total -> spec lvl total p (testProgram lvl p).
Proof.
  intros Hw Hc. unfold testProgram.
  destruct (executeProgram lvl (asProgram p) defaultMaxSteps) as [r s|s|s] eqn:He.
  - destruct r as [steps| |].
    + repeat split; cbn; [by repeat constructor| |done].
      exists []. repeat split; [constructor|]. by exists s.
    + repeat split; cbn; try done; [by repeat constructor|].
      constructor; [|constructor]. intros steps [s' Hs']. congruence.
    + repeat split; cbn; try done; [by repeat constructor|].
      constructor; [|constructor]. intros steps [s' Hs']. congruence.
  - repeat split; cbn; try done. by repeat constructor.
  - repeat split; cbn; try done. by repeat constructor.
Qed.

Lemma propagate_is_Some (c : Constraints) (instr : Z) :
  exists c', propagateConstraints c instr = Some c'.
Proof.
  unfold propagateConstraints.
  destruct (_ =? INST.TL); [by eexists|]. destruct (_ =? INST.TR); by eexists.
Qed.

(** *** Filling one slot, then the later ones *)

Section Fill.

Variables (lvl : level.t) (allInstructions : list Z) (total : Z).
Variables (idx : nat) (later : list nat) (onComplete : Store -> Ran) (used : Z).

Hypothesis Hfresh : idx ∉ later.
Hypothesis Hcomplete : forall p,
  wellFormed p ->
  (forall i, i ∈ later -> instructionsOf p !! i = Some []) ->
  count p = used ->
  spec lvl total p (onComplete p).

Lemma fillSearch_spec (remaining pos : nat) (c : Constraints) (p : Store) :
  wellFormed p ->
  (exists a, instructionsOf p !! idx = Some a /\ length a = pos) ->
  (forall i, i ∈ later -> instructionsOf p !! i = Some []) ->
  count p = used - Z.of_nat remaining ->
  spec lvl total p (fillSearch allInstructions idx onComplete remaining pos c p).
Proof.
  revert pos c p. induction remaining as [|remaining IH];
    intros pos c p Hw (a & Ha & Hpos) Hlater Hcount; cbn [fillSearch].
  - apply Hcomplete; [done..|lia].
  - apply (forEach_spec lvl total _ _ (instructionsOf p)); [|done..].
    intros instr p1 _ Hw1 Ha1.
    rewrite <- Ha1 in Ha, Hlater.
    assert (count p1 = count p) as Hc1 by (unfold count; by rewrite Ha1).
    destruct (setEntry_push p1 idx a instr Hw1 Ha) as (p2 & Hset & Hw2 & Ha2).
    rewrite Hpos in Hset. rewrite Hset.
    destruct (propagate_is_Some c instr) as [c' ->].
    assert (idx < length (instructionsOf p1))%nat as Hidx
        by (eapply lookup_lt_Some; eauto).
    assert (spec lvl total p2
              (fillSearch allInstructions idx onComplete remaining (S pos) c' p2))
      as (Hcount2 & Hjudged2 & Hback2).
    { apply IH; [done| | |].
      - exists (a ++ [instr]). rewrite Ha2, list_lookup_insert_eq by done.
        split; [done|]. rewrite length_app. cbn. lia.
      - intros i Hi. rewrite Ha2, list_lookup_insert_ne; [by apply Hlater|].
        intros ->. by apply Hfresh.
      - rewrite (count_push p1 p2 idx a instr Ha Ha2). lia. }
    remember (fillSearch allInstructions idx onComplete remaining (S pos) c' p2)
      as tried eqn:Et. clear Et.
    destruct (outcome tried) eqn:Ho.
    + split; [done|]. split; [done|]. intros Hf. congruence.
    + destruct (Hback2 eq_refl) as [Hw3 Ha3].
      destruct (setEntry_clear _ idx a instr Hw3) as (p4 & Hset4 & Hw4 & Ha4).
      { rewrite Ha3, Ha2. by apply list_lookup_insert_eq. }
      rewrite Hpos in Hset4. rewrite Hset4.
      split; [done|]. split.
      * unfold judged in *. cbn [outcome tested]. by rewrite Ho in Hjudged2.
      * intros _. cbn [store]. split; [done|].
        rewrite Ha4, Ha3, Ha2, list_insert_insert_eq. by apply list_insert_id.
    + split; [done|]. split; [done|]. intros Hf. congruence.
Qed.

End Fill.

Lemma search_spec (lvl : level.t) (allInstructions funcLengths : list Z)
    (total : Z) (funcOrder : list nat) :
  NoDup funcOrder ->
  forall used p,
    wellFormed p ->
    (forall i, i ∈ funcOrder -> instructionsOf p !! i = Some []) ->
    count p = used ->
    spec lvl total p
      (search lvl allInstructions funcLengths total funcOrder used p).
Proof.
  induction funcOrder as [|idx later IH]; intros Hnd used p Hw Hempty Hcount;
    cbn [search].
  - destruct (Z.eqb_spec used total) as [<-|_].
    + by apply testProgram_spec.
    + by apply spec_quiet.
  - apply NoDup_cons in Hnd as [Hfresh Hnd].
    destruct (funcLengths !! idx) as [flen|]; [|by apply spec_quiet].
    apply (forEach_spec lvl total _ _ (instructionsOf p)); [|done..].
    intros len p1 _ Hw1 Ha1. unfold fillFunction.
    eapply (fillSearch_spec lvl allInstructions total idx later _
              (used + Z.of_nat len) Hfresh).
    + intros p2 Hw2 Hlater2 Hc2. by apply IH.
    + done.
    + exists []. split; [|done]. rewrite Ha1. apply Hempty. by left.
    + intros i Hi. rewrite Ha1. apply Hempty. by right.
    + unfold count in *. rewrite Ha1. lia.
Qed.

(** *** The order of the slots *)

Lemma insertByLength_perm (e : nat * Z) (sorted : list (nat * Z)) :
  insertByLength e sorted ≡ₚ e :: sorted.
Proof.
  induction sorted as [|e' rest IH]; cbn [insertByLength]; [done|].
  destruct (_ <? _); [done|]. rewrite IH. apply Permutation_swap.
Qed.

Lemma sortByLength_perm (l : list (nat * Z)) : sortByLength l ≡ₚ l.
Proof.
  unfold sortByLength.
  assert (forall acc, foldl (fun sorted e => insertByLength e sorted) acc l ≡ₚ l ++ acc)
    as H.
  { induction l as [|e l IH]; intros acc; cbn [foldl app]; [done|].
    rewrite IH, insertByLength_perm. symmetry. apply Permutation_middle. }
  rewrite H. by rewrite app_nil_r.
Qed.

Lemma funcOrderOf_perm (functionLengths : list Z) :
  funcOrderOf functionLengths ≡ₚ seq 0 (length functionLengths).
Proof.
  unfold funcOrderOf. rewrite sortByLength_perm.
  change (map fst ?l) with (fst <$> l). rewrite fmap_imap.
  rewrite (imap_ext _ (fun j _ => id j)) by done.
  by rewrite imap_seq_0, list_fmap_id.
Qed.

Lemma tryBuildProgram_spec (lvl : level.t) (allInstructions funcLengths : list Z)
    (total : Z) :
  spec lvl total (map (fun _ => []) funcLengths)
    (tryBuildProgram lvl allInstructions funcLengths total (funcOrderOf funcLengths)).
Proof.
  unfold tryBuildProgram. apply search_spec.
  - rewrite funcOrderOf_perm. apply NoDup_seq.
  - apply Forall_forall. intros f Hf. apply list_elem_of_fmap in Hf as (_ & -> & _).
    by exists 0%nat.
  - intros i Hi. rewrite funcOrderOf_perm in Hi. apply elem_of_seq in Hi.
    rewrite instructionsOf_lookup. change (map ?f ?l) with (f <$> l).
    rewrite list_lookup_fmap.
    destruct (lookup_lt_is_Some_2 funcLengths i ltac:(lia)) as [flen ->]. done.
  - unfold count, instrCount, instructionsOf.
    induction funcLengths as [|flen fl IH]; [done|exact IH].
Qed.

(** *** The deepening loop *)

Lemma deepen_Found (lvl : level.t) (instructions functionLengths : list Z)
    (funcOrder : list nat) (depths : list Z) (n : Z) (p : Store)
    (steps found : Z) :
  deepen lvl instructions functionLengths funcOrder depths n = Found p steps found ->
  exists before d after,
    depths = before ++ d :: after /\
    outcome (tryBuildProgram lvl instructions functionLengths d funcOrder)
      = Success p steps /\
    Forall (fun d' =>
              outcome (tryBuildProgram lvl instructions functionLengths d' funcOrder)
              = Failure) before /\
    found = n + Z.of_nat
                  (length
                     (flat_map
                        (fun d' => tested (tryBuildProgram lvl instructions
                                             functionLengths d' funcOrder))
                        (before ++ [d]))).
Proof.
  revert n. induction depths as [|d deeper IH]; intros n; cbn [deepen]; [done|].
  destruct (outcome (tryBuildProgram lvl instructions functionLengths d funcOrder))
    as [q steps'| |] eqn:Ho; [| |done].
  - intros [= -> -> <-]. exists [], d, deeper. repeat split; [done|constructor|].
    cbn. by rewrite app_nil_r.
  - intros Hd. apply IH in Hd as (before & d0 & after & -> & Hs & Hf & ->).
    exists (d :: before), d0, after. repeat split; [done|by constructor|].
    cbn [app flat_map]. rewrite length_app. lia.
Qed.

Lemma depthsTo_split (sum : Z) (before : list Z) (d : Z) (after : list Z) :
  depthsTo sum = before ++ d :: after ->
  1 <= d <= sum /\ forall d', 1 <= d' < d -> d' ∈ before.
Proof.
  unfold depthsTo. intros Hsplit.
  assert (length before < Z.to_nat sum)%nat as Hlen.
  { apply (f_equal length) in Hsplit.
    rewrite length_map, length_seq, length_app in Hsplit. cbn in Hsplit. lia. }
  assert (forall i, (i < Z.to_nat sum)%nat ->
            map (fun k => Z.of_nat k) (seq 1 (Z.to_nat sum)) !! i
            = Some (Z.of_nat (S i))) as Hnth.
  { intros i Hi. change (map ?f ?l) with (f <$> l).
    rewrite list_lookup_fmap, lookup_seq_lt by done. done. }
  assert (d = Z.of_nat (S (length before))) as Hd.
  { pose proof (Hnth (length before) Hlen) as H.
    rewrite Hsplit, list_lookup_middle in H by done. congruence. }
  split; [lia|].
  intros d' Hd'.
  apply list_elem_of_lookup. exists (Z.to_nat (d' - 1)).
  pose proof (Hnth (Z.to_nat (d' - 1)) ltac:(lia)) as H.
  rewrite Hsplit, lookup_app_l in H by lia.
  rewrite H. f_equal. lia.
Qed.

Lemma depthsTo_prefix (sum : Z) (before : list Z) (d : Z) (after : list Z) :
  depthsTo sum = before ++ d :: after ->
  before ++ [d] = map (fun k => Z.of_nat k) (seq 1 (Z.to_nat d)).
Proof.
  intros Hsplit.
  destruct (depthsTo_split _ _ _ _ Hsplit) as [Hd _].
  assert (length before < Z.to_nat sum)%nat as Hlen.
  { apply (f_equal length) in Hsplit. unfold depthsTo in Hsplit.
    rewrite length_map, length_seq, length_app in Hsplit. cbn in Hsplit. lia. }
  assert (d = Z.of_nat (S (length before))) as Hdl.
  { assert (depthsTo sum !! length before = Some d) as H
        by (rewrite Hsplit; by apply list_lookup_middle).
    unfold depthsTo in H. change (map ?f ?l) with (f <$> l) in H.
    rewrite list_lookup_fmap, lookup_seq_lt in H by done. cbn in H. congruence. }
  assert (before ++ [d] = take (S (length before)) (depthsTo sum)) as ->.
  { rewrite Hsplit.
    replace (before ++ d :: after) with ((before ++ [d]) ++ after)
      by (by rewrite <- app_assoc).
    rewrite take_app_length'; [done|]. rewrite length_app. cbn. lia. }
  unfold depthsTo. change (map ?f ?l) with (f <$> l).
  rewrite <- fmap_take, take_seq. do 2 f_equal. lia.
Qed.

(** C2, as the code has it.  [ConstraintSolver.solve] deepens on the total
    instruction count: a program it returns is solved by its executor, it is
    the last of the programs executed at its own instruction count [d], and
    every program executed at a smaller count [d'] (all of them have exactly
    [d'] instructions) was executed before and is not solved; so no program
    the search executes at any count is solved with fewer instructions than
    the returned one, and [tested] counts exactly the programs executed up
    to it. *)
Theorem deepening_returns_minimal (lvl : level.t) (program : Store)
    (steps found : Z) :
  solve lvl = Found program steps found ->
  let d := count program in
  1 <= d <= sumLengths (functionLengthsOf lvl) /\
  solves lvl program steps /\
  (exists earlier,
     candidatesAt lvl d = earlier ++ [program] /\
     Forall (fun q => count q = d /\ unsolved lvl q) earlier) /\
  (forall d' q, 1 <= d' < d -> q ∈ candidatesAt lvl d' ->
                count q = d' /\ unsolved lvl q) /\
  (forall d' q n, 1 <= d' -> q ∈ candidatesAt lvl d' -> solves lvl q n ->
                  d <= count q) /\
  found = Z.of_nat
            (length (flat_map (candidatesAt lvl)
                       (map (fun k => Z.of_nat k) (seq 1 (Z.to_nat d))))).
Proof.
  unfold solve. intros Hsolve.
  apply deepen_Found in Hsolve as (before & d0 & after & Hsplit & Hs & Hf & ->).
  destruct (depthsTo_split _ _ _ _ Hsplit) as [Hd0 Hbefore].
  pose proof (tryBuildProgram_spec lvl
                (buildInstructions (availableInstructionsOf lvl))
                (functionLengthsOf lvl)) as Hspec.
  destruct (Hspec d0) as (Hc0 & Hj0 & _).
  unfold judged in Hj0. rewrite Hs in Hj0.
  destruct Hj0 as (earlier & Ht & Hun & Hsol).
  fold (candidatesAt lvl d0) in Ht, Hc0.
  assert (count program = d0) as Hcount.
  { rewrite Ht in Hc0. apply Forall_app in Hc0 as [_ Hc0].
    by inversion Hc0. }
  assert (forall d' q, 1 <= d' < d0 -> q ∈ candidatesAt lvl d' ->
                       count q = d' /\ unsolved lvl q) as Hsmaller.
  { intros d' q Hd' Hq.
    destruct (Hspec d') as (Hc & Hj & _).
    fold (candidatesAt lvl d') in Hc.
    split; [by apply (proj1 (Forall_forall _ _) Hc)|].
    pose proof (proj1 (Forall_forall _ _) Hf d' (Hbefore d' Hd')) as Hfail.
    unfold judged in Hj. rewrite Hfail in Hj.
    by apply (proj1 (Forall_forall _ _) Hj). }
  cbv zeta. rewrite Hcount.
  split; [exact Hd0|]. split; [exact Hsol|]. split; [|split; [exact Hsmaller|split] ].
  - exists earlier. split; [exact Ht|].
    rewrite Ht in Hc0. apply Forall_app in Hc0 as [Hc0 _].
    apply Forall_forall. intros q Hq. split.
    + by apply (proj1 (Forall_forall _ _) Hc0).
    + by apply (proj1 (Forall_forall _ _) Hun).
  - intros d' q n Hd' Hq Hn.
    destruct (Hspec d') as (Hc & _ & _). fold (candidatesAt lvl d') in Hc.
    rewrite (proj1 (Forall_forall _ _) Hc q Hq).
    destruct (Z.le_gt_cases d0 d') as [Hle|Hgt]; [exact Hle|].
    exfalso. by apply (proj2 (Hsmaller d' q ltac:(lia) Hq) n).
  - rewrite <- (depthsTo_prefix _ _ _ _ Hsplit). unfold candidatesAt. lia.
Qed.

Lemma deepening_returns_minimal_witness :
  1 <= count [[Some INST.FW; Some INST.F0]] <= sumLengths (functionLengthsOf zigzagLevel) /\
  solves zigzagLevel [[Some INST.FW; Some INST.F0]] 11.
Proof.
  destruct (deepening_returns_minimal zigzagLevel [[Some INST.FW; Some INST.F0]] 11 10)
    as (Hd & Hsol & _); [by vm_compute|].
  split; [exact Hd | exact Hsol].
Defined.

End DeepeningFacts.

(* ===================================================================== *)
(** ** No exception on the boards of the level files *)
(* ===================================================================== *)

Lemma grid16_read (b : list Js.row) (y x : Z) :
  grid16 b -> 0 <= x < 16 -> 0 <= y < 16 ->
  exists n, read_cell b y x = Some (Js.num n).
Proof.
  intros [Hlen Hrows] Hx Hy. unfold read_cell, Js.index.
  replace (0 <=? y) with true by (symmetry; apply Z.leb_le; lia).
  destruct (lookup_lt_is_Some_2 b (Z.to_nat y) ltac:(lia)) as [r Hr]. rewrite Hr.
  pose proof (proj1 (Forall_forall _ _) Hrows r (list_elem_of_lookup_2 _ _ _ Hr) x)
    as Hr16. cbn beta in Hr16.
  apply Hr16 in Hx as [n ->]. by exists n.
Qed.

Lemma grid16_write (b : list Js.row) (y x n : Z) :
  grid16 b -> 0 <= x < 16 -> grid16 (write_cell b y x n).
Proof.
  intros [Hlen Hrows] Hx. unfold write_cell.
  destruct (Js.index b y) as [r|] eqn:Hr; [|done].
  apply index_Some in Hr as [Hy Hr].
  split; [by rewrite length_insert|].
  apply Forall_insert; [done|].
  pose proof (proj1 (Forall_forall _ _) Hrows r (list_elem_of_lookup_2 _ _ _ Hr))
    as Hr16. cbn beta in Hr16.
  intros i. unfold Js.row_get, Js.row_set; cbn [Js.cells].
  destruct (decide (i = x)) as [->|Hne].
  - rewrite lookup_insert_eq. split; [done|by eexists].
  - rewrite lookup_insert_ne by done. apply Hr16.
Qed.

Lemma forward_wellPlaced (s : state.t) :
  wellPlaced s ->
  (forall s', forward s <> Throws s') /\
  (forall s', forward s = Next s' -> wellPlaced s').
Proof.
  intros (Hg & Hx & Hy & Hd).
  destruct (index_dx _ Hd) as (ddx & ddy & Hdx & Hdy & Hcase).
  unfold forward. rewrite Hdx, Hdy.
  destruct (_ || _) eqn:Hb; [by split|].
  repeat (apply orb_false_iff in Hb as [Hb ?]).
  repeat match goal with
         | H : (_ <? _) = false |- _ => apply Z.ltb_ge in H
         | H : (_ <=? _) = false |- _ => apply Z.leb_gt in H
         end.
  destruct (grid16_read _ (state.y s + ddy) (state.x s + ddx) Hg) as [n ->];
    [lia..|].
  cbn [Js.strict_eq]. destruct (n =? 0); [by split|].
  destruct (3 <? n); (split; [done|]); intros s' [= <-];
    repeat split; cbn; try lia; try done; try (by apply Hg);
    apply grid16_write; (done || lia).
Qed.

Lemma execInstruction_wellPlaced b (pf : list (list Z)) (s : state.t) :
  wellPlaced s ->
  (forall s', execInstruction b pf s <> Throws s') /\
  (forall s', execInstruction b pf s = Next s' -> wellPlaced s').
Proof.
  intros Hw. pose proof Hw as (Hg & Hx & Hy & Hd).
  assert (forall k, wellPlaced (state.popped k s)) as Hpop by (intros; exact Hw).
  assert (forall op s1, wellPlaced s1 ->
            (forall s', execOpcode b pf op s1 <> Throws s') /\
            (forall s', execOpcode b pf op s1 = Next s' -> wellPlaced s')) as Hop.
  { intros op s1 Hw1. pose proof Hw1 as (Hg1 & Hx1 & Hy1 & Hd1).
    unfold execOpcode, paint.
    destruct (grid16_read _ _ _ Hg1 Hx1 Hy1) as [n Hn].
    repeat match goal with
           | |- context [if ?e then _ else _] => destruct e
           end;
      try (by apply forward_wellPlaced);
      rewrite ?Hn; (split; [done|]); intros s' [= <-];
      unfold turnLeft, turnRight, call, state.with_dir, state.with_board;
      try (destruct (Js.index pf _); [destruct (_ && _)|]);
      repeat split; cbn; try lia; try done; try (by apply Hg1);
      try (apply grid16_write; (done || lia)).
    - pose proof (Z.rem_bound_pos (state.dir s1 + 3) 4 ltac:(lia) ltac:(lia)); lia.
    - pose proof (Z.rem_bound_pos (state.dir s1 + 3) 4 ltac:(lia) ltac:(lia)); lia.
    - pose proof (Z.rem_bound_pos (state.dir s1 + 1) 4 ltac:(lia) ltac:(lia)); lia.
    - pose proof (Z.rem_bound_pos (state.dir s1 + 1) 4 ltac:(lia) ltac:(lia)); lia. }
  unfold execInstruction, decodeInstruction.
  destruct (state.stack s) as [|instr rest].
  - split; [done|]. intros s' [= <-]. apply Hpop.
  - destruct (0 <? instr / 100); [|by apply Hop].
    destruct (grid16_read _ _ _ Hg Hx Hy) as [n Hn].
    cbn [state.popped state.board state.x state.y]. rewrite Hn.
    destruct (Js.strict_ne _ _); [|by apply Hop].
    split; [done|]. intros s' [= <-]. apply Hpop.
Qed.

Lemma run_wellPlaced (pf : list (list Z)) (maxSteps : Z) (fuel : nat) (s : state.t) :
  wellPlaced s -> forall s', Solver.run pf maxSteps fuel s <> Threw s'.
Proof.
  revert s. induction fuel as [|fuel IH]; intros s Hw s'; [done|].
  cbn [Solver.run]. rewrite iteration_spec_order.
  destruct (specTermination maxSteps s); [done|].
  destruct (execInstruction_wellPlaced false pf s Hw) as [Hno Hnext].
  destruct (execInstruction false pf s) as [s1|r s1|s1] eqn:He; [|done|].
  - apply IH. by apply Hnext.
  - by destruct (Hno s1).
Qed.

Lemma initialState_wellPlaced (lvl : level.t) (pf : list (list Z)) :
  wellFormedLevel lvl -> wellPlaced (initialState lvl pf).
Proof.
  intros (Hlen & Hrows & Hx & Hy & Hd).
  split; [by apply grid16_spread|]. cbn. lia.
Qed.

(* ===================================================================== *)
(** ** What a run returns *)
(* ===================================================================== *)

Lemma forward_returns (s s' : state.t) (r : RunResult) :
  forward s = Return r s' -> r = Unsolved.
Proof.
  unfold forward.
  repeat match goal with
         | |- context [match ?e with _ => _ end] => destruct e
         end; intros H; inversion H; reflexivity.
Qed.

Lemma execInstruction_returns b pf (s s' : state.t) (r : RunResult) :
  execInstruction b pf s = Return r s' -> r = Unsolved.
Proof.
  unfold execInstruction, execOpcode, paint.
  destruct (state.stack s) as [|instr rest]; [discriminate|].
  cbn -[Z.div Z.rem].
  repeat match goal with
         | |- context [if ?e then _ else _] => destruct e
         | |- context [match ?e with _ => _ end] => destruct e
         end;
    try discriminate; apply forward_returns.
Qed.

Lemma run_returned (pf : list (list Z)) (maxSteps : Z) (fuel : nat)
    (s : state.t) (r : RunResult) (s' : state.t) :
  Solver.run pf maxSteps fuel s = Done r s' ->
  exists o, specRun pf maxSteps fuel s = Some o /\ r = returned o.
Proof.
  revert s. induction fuel as [|fuel IH]; intros s; cbn [Solver.run specRun];
    [discriminate|].
  rewrite iteration_spec_order.
  destruct (specTermination maxSteps s) as [o|].
  - intros [= <- <-]. by exists o.
  - destruct (execInstruction false pf s) as [s1|r1 s1|s1] eqn:He.
    + apply IH.
    + intros [= <- <-]. eexists. split; [reflexivity|].
      by apply execInstruction_returns in He.
    + discriminate.
Qed.

(** C8, as the code has it.  A run of [Solver.executeProgram] always ends
    (the fuel of the model is never used up) and, on a level with a 16 x 16
    board and the robot on it, returns a value (no exception escapes).  What
    it returns is [{ solved: true, steps }] when the outcome is Solved and
    the one value [{ solved: false }] when the outcome is Died, Exhausted or
    StepLimitReached: the value separates success from failure and carries
    the step count of a success, and nothing else. *)
Theorem run_returns_solved_or_not (lvl : level.t) (pf : list (list Z))
    (maxSteps : Z) :
  (forall s, Solver.executeProgram lvl pf maxSteps <> OutOfFuel s) /\
  (wellFormedLevel lvl ->
   exists r s, Solver.executeProgram lvl pf maxSteps = Done r s) /\
  (forall r s,
     Solver.executeProgram lvl pf maxSteps = Done r s ->
     exists o,
       specOutcome lvl pf maxSteps = Some o /\
       r = returned o /\
       (r = Unsolved \/ exists steps, r = Solved steps /\ o = OutcomeSolved steps)).
Proof.
  split; [apply SolverFacts.executeProgram_total|]. split.
  - intros Hwf.
    pose proof (SolverFacts.executeProgram_total lvl pf maxSteps) as Htotal.
    pose proof (run_wellPlaced pf maxSteps (Solver.fuelFor maxSteps) _
                  (initialState_wellPlaced lvl pf Hwf)) as Hno.
    fold (Solver.executeProgram lvl pf maxSteps) in Hno.
    destruct (Solver.executeProgram lvl pf maxSteps) as [r s|s|s];
      [by exists r, s|by destruct (Hno s)|by destruct (Htotal s)].
  - intros r s Hrun. apply run_returned in Hrun as (o & Ho & ->).
    exists o. split; [exact Ho|]. split; [reflexivity|].
    destruct o; cbn; eauto.
Qed.

Lemma run_returns_solved_or_not_witness :
  (exists r s,
     Solver.executeProgram zigzagLevel [[INST.TL; INST.FW]] Solver.defaultMaxSteps
     = Done r s) /\
  exists o,
    specOutcome zigzagLevel [[INST.TL; INST.FW]] Solver.defaultMaxSteps = Some o /\
    Unsolved = returned o.
Proof.
  destruct (run_returns_solved_or_not zigzagLevel [[INST.TL; INST.FW]]
              Solver.defaultMaxSteps) as (_ & Hret & Hres).
  split.
  - apply Hret. unfold wellFormedLevel, zigzagLevel; cbn.
    repeat split; try lia. repeat constructor.
  - destruct (Hres Unsolved
                (state.mk 0 0 1 1 (map Js.spread (level.board zigzagLevel)) [] 2))
      as (o & Ho & Hr & _); [by vm_compute|].
    exists o. split; [exact Ho | exact Hr].
Defined.

(** C8, as stated, does not hold: on [zigzagLevel] the empty program runs
    out of instructions (Exhausted) and the program [TL; FW] walks off the
    grid (Died), and both runs return the same [{ solved: false }]. *)
Lemma failures_look_alike : ~ resultTellsOutcome.
Proof.
  intros [tell Htell].
  assert (tell Unsolved = OutcomeExhausted) as H1.
  { eapply (Htell zigzagLevel [[]] Solver.defaultMaxSteps); by vm_compute. }
  assert (tell Unsolved = OutcomeDied 2) as H2.
  { eapply (Htell zigzagLevel [[INST.TL; INST.FW]] Solver.defaultMaxSteps);
      by vm_compute. }
  congruence.
Qed.


(* ===================================================================== *)
(** * Further properties of the encoding, the solvers and the engine *)
(* ===================================================================== *)

(* ===================================================================== *)
(** ** Instruction encoding and names *)
(* ===================================================================== *)

Lemma decode_round_trip_aux :
  (forall cond op, 0 <= cond -> 0 <= op < 100 ->
     decodeInstruction (cond * 100 + op) = (cond, op)) /\
  (forall instr,
     fst (decodeInstruction instr) * 100 + snd (decodeInstruction instr) = instr
     <-> 0 <= instr \/ Z.rem instr 100 = 0).
Proof.
  split.
  - intros cond op Hc Ho. unfold decodeInstruction. f_equal.
    + rewrite Z.div_add_l by lia. rewrite Z.div_small by lia. lia.
    + rewrite Z.rem_mod_nonneg by lia.
      rewrite Z.add_comm, Z.mod_add by lia. apply Z.mod_small. lia.
  - intros instr. unfold decodeInstruction. cbn [fst snd].
    pose proof (Z.div_mod instr 100 ltac:(lia)) as Hdm.
    pose proof (Z.mod_pos_bound instr 100 ltac:(lia)) as Hmb.
    destruct (Z.leb_spec 0 instr) as [Hnn|Hneg].
    + rewrite Z.rem_mod_nonneg by lia. split; [auto|lia].
    + pose proof (Z.rem_opp_l' instr 100) as Hopp.
      pose proof (Z.rem_mod_nonneg (- instr) 100 ltac:(lia) ltac:(lia)) as Hrm.
      destruct (Z.eq_dec (instr mod 100) 0) as [Hz|Hnz].
      * assert (Z.rem instr 100 = 0) as ->.
        { apply Z.rem_divide; [lia|]. apply Z.mod_divide; [lia|done]. }
        split; [auto|lia].
      * assert (Z.rem instr 100 = instr mod 100 - 100) as Hr.
        { pose proof (Z.mod_opp_l_nz instr 100 ltac:(lia) Hnz). lia. }
        rewrite Hr. split; [lia|]. intros [?|?]; lia.
Qed.


(** X1. Decoding inverts [cond * 100 + opcode] for a condition that is not
    negative and an opcode below 100; and the two parts of a decoded
    instruction give the instruction back exactly when it is not negative
    or is a multiple of 100 (the quotient is floored, the remainder
    truncated). *)
Theorem decode_round_trip :
  (forall cond op, 0 <= cond -> 0 <= op < 100 ->
     decodeInstruction (cond * 100 + op) = (cond, op)) /\
  (forall instr,
     fst (decodeInstruction instr) * 100 + snd (decodeInstruction instr) = instr
     <-> 0 <= instr \/ Z.rem instr 100 = 0).
Proof. exact decode_round_trip_aux. Qed.

Lemma decode_round_trip_witness :
  decodeInstruction (2 * 100 + 7) = (2, 7).
Proof. apply (proj1 decode_round_trip); lia. Defined.

(** X2. [instructionToString] gives back the names an instruction was
    built from: the opcode's name for an opcode without condition, and the
    condition's name, a plus sign and the opcode's name for
    [COND[c] * 100 + INST[n]]; and two different instructions a level can
    offer are never shown as the same text. *)
Theorem instructionToString_names :
  (forall n op, INST_of n = Some op -> instructionToString op = nameText n) /\
  (forall c k n op, COND_of c = Some k -> INST_of n = Some op ->
     instructionToString (k * 100 + op) = nameText c +:+ "+" +:+ nameText n) /\
  (forall i j, encodable i -> encodable j ->
     instructionToString i = instructionToString j -> i = j).
Proof.
  split; [|split].
  - intros n op H. destruct n; inversion H; reflexivity.
  - intros c k n op Hc Hn.
    destruct c; inversion Hc; destruct n; inversion Hn; reflexivity.
  - set (valid := flat_map (fun c => map (fun o => c * 100 + o)
                                        [0; 1; 2; 3; 4; 5; 6; 7; 8; 9])
                            [0; 1; 2; 3]).
    assert (forall i, encodable i -> In i valid) as Hin.
    { intros i (c & o & Hc & Ho & ->). apply in_flat_map. exists c.
      split; [cbn; lia|]. apply in_map_iff. exists o. split; [done|cbn; lia]. }
    assert (forallb (fun i => forallb (fun j =>
              implb (String.eqb (instructionToString i) (instructionToString j))
                    (i =? j)) valid) valid = true) as Hall by (by vm_compute).
    intros i j Hi Hj Heq.
    rewrite forallb_forall in Hall. specialize (Hall i (Hin i Hi)).
    rewrite forallb_forall in Hall. specialize (Hall j (Hin j Hj)).
    rewrite Heq, String.eqb_refl in Hall. cbn in Hall. lia.
Qed.

Lemma instructionToString_names_witness :
  instructionToString (2 * 100 + 7) = "C2+F0".
Proof. apply (proj1 (proj2 instructionToString_names) C2 2 F0 7); reflexivity. Defined.

(* ===================================================================== *)
(** ** The instruction lists of the three solvers *)
(* ===================================================================== *)

Lemma INST_of_range (n : Name) (op : Z) : INST_of n = Some op -> 0 <= op <= 9.
Proof. destruct n; inversion 1; cbv; split; discriminate. Qed.

Lemma COND_of_range (c : Name) (k : Z) : COND_of c = Some k -> 1 <= k <= 3.
Proof. destruct c; inversion 1; lia. Qed.

Lemma COND_INST_disjoint (n : Name) (k : Z) :
  COND_of n = Some k -> INST_of n = None.
Proof. destruct n; inversion 1; reflexivity. Qed.

Lemma elem_of_opcodes (names : list Name) (op : Z) :
  op ∈ omap INST_of names <-> exists n, n ∈ names /\ INST_of n = Some op.
Proof. apply list_elem_of_omap. Qed.

Lemma elem_of_all (names : list Name) (i : Z) :
  i ∈ Solver.all (Solver.buildInstructionSet names) <->
  exists n op cond,
    n ∈ names /\ INST_of n = Some op /\
    (cond = 0 \/ exists c, c ∈ names /\ COND_of c = Some cond) /\
    i = cond * 100 + op.
Proof.
  unfold Solver.buildInstructionSet. cbn [Solver.all].
  rewrite elem_of_app, elem_of_opcodes. split.
  - intros [(n & Hn & Hop) | Hc].
    + exists n, i, 0. repeat split; auto.
    + apply list_elem_of_In, in_flat_map in Hc as (k & Hk & Hi).
      apply list_elem_of_In, list_elem_of_omap in Hk as (c & Hc & Hck).
      apply in_map_iff in Hi as (op & <- & Hop).
      apply list_elem_of_In, elem_of_opcodes in Hop as (n & Hn & Hop).
      exists n, op, k. repeat split; eauto.
  - intros (n & op & cond & Hn & Hop & [-> | (c & Hc & Hck)] & ->).
    + left. exists n. split; [done|]. by rewrite Z.mul_0_l, Z.add_0_l.
    + right. apply list_elem_of_In, in_flat_map. exists cond. split.
      * apply list_elem_of_In, list_elem_of_omap. eauto.
      * apply in_map_iff. exists op. split; [done|].
        apply list_elem_of_In, elem_of_opcodes. eauto.
Qed.

(** X3. The instruction set [Solver.buildInstructionSet] builds holds
    exactly the codes [cond * 100 + op] of an active opcode [op] under no
    condition ([cond = 0]) or under an active condition; each of them
    decodes to that condition and opcode, with the condition in 0..3 and
    the opcode in 0..9. *)
Theorem buildInstructionSet_spec (names : list Name) (i : Z) :
  (i ∈ Solver.all (Solver.buildInstructionSet names) <->
   exists n op cond,
     n ∈ names /\ INST_of n = Some op /\
     (cond = 0 \/ exists c, c ∈ names /\ COND_of c = Some cond) /\
     i = cond * 100 + op) /\
  (i ∈ Solver.all (Solver.buildInstructionSet names) ->
   encodable i /\
   i = fst (decodeInstruction i) * 100 + snd (decodeInstruction i)).
Proof.
  split; [apply elem_of_all|].
  intros (n & op & cond & Hn & Hop & Hcond & ->)%elem_of_all.
  apply INST_of_range in Hop.
  assert (0 <= cond <= 3) as Hc.
  { destruct Hcond as [-> | (c & _ & Hck)]; [lia|].
    apply COND_of_range in Hck. lia. }
  split; [by exists cond, op|].
  rewrite (proj1 decode_round_trip_aux cond op) by lia. reflexivity.
Qed.

Lemma buildInstructionSet_spec_witness :
  encodable 207 /\ 207 = fst (decodeInstruction 207) * 100 + snd (decodeInstruction 207).
Proof.
  apply (proj2 (buildInstructionSet_spec [FW; F0; C2] 207)).
  vm_compute. repeat constructor.
Defined.

Lemma elem_of_dedupe (l : list Z) (i : Z) :
  i ∈ ConstraintSolver.dedupe l <-> i ∈ l.
Proof.
  induction l as [|j l IH]; [done|]. cbn [ConstraintSolver.dedupe].
  rewrite !elem_of_cons, list_elem_of_filter, IH.
  destruct (decide (i = j)); tauto.
Qed.

Lemma NoDup_dedupe (l : list Z) : NoDup (ConstraintSolver.dedupe l).
Proof.
  induction l as [|j l IH]; [constructor|]. cbn [ConstraintSolver.dedupe].
  constructor; [|by apply NoDup_filter].
  rewrite list_elem_of_filter. by intros [? _].
Qed.

Lemma elem_of_buildInstructions (names : list Name) (i : Z) :
  i ∈ ConstraintSolver.buildInstructions names <->
  i ∈ Solver.all (Solver.buildInstructionSet names).
Proof.
  unfold ConstraintSolver.buildInstructions.
  rewrite elem_of_dedupe, elem_of_all, list_elem_of_In, in_flat_map. split.
  - intros (name & Hname%list_elem_of_In & Hi).
    destruct (INST_of name) as [op|] eqn:Hop.
    + apply list_elem_of_In, list_elem_of_singleton in Hi as ->.
      exists name, op, 0. repeat split; auto.
    + destruct (COND_of name) as [k|] eqn:Hk; [|by destruct Hi].
      apply in_map_iff in Hi as (op & <- & (n & Hn & Hnop)%list_elem_of_In%elem_of_opcodes).
      exists n, op, k. repeat split; eauto.
  - intros (n & op & cond & Hn & Hop & [-> | (c & Hc & Hck)] & ->).
    + exists n. split; [by apply list_elem_of_In|]. rewrite Hop.
      rewrite Z.mul_0_l, Z.add_0_l. by left.
    + exists c. split; [by apply list_elem_of_In|].
      rewrite (COND_INST_disjoint _ _ Hck), Hck.
      apply in_map_iff. exists op. split; [done|].
      apply list_elem_of_In, elem_of_opcodes. eauto.
Qed.

(** X4. [ConstraintSolver.buildInstructions] returns a list
    without duplicates that holds the same instructions as the set
    [Solver.buildInstructionSet] builds from the same names: the two
    solvers search over one alphabet. *)
Theorem buildInstructions_same_alphabet (names : list Name) :
  NoDup (ConstraintSolver.buildInstructions names) /\
  (forall i, i ∈ ConstraintSolver.buildInstructions names <->
             i ∈ Solver.all (Solver.buildInstructionSet names)).
Proof.
  split; [apply NoDup_dedupe | apply elem_of_buildInstructions].
Qed.

(** X5. [FinalSolver.buildInstructions] lists the opcodes
    before the conditional instructions where
    [ConstraintSolver.buildInstructions] lists them in the order of the
    names; the two results are permutations of each other, and the first
    keeps no instruction twice. *)
Theorem final_buildInstructions_permutation (names : list Name) :
  NoDup (FinalSolverSearch.buildInstructions names) /\
  FinalSolverSearch.buildInstructions names
  ≡ₚ ConstraintSolver.buildInstructions names.
Proof.
  split; [apply NoDup_dedupe|].
  apply NoDup_Permutation; try apply NoDup_dedupe.
  intros i. rewrite elem_of_buildInstructions.
  unfold FinalSolverSearch.buildInstructions.
  rewrite elem_of_dedupe. unfold Solver.buildInstructionSet. cbn [Solver.all].
  rewrite !elem_of_app, !list_elem_of_In, !in_flat_map.
  split; (intros [H|H]; [by left|right]).
  - destruct H as (c & Hc & Hi). destruct (COND_of c) as [k|] eqn:Hk; [|done].
    exists k. split; [|done].
    apply list_elem_of_In, list_elem_of_omap. exists c.
    split; [by apply list_elem_of_In|done].
  - destruct H as (k & (c & Hc & Hk)%list_elem_of_In%list_elem_of_omap & Hi).
    exists c. split; [by apply list_elem_of_In|]. by rewrite Hk.
Qed.

(* ===================================================================== *)
(** ** Program generation *)
(* ===================================================================== *)

Lemma elem_of_upTo (last : Z) (k : nat) : In k (upTo last) <-> Z.of_nat k <= last.
Proof. unfold upTo. rewrite in_seq. lia. Qed.

Lemma elem_of_sequences (instrList : list Z) (len : nat) (s : list Z) :
  In s (Solver.sequences instrList len) <->
  length s = len /\ Forall (fun i => i ∈ instrList) s.
Proof.
  revert s. induction len as [|len IH]; intros s; cbn [Solver.sequences].
  - split.
    + intros [<- | [] ]. by split.
    + intros [Hl _]. left. by destruct s.
  - rewrite in_flat_map. split.
    + intros (i & Hi & (t & <- & [Hl Ht]%IH)%in_map_iff). cbn. split; [lia|].
      constructor; [by apply list_elem_of_In|done].
    + intros [Hl Hs]. destruct s as [|i t]; [done|].
      inversion Hs; subst. exists i. split; [by apply list_elem_of_In|].
      apply in_map_iff. exists t. split; [done|]. apply IH. cbn in Hl. split; [lia|done].
Qed.

Lemma instrCount_cons (f : list Z) (p : list (list Z)) :
  instrCount (f :: p) = Z.of_nat (length f) + instrCount p.
Proof. unfold instrCount. cbn [concat]. rewrite length_app. lia. Qed.

Lemma instrCount_nonneg (p : list (list Z)) : 0 <= instrCount p.
Proof. unfold instrCount. lia. Qed.

Lemma elem_of_genFunc (maxTotal : Z) (instrList functionLengths : list Z)
    (totalUsed : Z) (p : list (list Z)) :
  totalUsed <= maxTotal ->
  In p (Solver.genFunc maxTotal instrList functionLengths totalUsed) <->
  Forall2 (fun f flen => Z.of_nat (length f) <= flen) p functionLengths /\
  Forall (Forall (fun i => i ∈ instrList)) p /\
  0 < totalUsed + instrCount p <= maxTotal.
Proof.
  revert totalUsed p.
  induction functionLengths as [|flen later IH]; intros totalUsed p Hused;
    cbn [Solver.genFunc].
  - destruct (Z.ltb_spec 0 totalUsed) as [Hpos|Hnpos].
    + split.
      * intros [<- | [] ]. unfold instrCount. cbn [concat length].
        split; [by constructor|]. split; [by constructor|lia].
      * intros (H2 & _ & _). inversion H2. by left.
    + split; [intros [] |].
      intros (H2 & _ & Hc). inversion H2; subst.
      unfold instrCount in Hc. cbn in Hc. lia.
  - rewrite in_flat_map. split.
    + intros (len & Hlen%elem_of_upTo & Hp).
      apply in_flat_map in Hp as (s & [Hl Hs]%elem_of_sequences & Hp).
      apply in_map_iff in Hp as (rest & <- & Hrest).
      apply IH in Hrest as (H2 & Hall & Hc); [|lia].
      rewrite instrCount_cons. subst len.
      repeat split; [constructor; [lia|done] | constructor; done | lia | lia].
    + intros (H2 & Hall & Hc). inversion H2 as [|f flen' rest later' Hf Hrest]; subst.
      inversion Hall; subst. rewrite instrCount_cons in Hc.
      pose proof (instrCount_nonneg rest).
      exists (length f). split; [apply elem_of_upTo; lia|].
      apply in_flat_map. exists f. split; [by apply elem_of_sequences|].
      apply in_map_iff. exists rest. split; [done|].
      apply IH; [lia|]. repeat split; [done|done|lia|lia].
Qed.

Lemma genFunc_negative (maxTotal : Z) (instrList functionLengths : list Z) :
  maxTotal < 0 -> Solver.genFunc maxTotal instrList functionLengths 0 = [].
Proof.
  intros Hneg. destruct functionLengths as [|flen later]; [done|].
  cbn [Solver.genFunc]. unfold upTo.
  replace (Z.to_nat (Z.min flen (maxTotal - 0) + 1)) with 0%nat by lia. done.
Qed.

Lemma elem_of_generate (instrList functionLengths : list Z) (maxTotal : Z)
    (p : list (list Z)) :
  In p (Solver.genFunc maxTotal instrList functionLengths 0) <->
  Forall2 (fun f flen => Z.of_nat (length f) <= flen) p functionLengths /\
  Forall (Forall (fun i => i ∈ instrList)) p /\
  1 <= instrCount p <= maxTotal.
Proof.
  destruct (Z.ltb_spec maxTotal 0) as [Hneg|Hnn].
  - rewrite genFunc_negative by done. split; [intros [] |].
    intros (_ & _ & ?). lia.
  - rewrite elem_of_genFunc by done. rewrite Z.add_0_l.
    split; intros (? & ? & ?); repeat split; done || lia.
Qed.

Lemma generatePrograms_fits (instructionSet : Solver.InstructionSet)
    (functionLengths : list Z) (maxTotalInstructions : Z)
    (unconditionalOnly : bool) (p : list (list Z)) :
  p ∈ Solver.generatePrograms instructionSet functionLengths
        maxTotalInstructions unconditionalOnly ->
  Forall2 (fun f flen => Z.of_nat (length f) <= flen) p functionLengths /\
  Forall (Forall (fun i =>
            i ∈ if unconditionalOnly
                then Solver.unconditional instructionSet
                else Solver.unconditional instructionSet ++
                     Solver.conditional instructionSet)) p /\
  1 <= instrCount p <= maxTotalInstructions.
Proof.
  unfold Solver.generatePrograms. rewrite list_elem_of_In.
  apply elem_of_generate.
Qed.

(** X6. [generatePrograms(set, functionLengths, max, flag)]
    yields exactly the programs that have one function per slot, no
    function longer than its slot, only instructions of the set (only the
    unconditional ones when the flag is set), and at least one and at most
    [max] instructions in total: the empty program is never generated, and
    nothing within the bounds is left out. *)
Theorem generatePrograms_spec (instructionSet : Solver.InstructionSet)
    (functionLengths : list Z) (maxTotalInstructions : Z)
    (unconditionalOnly : bool) (p : list (list Z)) :
  p ∈ Solver.generatePrograms instructionSet functionLengths
        maxTotalInstructions unconditionalOnly
  <->
  Forall2 (fun f flen => Z.of_nat (length f) <= flen) p functionLengths /\
  Forall (Forall (fun i =>
            i ∈ if unconditionalOnly
                then Solver.unconditional instructionSet
                else Solver.unconditional instructionSet ++
                     Solver.conditional instructionSet)) p /\
  1 <= instrCount p <= maxTotalInstructions.
Proof.
  unfold Solver.generatePrograms. rewrite list_elem_of_In.
  apply elem_of_generate.
Qed.

(** X7. The programs generated for one bound on the number of
    instructions are generated again for every larger bound, so a search
    that raises the bound step by step meets each of them again. *)
Theorem generatePrograms_monotone (instructionSet : Solver.InstructionSet)
    (functionLengths : list Z) (depth depth' : Z) (unconditionalOnly : bool)
    (p : list (list Z)) :
  depth <= depth' ->
  p ∈ Solver.generatePrograms instructionSet functionLengths depth
        unconditionalOnly ->
  p ∈ Solver.generatePrograms instructionSet functionLengths depth'
        unconditionalOnly.
Proof.
  unfold Solver.generatePrograms. rewrite !list_elem_of_In, !elem_of_generate.
  intros Hle (? & ? & ?). repeat split; done || lia.
Qed.

Lemma generatePrograms_monotone_witness :
  [[1; 7]] ∈ Solver.generatePrograms (Solver.mkSet [1; 7] [] [1; 7]) [3] 3 false.
Proof.
  apply (generatePrograms_monotone _ _ 2 3); [lia|].
  apply list_elem_of_In. vm_compute. tauto.
Defined.


(* ===================================================================== *)
(** ** [Solver.solve] *)
(* ===================================================================== *)

Module SolveFacts.
Import Solver.

Lemma sound_app levelData (space1 space2 : list (list (list Z))) (tested : Z)
    (r1 r : SolveResult (list (list Z))) (next : Z -> SolveResult (list (list Z))) :
  r = match r1 with
      | Found p steps tested' => Found p steps tested'
      | NotFound tested' => next tested'
      | SolveThrew => SolveThrew
      end ->
  sound levelData space1 tested r1 ->
  (forall tested', sound levelData space2 tested' (next tested')) ->
  sound levelData (space1 ++ space2) tested r.
Proof.
  intros -> H1 H2. destruct r1 as [p steps t'|t'|]; cbn in *.
  - destruct H1 as (earlier & later & -> & Hun & Hs & Ht).
    exists earlier, (later ++ space2). rewrite <- app_assoc. by repeat split.
  - destruct H1 as [Hun1 ->].
    specialize (H2 (tested + Z.of_nat (length space1))).
    destruct (next _) as [p steps t'|t'|]; cbn in *; [| |done].
    + destruct H2 as (earlier & later & -> & Hun & Hs & Ht).
      exists (space1 ++ earlier), later. rewrite <- app_assoc.
      split; [done|]. split; [by apply Forall_app|]. split; [done|].
      rewrite length_app. lia.
    + destruct H2 as [Hun2 ->]. split; [by apply Forall_app|].
      rewrite length_app. lia.
  - done.
Qed.

Lemma testPrograms_sound levelData (programs : list (list (list Z))) (tested : Z) :
  sound levelData programs tested (testPrograms levelData programs tested).
Proof.
  revert tested. induction programs as [|p later IH]; intros tested.
  - cbn. split; [constructor|lia].
  - cbn [testPrograms].
    destruct (executeProgram levelData p defaultMaxSteps) as [r s|s|s] eqn:He;
      [|done..].
    assert (r <> Solved (match r with Solved n => n | _ => 0 end) ->
            ~ solvedBy levelData p) as Hno.
    { intros Hr (n & s' & Hp). unfold defaultMaxSteps in *.
      rewrite He in Hp. injection Hp as -> _. by apply Hr. }
    destruct r as [steps| |].
    + cbn. exists [], later. split; [done|]. split; [by constructor|].
      split; [by exists s|]. cbn [length]. lia.
    + specialize (IH (tested + 1)).
      destruct (testPrograms levelData later (tested + 1)); cbn in *.
      * destruct IH as (earlier & later' & -> & Hun & Hs & ->).
        exists (p :: earlier), later'. split; [done|].
        split; [constructor; [by apply Hno|done]|]. split; [done|].
        cbn [length]. lia.
      * destruct IH as [Hun ->]. split; [constructor; [by apply Hno|done]|].
        cbn [length]. lia.
      * done.
    + specialize (IH (tested + 1)).
      destruct (testPrograms levelData later (tested + 1)); cbn in *.
      * destruct IH as (earlier & later' & -> & Hun & Hs & ->).
        exists (p :: earlier), later'. split; [done|].
        split; [constructor; [by apply Hno|done]|]. split; [done|].
        cbn [length]. lia.
      * destruct IH as [Hun ->]. split; [constructor; [by apply Hno|done]|].
        cbn [length]. lia.
      * done.
Qed.

Lemma testDepths_sound levelData subset functionLengths (depths : list Z) (tested : Z) :
  sound levelData
    (flat_map (fun depth =>
                 take maxPerDepth
                   (generatePrograms (mkSet subset [] subset) functionLengths
                      depth false)) depths)
    tested (testDepths levelData subset functionLengths depths tested).
Proof.
  revert tested. induction depths as [|depth deeper IH]; intros tested.
  - cbn. split; [constructor|lia].
  - cbn [testDepths flat_map].
    eapply (sound_app levelData _ _ tested _ _
              (fun t => testDepths levelData subset functionLengths deeper t)).
    + reflexivity.
    + apply testPrograms_sound.
    + apply IH.
Qed.

Lemma testSubsets_sound levelData functionLengths (subsets : list (list Z)) (tested : Z) :
  sound levelData
    (flat_map (fun subset =>
       flat_map (fun depth =>
                   take maxPerDepth
                     (generatePrograms (mkSet subset [] subset) functionLengths
                        depth false))
                (depthsTo (Z.min (sumLengths functionLengths) 8))) subsets)
    tested (testSubsets levelData functionLengths subsets tested).
Proof.
  revert tested. induction subsets as [|subset others IH]; intros tested.
  - cbn. split; [constructor|lia].
  - cbn [testSubsets flat_map].
    eapply (sound_app levelData _ _ tested _ _
              (fun t => testSubsets levelData functionLengths others t)).
    + reflexivity.
    + apply testDepths_sound.
    + apply IH.
Qed.

Lemma testSizes_sound drawn levelData functionLengths allInstr (sizes : list Z)
    (tested : Z) :
  sound levelData
    (flat_map (fun subsetSize =>
       flat_map (fun subset =>
         flat_map (fun depth =>
                     take maxPerDepth
                       (generatePrograms (mkSet subset [] subset) functionLengths
                          depth false))
                  (depthsTo (Z.min (sumLengths functionLengths) 8)))
         (generateInstructionSubsets drawn allInstr subsetSize)) sizes)
    tested (testSizes drawn levelData functionLengths allInstr sizes tested).
Proof.
  revert tested. induction sizes as [|size larger IH]; intros tested.
  - cbn. split; [constructor|lia].
  - cbn [testSizes flat_map].
    eapply (sound_app levelData _ _ tested _ _
              (fun t => testSizes drawn levelData functionLengths allInstr larger t)).
    + reflexivity.
    + apply testSubsets_sound.
    + apply IH.
Qed.

Lemma solve_searches drawn levelData :
  availableInstructionsOf levelData <> [] ->
  sound levelData (searchSpace drawn levelData) 0 (solve drawn levelData).
Proof.
  intros Hne. unfold solve, searchSpace.
  destruct (availableInstructionsOf levelData) as [|n names] eqn:Hn; [done|].
  cbn [length Nat.eqb]. apply testSizes_sound.
Qed.

Lemma elem_of_depthsTo (maxDepth depth : Z) :
  In depth (depthsTo maxDepth) <-> 1 <= depth <= maxDepth.
Proof.
  unfold depthsTo. rewrite in_map_iff. split.
  - intros (d & <- & Hd%in_seq). lia.
  - intros Hd. exists (Z.to_nat depth). split; [lia|]. apply in_seq. lia.
Qed.

Lemma searchSpace_fits drawn levelData (p : list (list Z)) :
  p ∈ searchSpace drawn levelData ->
  Forall2 (fun f flen => Z.of_nat (length f) <= flen) p
    (functionLengthsOf levelData) /\
  1 <= instrCount p <= Z.min (sumLengths (functionLengthsOf levelData)) 8.
Proof.
  unfold searchSpace. rewrite list_elem_of_In, in_flat_map.
  intros (size & _ & (subset & _ & (depth & Hd & Hp)%in_flat_map)%in_flat_map).
  apply elem_of_depthsTo in Hd.
  apply list_elem_of_In, subseteq_take, generatePrograms_fits in Hp.
  destruct Hp as (H2 & _ & Hc). split; [done|lia].
Qed.

End SolveFacts.

Lemma solve_sound_aux (drawn : Z -> list (list Z)) (levelData : level.t)
    (program : list (list Z)) (steps tested : Z) :
  Solver.solve drawn levelData = Found program steps tested ->
  exists s, Solver.executeProgram levelData program Solver.defaultMaxSteps
            = Done (Solved steps) s.
Proof.
  intros Hsolve.
  destruct (availableInstructionsOf levelData) as [|n names] eqn:Hn.
  - unfold Solver.solve in Hsolve. rewrite Hn in Hsolve. cbn [length Nat.eqb] in Hsolve.
    destruct (Solver.executeProgram _ _ _) as [r s|s|s] eqn:He; [|done..].
    destruct r; inversion Hsolve; subst. by exists s.
  - pose proof (SolveFacts.solve_searches drawn levelData) as Hs.
    rewrite Hn in Hs. specialize (Hs ltac:(done)).
    rewrite Hsolve in Hs. by destruct Hs as (_ & _ & _ & _ & Hrun & _).
Qed.

(** X8. A program [Solver.solve] returns was executed and found
    solved: [executeProgram] on it returns [{ solved: true, steps }] with
    the step count [solve] reports.  When the level offers instructions the
    program is the first solved one of the search space in the order of the
    search (subset sizes, subsets, depths, programs), [tested] counts the
    programs up to and including it, it fills no function beyond its slot
    and it holds between one and eight instructions. *)
Theorem solve_sound (drawn : Z -> list (list Z)) (levelData : level.t)
    (program : list (list Z)) (steps tested : Z) :
  Solver.solve drawn levelData = Found program steps tested ->
  (exists s, Solver.executeProgram levelData program Solver.defaultMaxSteps
             = Done (Solved steps) s) /\
  (availableInstructionsOf levelData <> [] ->
   (exists earlier later,
      Solver.searchSpace drawn levelData = earlier ++ program :: later /\
      Forall (fun q => ~ solvedBy levelData q) earlier /\
      tested = Z.of_nat (length earlier) + 1) /\
   Forall2 (fun f flen => Z.of_nat (length f) <= flen) program
     (functionLengthsOf levelData) /\
   1 <= instrCount program <= 8).
Proof.
  intros Hsolve. split; [by eapply solve_sound_aux|]. intros Hne.
  pose proof (SolveFacts.solve_searches drawn levelData Hne) as Hs.
  rewrite Hsolve in Hs. destruct Hs as (earlier & later & Hspace & Hun & _ & Ht).
  assert (program ∈ Solver.searchSpace drawn levelData) as Hp.
  { rewrite Hspace. apply elem_of_app. right. by left. }
  destruct (SolveFacts.searchSpace_fits _ _ _ Hp) as [Hfit Hc].
  split; [|split; [done|lia] ].
  exists earlier, later. split; [done|]. split; [done|lia].
Qed.

Lemma solve_sound_witness :
  exists s, Solver.executeProgram zigzagLevel [[1; 1; 1; 107]]
              Solver.defaultMaxSteps = Done (Solved 7) s.
Proof.
  exact (proj1 (solve_sound (fun _ => []) zigzagLevel _ _ _ (zigzag_solve _))).
Defined.

(** X9. When [Solver.solve] returns [{ solved: false, tested }]
    on a level that offers instructions, it has executed every program of
    its search space, none of them is solved, and [tested] is the number of
    programs of the search space. *)
Theorem solve_exhausts_search_space (drawn : Z -> list (list Z))
    (levelData : level.t) (tested : Z) :
  availableInstructionsOf levelData <> [] ->
  Solver.solve drawn levelData = NotFound tested ->
  Forall (fun q => ~ solvedBy levelData q) (Solver.searchSpace drawn levelData) /\
  tested = Z.of_nat (length (Solver.searchSpace drawn levelData)).
Proof.
  intros Hne Hsolve.
  pose proof (SolveFacts.solve_searches drawn levelData Hne) as Hs.
  rewrite Hsolve in Hs. destruct Hs as [Hun ->]. split; [done|lia].
Qed.

Lemma solve_exhausts_search_space_witness :
  let lvl := level.mk 0 0 2 1 [[1; 1; 5]] (Some [FW; TL; C1]) (Some [1]) in
  Forall (fun q => ~ solvedBy lvl q) (Solver.searchSpace (fun _ => []) lvl) /\
  10 = Z.of_nat (length (Solver.searchSpace (fun _ => []) lvl)).
Proof.
  intros lvl. apply solve_exhausts_search_space; [done|].
  by vm_compute.
Defined.

Lemma run_empty_stack (pf : list (list Z)) (maxSteps : Z) (fuel : nat)
    (s : state.t) :
  state.stack s = [] ->
  Solver.run pf maxSteps (S fuel) s = Done (Solver.afterLoop s) s.
Proof.
  intros Hs. cbn [Solver.run]. unfold Solver.iteration, Solver.loopCondition.
  rewrite Hs. cbn [length]. by rewrite andb_false_r.
Qed.

(** X10. On a level that offers no instruction [Solver.solve]
    executes one program, the empty one: it returns it, with 0 steps and
    [tested: 1], when the level starts with no star left, and
    [{ solved: false, tested: 1 }] otherwise. *)
Theorem solve_without_instructions (drawn : Z -> list (list Z))
    (levelData : level.t) :
  availableInstructionsOf levelData = [] ->
  Solver.solve drawn levelData =
  if level.stars levelData =? 0
  then Found (map (fun _ => []) (functionLengthsOf levelData)) 0 1
  else NotFound 1.
Proof.
  intros Hn. unfold Solver.solve. rewrite Hn. cbn [length Nat.eqb].
  unfold Solver.executeProgram, Solver.fuelFor.
  rewrite run_empty_stack.
  - unfold Solver.afterLoop, initialState. cbn [state.stars state.steps].
    by destruct (level.stars levelData =? 0).
  - unfold initialState. cbn [state.stack].
    by destruct (functionLengthsOf levelData).
Qed.

Lemma solve_without_instructions_witness :
  Solver.solve (fun _ => []) (level.mk 0 0 2 1 [] None None) = NotFound 1.
Proof.
  exact (solve_without_instructions (fun _ => [])
           (level.mk 0 0 2 1 [] None None) eq_refl).
Defined.

(** X11. [Solver.solve] looks only at instruction subsets of three
    or more instructions: on a level that offers instructions, but fewer
    than three once the conditions are combined with the opcodes, it
    executes no program at all and returns [{ solved: false, tested: 0 }],
    whatever the level looks like. *)
Theorem solve_with_few_instructions (drawn : Z -> list (list Z))
    (levelData : level.t) :
  availableInstructionsOf levelData <> [] ->
  (length (Solver.all
             (Solver.buildInstructionSet (availableInstructionsOf levelData)))
   < 3)%nat ->
  Solver.solve drawn levelData = NotFound 0.
Proof.
  intros Hne Hlen. unfold Solver.solve.
  destruct (availableInstructionsOf levelData) as [|n names] eqn:Hn; [done|].
  cbn [length Nat.eqb].
  unfold Solver.buildInstructionSet in *. cbn [Solver.all Solver.unconditional
    Solver.conditional] in *.
  unfold Solver.sizesTo.
  replace (Z.to_nat _) with 0%nat by lia. reflexivity.
Qed.

Lemma solve_with_few_instructions_witness :
  Solver.solve (fun _ => [])
    (level.mk 0 0 2 1 [[1; 5]] (Some [FW; F0]) (Some [2])) = NotFound 0.
Proof.
  apply solve_with_few_instructions; [done|vm_compute; lia].
Defined.

(* ===================================================================== *)
(** ** Runs of [Solver.executeProgram] *)
(* ===================================================================== *)

Lemma iteration_cap_mono (pf : list (list Z)) (maxSteps maxSteps' : Z)
    (s : state.t) :
  maxSteps <= maxSteps' ->
  match Solver.iteration pf maxSteps s with
  | Next s' => Solver.iteration pf maxSteps' s = Next s'
  | Return (Solved n) s' => Solver.iteration pf maxSteps' s = Return (Solved n) s'
  | _ => True
  end.
Proof.
  intros Hle. unfold Solver.iteration, Solver.loopCondition.
  destruct (state.steps s <? maxSteps) eqn:Hlt; cbn [andb].
  - apply Z.ltb_lt in Hlt.
    replace (state.steps s <? maxSteps') with true by (symmetry; apply Z.ltb_lt; lia).
    cbn [andb]. destruct (0 <? length (state.stack s))%nat.
    + by destruct (Solver.loopBody pf s) as [s'|[n| |] s'|s'].
    + unfold Solver.afterLoop. by destruct (state.stars s =? 0).
  - unfold Solver.afterLoop. destruct (state.stars s =? 0) eqn:Hst; [|done].
    destruct (_ && _); [|done]. unfold Solver.loopBody. by rewrite Hst.
Qed.

Lemma run_cap_mono (pf : list (list Z)) (maxSteps maxSteps' : Z) (fuel : nat)
    (s : state.t) (n : Z) (s' : state.t) :
  maxSteps <= maxSteps' ->
  Solver.run pf maxSteps fuel s = Done (Solved n) s' ->
  Solver.run pf maxSteps' fuel s = Done (Solved n) s'.
Proof.
  intros Hle. revert s. induction fuel as [|fuel IH]; intros s; [done|].
  cbn [Solver.run].
  pose proof (iteration_cap_mono pf maxSteps maxSteps' s Hle) as Hi.
  destruct (Solver.iteration pf maxSteps s) as [s1|[k| |] s1|s1]; try done.
  - rewrite Hi. apply IH.
  - by rewrite Hi.
Qed.

(** X12. Raising the step cap never loses a solution: a program
    that [executeProgram] reports solved under one cap is reported solved
    under every larger cap, with the same step count and the same final
    state. *)
Theorem executeProgram_cap_monotone (levelData : level.t)
    (pf : list (list Z)) (maxSteps maxSteps' : Z) (n : Z) (s : state.t) :
  maxSteps <= maxSteps' ->
  Solver.executeProgram levelData pf maxSteps = Done (Solved n) s ->
  Solver.executeProgram levelData pf maxSteps' = Done (Solved n) s.
Proof.
  intros Hle Hrun. unfold Solver.executeProgram in *.
  apply (SolverFacts.run_fuel_mono _ _ (Solver.fuelFor maxSteps)).
  - by apply (run_cap_mono pf maxSteps).
  - unfold Solver.fuelFor. lia.
Qed.

Lemma executeProgram_cap_monotone_witness :
  exists s, Solver.executeProgram zigzagLevel [[1; 1; 1; 107]] 10000
            = Done (Solved 7) s.
Proof.
  eexists. apply (executeProgram_cap_monotone _ _ 7 10000); [lia|].
  vm_compute. reflexivity.
Defined.

Lemma forward_stars (s s' : state.t) :
  forward s = Next s' ->
  state.stars s - 1 <= state.stars s' <= state.stars s.
Proof.
  unfold forward.
  repeat match goal with
         | |- context [match ?e with _ => _ end] => destruct e
         end; intros H; inversion H; cbn; lia.
Qed.

Lemma forward_return_state (s s' : state.t) (r : RunResult) :
  forward s = Return r s' -> s' = s.
Proof.
  unfold forward.
  repeat match goal with
         | |- context [match ?e with _ => _ end] => destruct e
         end; intros H; inversion H; reflexivity.
Qed.

Lemma execInstruction_stars b pf (s s' : state.t) :
  execInstruction b pf s = Next s' ->
  state.stars s - 1 <= state.stars s' <= state.stars s.
Proof.
  unfold execInstruction, execOpcode, paint, call.
  destruct (state.stack s) as [|instr rest].
  - intros H; inversion H; cbn; lia.
  - cbn -[Z.div Z.rem].
    repeat match goal with
           | |- context [if ?e then _ else _] => destruct e
           | |- context [match ?e with _ => _ end] => destruct e
           end;
      try (intros H; inversion H; cbn; lia);
      intros H; apply forward_stars in H; exact H.
Qed.

Lemma execInstruction_return_state b pf (s s' : state.t) (r : RunResult) :
  execInstruction b pf s = Return r s' ->
  exists rest, s' = state.popped rest s.
Proof.
  unfold execInstruction, execOpcode, paint.
  destruct (state.stack s) as [|instr rest]; [discriminate|].
  cbn -[Z.div Z.rem].
  repeat match goal with
         | |- context [if ?e then _ else _] => destruct e
         | |- context [match ?e with _ => _ end] => destruct e
         end;
    try discriminate; intros Hf; exists rest;
    by apply forward_return_state in Hf.
Qed.

Ltac final_state :=
  split; [assumption|]; split; [lia|]; split; [lia|];
  first [ left; split; [reflexivity|done] | right; split; [reflexivity|done] ].

Lemma run_final (pf : list (list Z)) (maxSteps : Z) (fuel : nat)
    (s : state.t) (r : RunResult) (s' : state.t) :
  wellPlaced s ->
  0 <= state.steps s <= Z.max 0 maxSteps ->
  Solver.run pf maxSteps fuel s = Done r s' ->
  wellPlaced s' /\
  state.steps s <= state.steps s' <= Z.max 0 maxSteps /\
  state.stars s' <= state.stars s /\
  (r = Solved (state.steps s') /\ state.stars s' = 0 \/
   r = Unsolved /\ state.stars s' <> 0).
Proof.
  revert s. induction fuel as [|fuel IH]; intros s Hw Hsteps; [done|].
  cbn [Solver.run]. unfold Solver.iteration, Solver.loopCondition.
  destruct (state.steps s <? maxSteps) eqn:Hlt; cbn [andb].
  2: { unfold Solver.afterLoop. intros [= <- <-].
       destruct (Z.eqb_spec (state.stars s) 0); final_state. }
  destruct (0 <? length (state.stack s))%nat.
  2: { unfold Solver.afterLoop. intros [= <- <-].
       destruct (Z.eqb_spec (state.stars s) 0); final_state. }
  apply Z.ltb_lt in Hlt. unfold Solver.loopBody.
  destruct (Z.eqb_spec (state.stars s) 0) as [Hz|Hnz].
  { intros [= <- <-]. final_state. }
  destruct (100 <? length (state.stack s))%nat.
  { intros [= <- <-]. final_state. }
  destruct (execInstruction_wellPlaced false pf s Hw) as [_ Hnext].
  destruct (execInstruction false pf s) as [s1|r1 s1|s1] eqn:He; [| |done].
  - intros Hrun.
    pose proof (execInstruction_steps _ _ _ _ He) as Hs1.
    pose proof (execInstruction_stars _ _ _ _ He) as Hst1.
    apply IH in Hrun as (Hw' & Hsteps' & Hstars' & Hr); [|by apply Hnext|lia].
    split; [exact Hw'|]. split; [lia|]. split; [lia|exact Hr].
  - intros [= <- <-].
    pose proof (execInstruction_returns _ _ _ _ _ He) as ->.
    apply execInstruction_return_state in He as [rest ->].
    cbn [state.popped state.steps state.stars].
    split; [exact Hw|]. split; [lia|]. split; [lia|]. right. by split.
Qed.

(** X13. On a level with a 16 x 16 board and the robot on it, the
    state a run of [executeProgram] ends in has the robot on the board
    facing one of the four directions and the board still 16 x 16; its step
    counter lies between 0 and the cap; its star counter is not above the
    level's; and the run is reported solved, with that step counter, exactly
    when that star counter is 0. *)
Theorem executeProgram_final_state (levelData : level.t)
    (pf : list (list Z)) (maxSteps : Z) (r : RunResult) (s : state.t) :
  wellFormedLevel levelData ->
  Solver.executeProgram levelData pf maxSteps = Done r s ->
  wellPlaced s /\
  0 <= state.steps s <= Z.max 0 maxSteps /\
  state.stars s <= level.stars levelData /\
  (r = Solved (state.steps s) /\ state.stars s = 0 \/
   r = Unsolved /\ state.stars s <> 0).
Proof.
  intros Hwf Hrun. unfold Solver.executeProgram in Hrun.
  apply run_final in Hrun as (Hw & Hsteps & Hstars & Hr).
  - cbn [initialState state.steps state.stars] in *.
    split; [exact Hw|]. split; [lia|]. split; [lia|exact Hr].
  - by apply initialState_wellPlaced.
  - cbn. lia.
Qed.

Lemma executeProgram_final_state_witness :
  let s := state.mk 0 0 1 1 (map Js.spread (level.board zigzagLevel)) [] 2 in
  wellPlaced s /\ 0 <= state.steps s <= Z.max 0 10000.
Proof.
  intros s.
  destruct (executeProgram_final_state zigzagLevel [[INST.TL; INST.FW]] 10000
              Unsolved s) as (Hw & Hsteps & _).
  - unfold wellFormedLevel, zigzagLevel; cbn.
    repeat split; try lia. repeat constructor.
  - by vm_compute.
  - split; [exact Hw | exact Hsteps].
Defined.

(* ===================================================================== *)
(** ** Painting *)
(* ===================================================================== *)

Lemma row_set_twice (r : Js.row) (x n n' : Z) :
  Js.row_set (Js.row_set r x n) x n' = Js.row_set r x n'.
Proof.
  unfold Js.row_set. cbn [Js.cells Js.len]. rewrite insert_insert_eq. f_equal.
  destruct (Z.leb_spec (Js.len r) x), (Z.ltb_spec x 4294967295); cbn [andb];
    repeat match goal with
           | |- context [?a <=? ?b] => destruct (Z.leb_spec a b)
           | |- context [?a <? ?b] => destruct (Z.ltb_spec a b)
           end; cbn [andb]; lia.
Qed.

Lemma write_cell_twice (b : list Js.row) (y x n n' : Z) :
  write_cell (write_cell b y x n) y x n' = write_cell b y x n'.
Proof.
  unfold write_cell. destruct (Js.index b y) as [r|] eqn:Hr.
  - pose proof Hr as [Hy Hr']%index_Some.
    assert (Js.index (<[Z.to_nat y := Js.row_set r x n]> b) y
            = Some (Js.row_set r x n)) as ->.
    { apply index_Some. split; [done|].
      apply list_lookup_insert_eq. by eapply lookup_lt_Some. }
    by rewrite list_insert_insert_eq, row_set_twice.
  - by rewrite Hr.
Qed.

(** X14. Painting the tile the robot stands on with a colour 1..3
    gives the tile that colour and keeps its star: afterwards the tile
    holds the colour, plus 4 when it held a star, every other tile is as
    before and nothing but the board has changed; a second paint overrides
    the first; and an instruction under a condition, executed next, runs
    its opcode exactly when the condition is the colour just painted. *)
Theorem paint_sets_colour (color : Z) (s : state.t) (v : Js.val) :
  1 <= color <= 3 ->
  read_cell (state.board s) (state.y s) (state.x s) = Some v ->
  exists s',
    paint color s = Next s' /\
    s' = state.with_board (state.board s') s /\
    read_cell (state.board s') (state.y s) (state.x s)
    = Some (Js.num (color + (if Js.gt v 3 then 4 else 0))) /\
    (forall y x, (y, x) <> (state.y s, state.x s) ->
       read_cell (state.board s') y x = read_cell (state.board s) y x) /\
    (forall color', paint color' s' = paint color' s) /\
    (forall b pf cond op rest,
       1 <= cond <= 3 -> 0 <= op < 100 ->
       execInstruction b pf (state.with_stack (cond * 100 + op :: rest) s')
       = if cond =? color
         then execOpcode b pf op (state.popped rest s')
         else Next (state.popped rest s')).
Proof.
  intros Hc Hv. unfold paint. rewrite Hv. eexists. split; [reflexivity|].
  set (n := color + (if Js.gt v 3 then 4 else 0)).
  assert (Z.rem n 4 = color) as Hrem.
  { subst n. destruct (Js.gt v 3).
    - rewrite Z.rem_mod_nonneg by lia.
      replace (color + 4) with (color + 1 * 4) by lia.
      rewrite Z.mod_add by lia. apply Z.mod_small. lia.
    - rewrite Z.add_0_r. apply Z.rem_small. lia. }
  assert ((3 <? n) = Js.gt v 3) as Hstar.
  { subst n. destruct (Js.gt v 3); [apply Z.ltb_lt|apply Z.ltb_ge]; lia. }
  cbn [state.with_board state.board state.x state.y].
  pose proof (read_write_same _ _ _ n _ Hv) as Hread.
  split; [reflexivity|]. split; [exact Hread|]. split; [|split].
  - intros y x Hne. by apply read_write_other.
  - intros color'. unfold state.with_board.
    cbn [state.board state.x state.y state.dir state.stars state.stack state.steps].
    rewrite Hread. cbn [Js.gt]. rewrite Hstar. by rewrite write_cell_twice.
  - intros b pf cond op rest Hcond Hop.
    unfold execInstruction, state.with_stack, state.popped, state.with_board.
    cbn [state.board state.x state.y state.dir state.stars state.stack state.steps].
    rewrite (proj1 decode_round_trip_aux cond op) by lia.
    replace (0 <? cond) with true by (symmetry; apply Z.ltb_lt; lia).
    rewrite Hread. cbn [Js.rem Js.strict_ne]. rewrite Hrem.
    rewrite (Z.eqb_sym color cond). by destruct (cond =? color).
Qed.

Lemma paint_sets_colour_witness :
  exists s', paint 2 (initialState zigzagLevel [[INST.P2]]) = Next s'.
Proof.
  destruct (paint_sets_colour 2 (initialState zigzagLevel [[INST.P2]]) (Js.num 3))
    as (s' & Hp & _); [lia|by vm_compute|].
  by exists s'.
Defined.

(* ===================================================================== *)
(** ** Loop detection against the plain executor *)
(* ===================================================================== *)

Lemma final_run_agrees (pf : list (list Z)) (maxSteps : Z) (fuel : nat)
    (s : state.t) (cache : gset string) (r : RunResult) (s' : state.t) :
  FinalSolver.run pf maxSteps fuel s cache = Done r s' ->
  r <> UnsolvedLoop ->
  ConstraintSolver.run pf maxSteps fuel s = Done r s'.
Proof.
  revert s cache. induction fuel as [|fuel IH]; intros s cache; [done|].
  cbn [FinalSolver.run ConstraintSolver.run].
  unfold FinalSolver.iteration, FinalSolver.loopCondition, FinalSolver.loopBody,
    FinalSolver.afterLoop, ConstraintSolver.iteration,
    ConstraintSolver.loopCondition, ConstraintSolver.loopBody,
    ConstraintSolver.afterLoop.
  destruct (state.steps s <? maxSteps); cbn [andb]; [|done].
  destruct (0 <? length (state.stack s))%nat; cbn [andb]; [|done].
  destruct (Nat.leb_spec (length (state.stack s)) 100) as [Hle|Hgt].
  - replace (100 <? length (state.stack s))%nat with false
      by (symmetry; apply Nat.ltb_ge; lia).
    destruct (state.stars s =? 0); [done|].
    destruct (bool_decide _); [by intros [= <- <-] |].
    destruct (execInstruction true pf s); [apply IH|done..].
  - replace (100 <? length (state.stack s))%nat with true
      by (symmetry; apply Nat.ltb_lt; lia).
    by destruct (state.stars s =? 0).
Qed.

Lemma final_run_enough_fuel (pf : list (list Z)) (maxSteps : Z) (fuel : nat)
    (s : state.t) (cache : gset string) :
  (Z.to_nat (maxSteps - state.steps s) < fuel)%nat ->
  forall s', FinalSolver.run pf maxSteps fuel s cache <> OutOfFuel s'.
Proof.
  revert s cache. induction fuel as [|fuel IH]; intros s cache Hf s'; [lia|].
  cbn [FinalSolver.run].
  unfold FinalSolver.iteration, FinalSolver.loopCondition, FinalSolver.loopBody.
  destruct (Z.ltb_spec (state.steps s) maxSteps); cbn [andb]; [|done].
  destruct (_ && _); [|done].
  destruct (state.stars s =? 0); [done|].
  destruct (bool_decide _); [done|].
  destruct (execInstruction true pf s) as [s1|r s1|s1] eqn:He; [|done..].
  apply execInstruction_steps in He. apply IH. lia.
Qed.

(** X15. Loop detection only ever rejects: a run of
    [executeWithLoopDetection] always ends, and unless it reports a
    detected loop it returns what [ConstraintSolver.executeProgram] and
    [Solver.executeProgram] return for the same level, program and step
    cap, with the same step count and in the same final state. *)
Theorem loop_detection_only_rejects (levelData : level.t)
    (pf : list (list Z)) (maxSteps : Z) :
  (forall s, FinalSolver.executeWithLoopDetection levelData pf maxSteps
             <> OutOfFuel s) /\
  (forall r s,
     FinalSolver.executeWithLoopDetection levelData pf maxSteps = Done r s ->
     r = UnsolvedLoop \/
     ConstraintSolver.executeProgram levelData pf maxSteps = Done r s /\
     Solver.executeProgram levelData pf maxSteps = Done r s).
Proof.
  split.
  - apply final_run_enough_fuel. cbn. lia.
  - intros r s Hrun.
    assert (r = UnsolvedLoop \/ r <> UnsolvedLoop) as [->|Hne]
      by (destruct r; auto); [by left|right].
    rewrite <- constraintSolver_executeProgram.
    split; by eapply final_run_agrees.
Qed.

Lemma loop_detection_only_rejects_witness :
  exists s, Solver.executeProgram zigzagLevel [[1; 1; 1; 107]] 1000
            = Done (Solved 7) s.
Proof.
  pose proof (proj2 (loop_detection_only_rejects zigzagLevel [[1; 1; 1; 107]] 1000))
    as H.
  remember (FinalSolver.executeWithLoopDetection zigzagLevel [[1; 1; 1; 107]] 1000)
    as run eqn:E.
  vm_compute in E. subst run.
  destruct (H _ _ eq_refl) as [Hloop | [_ Hrun] ]; [discriminate Hloop|].
  eexists. exact Hrun.
Defined.

(* ===================================================================== *)
(** ** A solution the loop detection rejects *)
(* ===================================================================== *)

Lemma four_left_turns (d : Z) :
  0 <= d < 4 ->
  Z.rem (Z.rem (Z.rem (Z.rem (d + 3) 4 + 3) 4 + 3) 4 + 3) 4 = d.
Proof.
  intros Hd.
  assert (d = 0 \/ d = 1 \/ d = 2 \/ d = 3) as [-> | [-> | [-> | ->] ] ] by lia;
    reflexivity.
Qed.

Section HiddenStack.

Variables (maxSteps : Z) (x y d st : Z) (b : list Js.row).
Hypothesis Hd : 0 <= d < 4.
Hypothesis Hst : st <> 0.

Let pf := turnAroundTwice.

Local Lemma loops_step (fuel : nat) (s s1 : state.t) (cache : gset string) :
  state.steps s < maxSteps ->
  (0 < length (state.stack s) <= 100)%nat ->
  state.stars s <> 0 ->
  execInstruction true pf s = Next s1 ->
  loops pf maxSteps fuel s1 ({[FinalSolver.hashState s]} ∪ cache) ->
  loops pf maxSteps (S fuel) s cache.
Proof.
  intros Hsteps Hlen Hstars He Hrest. unfold loops. cbn [FinalSolver.run].
  unfold FinalSolver.iteration, FinalSolver.loopCondition, FinalSolver.loopBody.
  rewrite (proj2 (Z.ltb_lt _ _) Hsteps).
  replace (0 <? length (state.stack s))%nat with true
    by (symmetry; apply Nat.ltb_lt; lia).
  replace (length (state.stack s) <=? 100)%nat with true
    by (symmetry; apply Nat.leb_le; lia).
  rewrite (proj2 (Z.eqb_neq _ _) Hstars). cbn [andb].
  destruct (bool_decide _); [by exists s|].
  rewrite He. exact Hrest.
Qed.

Local Lemma loops_seen (fuel : nat) (s : state.t) (cache : gset string) :
  state.steps s < maxSteps ->
  (0 < length (state.stack s) <= 100)%nat ->
  state.stars s <> 0 ->
  FinalSolver.hashState s ∈ cache ->
  loops pf maxSteps (S fuel) s cache.
Proof.
  intros Hsteps Hlen Hstars Hseen. unfold loops. cbn [FinalSolver.run].
  unfold FinalSolver.iteration, FinalSolver.loopCondition, FinalSolver.loopBody.
  rewrite (proj2 (Z.ltb_lt _ _) Hsteps).
  replace (0 <? length (state.stack s))%nat with true
    by (symmetry; apply Nat.ltb_lt; lia).
  replace (length (state.stack s) <=? 100)%nat with true
    by (symmetry; apply Nat.leb_le; lia).
  rewrite (proj2 (Z.eqb_neq _ _) Hstars). cbn [andb].
  rewrite bool_decide_eq_true_2 by exact Hseen. by exists s.
Qed.

Local Lemma turn_step (flag : bool) (e : Z) (k : list Z) (n : Z) :
  execInstruction flag pf (state.mk x y e st b (INST.TL :: k) n)
  = Next (state.mk x y (Z.rem (e + 3) 4) st b k (n + 1)).
Proof. reflexivity. Qed.

Local Lemma noop_step (flag : bool) (e : Z) (k : list Z) (n : Z) :
  execInstruction flag pf (state.mk x y e st b (INST.NO :: k) n)
  = Next (state.mk x y e st b k (n + 1)).
Proof. reflexivity. Qed.

Local Lemma call_step (flag : bool) (e : Z) (k : list Z) (n : Z) :
  execInstruction flag pf (state.mk x y e st b (INST.F1 :: k) n)
  = Next (state.mk x y e st b
            ([INST.TL; INST.TL; INST.TL; INST.TL; INST.NO] ++ k) (n + 1)).
Proof. by destruct flag. Qed.

Local Lemma hidden_stack_loops (fuel : nat) :
  8 <= maxSteps ->
  loops pf maxSteps (8 + fuel) (state.mk x y d st b [INST.F1; INST.F1; INST.FW] 0) ∅.
Proof.
  intros Hmax. cbn [Nat.add].
  eapply loops_step; [cbn; lia..|done|apply call_step|]. cbn [app].
  do 4 (eapply loops_step; [cbn; lia..|done|apply turn_step|]).
  eapply loops_step; [cbn; lia..|done|apply noop_step|].
  eapply loops_step; [cbn; lia..|done|apply call_step|]. cbn [app].
  rewrite four_left_turns by exact Hd.
  apply loops_seen; [cbn; lia..|done|].
  rewrite !elem_of_union, !elem_of_singleton.
  do 5 right. left. reflexivity.
Qed.

Local Lemma hidden_stack_solved (p : Z * Z) (n : Z) (fuel : nat) :
  st = 1 ->
  destination (state.mk x y d st b [INST.F1; INST.F1; INST.FW] 0) = Some p ->
  ~ outOfBounds p ->
  read_cell b (snd p) (fst p) = Some (Js.num n) ->
  3 < n ->
  13 <= maxSteps ->
  exists final,
    Solver.run pf maxSteps (14 + fuel)
      (state.mk x y d st b [INST.F1; INST.F1; INST.FW] 0)
    = Done (Solved 13) final.
Proof.
  intros Hone Hdest Hin Hcell Hn Hmax. cbn [Nat.add].
  cbn [Solver.run].
  rewrite iteration_pops, call_step by (cbn; lia || done). cbn [app].
  do 4 (rewrite iteration_pops, turn_step by (cbn; lia || done)).
  rewrite four_left_turns by exact Hd.
  rewrite iteration_pops, noop_step by (cbn; lia || done).
  rewrite iteration_pops, call_step by (cbn; lia || done). cbn [app].
  do 4 (rewrite iteration_pops, turn_step by (cbn; lia || done)).
  rewrite four_left_turns by exact Hd.
  rewrite iteration_pops, noop_step by (cbn; lia || done).
  rewrite iteration_pops by (cbn; lia || done).
  change (execInstruction false pf (state.mk x y d st b [INST.FW] (0 + 1 + 1 + 1 + 1 + 1 + 1 + 1 + 1 + 1 + 1 + 1 + 1)))
    with (forward (state.mk x y d st b [] (0 + 1 + 1 + 1 + 1 + 1 + 1 + 1 + 1 + 1 + 1 + 1 + 1 + 1))).
  rewrite (forward_moves _ p n) by (done || lia).
  replace (3 <? n) with true by (symmetry; apply Z.ltb_lt; lia).
  cbn [state.dir state.stars state.board state.stack state.steps].
  unfold Solver.iteration, Solver.loopCondition. cbn [state.stack length Nat.ltb Nat.leb].
  rewrite andb_false_r. unfold Solver.afterLoop. cbn [state.stars state.steps].
  subst st. cbn. by eexists.
Qed.

End HiddenStack.



(* ===================================================================== *)
(** ** The two prunings of instruction sequences *)
(* ===================================================================== *)

Module PruningFacts.
Import ConstraintSolver.

Lemma index_app_here (pre rest : list Z) (i : Z) :
  Js.index (pre ++ i :: rest) (Z.of_nat (length pre)) = Some i.
Proof.
  apply index_Some. split; [lia|]. rewrite Nat2Z.id.
  by rewrite lookup_app_r, Nat.sub_diag by lia.
Qed.

Lemma index_app_before (pre rest : list Z) (j : Z) :
  j < Z.of_nat (length pre) ->
  Js.index (pre ++ rest) j = Js.index pre j.
Proof.
  intros Hj. unfold Js.index. destruct (0 <=? j) eqn:H0; [|done].
  apply Z.leb_le in H0. apply lookup_app_l. lia.
Qed.

Lemma isValidSequence_next (pre rest : list Z) (i : Z) :
  FinalSolver.isValidSequence (pre ++ i :: rest) (Z.of_nat (length pre))
  = acceptsNext (lastTwo pre) i.
Proof.
  unfold FinalSolver.isValidSequence, acceptsNext, lastTwo, isPlainCall,
    isTurnLeft, isTurnRight. cbn [fst snd].
  rewrite index_app_here.
  rewrite !(index_app_before pre (i :: rest)) by lia.
  destruct pre as [|a pre].
  { reflexivity. }
  destruct (Z.eqb_spec (Z.of_nat (length (a :: pre))) 0) as [H0|_];
    [cbn [length] in H0; lia|].
  destruct pre as [|a' pre].
  { cbn [length Z.of_nat Z.leb Z.compare Pos.compare Pos.compare_cont].
    change (Js.index [a] (1 - 2)) with (@None Z).
    cbn [FinalSolver.opOf FinalSolver.equals fmap option_fmap option_map andb orb].
    by destruct (_ && _). }
  replace (2 <=? Z.of_nat (length (a :: a' :: pre))) with true
    by (symmetry; apply Z.leb_le; cbn [length]; lia).
  cbn [andb].
  destruct (_ && (_ || _ || _)); [reflexivity|]. cbn [negb andb].
  by destruct (_ || _).
Qed.

Lemma lastTwo_snoc (pre : list Z) (i : Z) :
  lastTwo (pre ++ [i]) = (snd (lastTwo pre), Some i).
Proof.
  unfold lastTwo. rewrite length_app. cbn [length snd]. f_equal.
  - replace (Z.of_nat (length pre + 1) - 2) with (Z.of_nat (length pre) - 1) by lia.
    apply index_app_before. lia.
  - replace (Z.of_nat (length pre + 1) - 1) with (Z.of_nat (length pre)) by lia.
    apply index_app_here.
Qed.

Lemma validAfter_cons (pre rest : list Z) (i : Z) :
  validAfter pre (i :: rest) <->
  acceptsNext (lastTwo pre) i = true /\ validAfter (pre ++ [i]) rest.
Proof.
  unfold validAfter. split.
  - intros H. split.
    + rewrite <- (isValidSequence_next pre rest).
      specialize (H 0%nat ltac:(cbn; lia)). by rewrite Nat.add_0_r in H.
    + intros k Hk. specialize (H (S k) ltac:(cbn; lia)).
      rewrite <- app_assoc, length_app. cbn [app length].
      by replace (length pre + 1 + k)%nat with (length pre + S k)%nat by lia.
  - intros [H0 H] k Hk. destruct k as [|k].
    + rewrite Nat.add_0_r. by rewrite isValidSequence_next.
    + specialize (H k ltac:(cbn in Hk; lia)).
      rewrite <- app_assoc, length_app in H. cbn [app length] in H.
      by replace (length pre + 1 + k)%nat with (length pre + S k)%nat in H by lia.
Qed.

Lemma records_initial : records initialConstraints (lastTwo []).
Proof. by repeat split. Qed.

Lemma elem_of_getValidInstructions (c : Constraints) (all : list Z) (i : Z) :
  i ∈ getValidInstructions c all <->
  i ∈ all /\ terminated c = false /\
  (noLeftTurn c = true -> Z.rem i 100 <> INST.TL) /\
  (noRightTurn c = true -> Z.rem i 100 <> INST.TR).
Proof.
  unfold getValidInstructions.
  destruct (terminated c).
  { split; [by intros ?%elem_of_nil|by intros (_ & ? & _)]. }
  destruct (noLeftTurn c), (noRightTurn c);
    rewrite ?list_elem_of_filter; intuition congruence.
Qed.

Lemma records_step (c : Constraints) (h : option Z * option Z) (all : list Z)
    (i : Z) :
  records c h ->
  (i ∈ getValidInstructions c all <-> i ∈ all /\ acceptsNext h i = true) /\
  (acceptsNext h i = true ->
   exists c', propagateConstraints c i = Some c' /\ records c' (snd h, Some i)).
Proof.
  intros (Hterm & Hnr & Hnl & Hlt & Hrt & Hl0 & Hr0).
  destruct h as [p2 p1]. cbn [fst snd] in *.
  unfold acceptsNext. cbn [fst snd].
  assert (isTurnLeft (Some i) = (Z.rem i 100 =? INST.TL)) as HiL by reflexivity.
  assert (isTurnRight (Some i) = (Z.rem i 100 =? INST.TR)) as HiR by reflexivity.
  assert (isPlainCall (Some i)
          = ((i / 100 =? 0) &&
             ((Z.rem i 100 =? INST.F0) || (Z.rem i 100 =? INST.F1) ||
              (Z.rem i 100 =? INST.F2)))) as HiC by reflexivity.
  rewrite HiL, HiR. split.
  - rewrite elem_of_getValidInstructions, Hterm, Hnr, Hnl.
    destruct (isPlainCall p1); cbn [negb andb];
      [split; [by intros (_ & ? & _)|by intros [_ ?] ]|].
    destruct (Z.eqb_spec (Z.rem i 100) INST.TL) as [HL|HL];
      destruct (Z.eqb_spec (Z.rem i 100) INST.TR) as [HR|HR];
      try (rewrite HL in HR; discriminate HR);
      destruct (isTurnLeft p2), (isTurnLeft p1), (isTurnRight p2), (isTurnRight p1);
      cbn [negb andb orb]; intuition congruence.
  - intros Hacc. apply andb_true_iff in Hacc as [Hcall Hturn].
    apply negb_true_iff in Hcall, Hturn.
    unfold propagateConstraints. rewrite Hcall in Hterm.
    destruct (Z.eqb_spec (Z.rem i 100) INST.TL) as [HL|HL].
    + eexists. split; [reflexivity|].
      assert ((Z.rem i 100 =? INST.TR) = false) as HR
          by (rewrite HL; reflexivity).
      rewrite HR in Hturn. rewrite andb_false_r, orb_false_l, andb_true_r in Hturn.
      unfold records. cbn [terminated noRightTurn noLeftTurn leftTurns
        rightTurns fst snd].
      rewrite HiL, HiR, HiC, HR, Hterm, Hnl, Hturn, !andb_false_r, andb_true_r.
      replace (2 <=? leftTurns c + 1) with (1 <=? leftTurns c)
        by (destruct (Z.leb_spec 1 (leftTurns c)), (Z.leb_spec 2 (leftTurns c + 1)); lia).
      rewrite Hlt, Hnr.
      replace (1 <=? leftTurns c + 1) with true by (symmetry; apply Z.leb_le; lia).
      repeat split; try lia.
      * rewrite HL. by destruct (i / 100 =? 0).
      * by destruct (isTurnLeft p1), (isTurnLeft p2).
    + destruct (Z.eqb_spec (Z.rem i 100) INST.TR) as [HR|HR].
      * eexists. split; [reflexivity|].
        rewrite andb_true_r, andb_false_r, orb_false_r in Hturn.
        unfold records. cbn [terminated noRightTurn noLeftTurn leftTurns
          rightTurns fst snd].
        rewrite HiL, HiR, HiC, Hterm, Hnr, Hturn, !andb_false_r, andb_true_r.
        replace (2 <=? rightTurns c + 1) with (1 <=? rightTurns c)
          by (destruct (Z.leb_spec 1 (rightTurns c)), (Z.leb_spec 2 (rightTurns c + 1)); lia).
        rewrite Hrt, Hnl.
        replace (1 <=? rightTurns c + 1) with true by (symmetry; apply Z.leb_le; lia).
        repeat split; try lia.
        -- rewrite HR. by destruct (i / 100 =? 0).
        -- by destruct (isTurnRight p1), (isTurnRight p2).
      * eexists. split; [reflexivity|].
        unfold records. cbn [terminated noRightTurn noLeftTurn leftTurns
          rightTurns fst snd].
        rewrite HiL, HiR, HiC, Hterm.
        rewrite !andb_false_r.
        repeat split; try lia; try reflexivity.
        match goal with |- (if ?e then _ else _) = _ => by destruct e end.
Qed.

Lemma admits_spec (all : list Z) (sequence pre : list Z) (c : Constraints) :
  records c (lastTwo pre) ->
  admits all c sequence <->
  Forall (fun i => i ∈ all) sequence /\ validAfter pre sequence.
Proof.
  revert pre c. induction sequence as [|i rest IH]; intros pre c Hrec.
  - cbn [admits]. split; [|done]. intros _. split; [constructor|].
    intros k Hk. cbn in Hk. lia.
  - cbn [admits]. rewrite validAfter_cons, Forall_cons.
    destruct (records_step c (lastTwo pre) all i Hrec) as [Hvalid Hnext].
    rewrite Hvalid. split.
    + intros [ [Hi Hacc] Hrest].
      destruct (Hnext Hacc) as (c' & Hc' & Hrec'). rewrite Hc' in Hrest.
      rewrite <- lastTwo_snoc in Hrec'.
      apply (IH (pre ++ [i]) c' Hrec') in Hrest as [Hall Hafter]. tauto.
    + intros [ [Hi Hall] [Hacc Hafter] ].
      split; [done|].
      destruct (Hnext Hacc) as (c' & Hc' & Hrec'). rewrite Hc'.
      rewrite <- lastTwo_snoc in Hrec'.
      apply (IH (pre ++ [i]) c' Hrec'). tauto.
Qed.

End PruningFacts.

Lemma admits_initial (allInstructions sequence : list Z) :
  admits allInstructions ConstraintSolver.initialConstraints sequence <->
  Forall (fun i => i ∈ allInstructions) sequence /\ validEverywhere sequence.
Proof.
  rewrite (PruningFacts.admits_spec allInstructions sequence []
             _ PruningFacts.records_initial).
  unfold validAfter, validEverywhere. cbn [app length Nat.add].
  split; intros [Hall Hvalid]; (split; [done|]).
  - intros pos Hpos. specialize (Hvalid (Z.to_nat pos) ltac:(lia)).
    by rewrite Z2Nat.id in Hvalid by lia.
  - intros k Hk. apply Hvalid. lia.
Qed.

(** X17. The two prunings agree.  The instruction sequences
    [ConstraintSolver.fillFunction] can build from the initial constraints
    (each instruction allowed by [getValidInstructions] under the
    constraints propagated so far) are exactly the sequences over the same
    instructions that [FinalSolver.isValidSequence] accepts at every
    position: nothing follows an unconditional call, and no right turn
    follows two left turns nor a left turn two right turns. *)
Theorem prunings_agree (allInstructions sequence : list Z) :
  admits allInstructions ConstraintSolver.initialConstraints sequence <->
  Forall (fun i => i ∈ allInstructions) sequence /\ validEverywhere sequence.
Proof. apply admits_initial. Qed.

(* ===================================================================== *)
(** ** The interactive engine *)
(* ===================================================================== *)

Module EngineFacts.
Import GameEngine.

Lemma moveForward_status (g g' : gstate) (b : bool) :
  moveForward g = Returns b g' -> status g' = status g.
Proof.
  unfold moveForward, setMessage.
  repeat match goal with
         | |- context [match ?e with _ => _ end] => destruct e
         end; intros H; inversion H; reflexivity.
Qed.

Lemma executeOpcode_status (pf : option (list (list Z))) (opcode : Z)
    (g g' : gstate) (b : bool) :
  executeOpcode pf opcode g = Returns b g' -> status g' = status g.
Proof.
  unfold executeOpcode, paintTile, callFunction, setMessage.
  repeat match goal with
         | |- context [if ?e then _ else _] => destruct e
         | |- context [match ?e with _ => _ end] => destruct e
         end;
    try (intros H; inversion H; reflexivity);
    apply moveForward_status.
Qed.

End EngineFacts.



Module ReplayFacts.
Import GameEngine.

Section Replay.

Variable pf : list (list Z).
Hypothesis Hpf : Forall (Forall (playable pf)) pf.

Lemma moveForward_sim (g : gstate) (s' : state.t) :
  forward (core g) = Next s' ->
  exists msg, moveForward g = Returns true (mkG s' (status g) msg).
Proof.
  unfold forward, moveForward.
  repeat match goal with
         | |- context [match ?e with _ => _ end] => destruct e
         end; intros H; inversion H; eexists; reflexivity.
Qed.

Lemma call_defined (k : Z) :
  0 <= k < Z.of_nat (length pf) ->
  exists f, Js.index pf k = Some f /\ Forall (playable pf) f.
Proof.
  intros Hk. destruct (lookup_lt_is_Some_2 pf (Z.to_nat k) ltac:(lia)) as [f Hf].
  exists f. split; [apply index_Some; split; [lia|done]|].
  eapply (proj1 (Forall_forall _ _) Hpf), list_elem_of_lookup_2, Hf.
Qed.

Lemma executeOpcode_sim (opcode : Z) (g : gstate) (s' : state.t) :
  0 <= opcode <= 9 ->
  (7 <= opcode -> opcode - 7 < Z.of_nat (length pf)) ->
  execOpcode false pf opcode (core g) = Next s' ->
  (exists msg, executeOpcode (Some pf) opcode g = Returns true (mkG s' (status g) msg)) /\
  (Forall (playable pf) (state.stack (core g)) ->
   Forall (playable pf) (state.stack s')).
Proof.
  intros Hop Hcall.
  assert (In opcode [0; 1; 2; 3; 4; 5; 6; 7; 8; 9]) as Hcase by (cbn; lia).
  cbn in Hcase.
  destruct Hcase as [<-|[<-|[<-|[<-|[<-|[<-|[<-|[<-|[<-|[<-|[] ] ] ] ] ] ] ] ] ] ];
    unfold execOpcode, executeOpcode;
    cbn [Z.eqb Pos.eqb INST.NO INST.FW INST.TL INST.TR INST.P1 INST.P2 INST.P3
           INST.F0 INST.F1 INST.F2 orb];
    try (unfold call, callFunction;
         match goal with
         | |- context [Js.index pf ?k] =>
             destruct (call_defined k) as (f & -> & Hf);
             [unfold INST.F0; lia|]
         end;
         intros [= <-]; split; [by eexists|];
         cbn [state.with_stack state.stack];
         intros Hk; apply Forall_app; by split).
  - intros [= <-]. split; [by eexists|done].
  - intros Hf. split; [by apply moveForward_sim|].
    revert Hf. unfold forward.
    repeat match goal with
           | |- context [match ?e with _ => _ end] => destruct e
           end; intros H; inversion H; done.
  - intros [= <-]. split; [by eexists|done].
  - intros [= <-]. split; [by eexists|done].
  - unfold paint, paintTile. destruct (read_cell _ _ _); [|done].
    intros [= <-]. split; [by eexists|done].
  - unfold paint, paintTile. destruct (read_cell _ _ _); [|done].
    intros [= <-]. split; [by eexists|done].
  - unfold paint, paintTile. destruct (read_cell _ _ _); [|done].
    intros [= <-]. split; [by eexists|done].
Qed.

Lemma stepState_sim (maxSteps : Z) (g : gstate) (s' : state.t) :
  isFinished (status g) = false ->
  Forall (playable pf) (state.stack (core g)) ->
  Solver.iteration pf maxSteps (core g) = Next s' ->
  (exists msg, stepState (Some pf) g = Returns true (mkG s' (status g) msg)) /\
  Forall (playable pf) (state.stack s').
Proof.
  intros Hfin Hok. unfold Solver.iteration, Solver.loopCondition, Solver.loopBody.
  destruct (_ && _) eqn:Hc; [|done].
  apply andb_true_iff in Hc as [_ Hlen].
  unfold stepState. rewrite Hfin.
  destruct (state.stars (core g) =? 0); [done|].
  destruct (100 <? length (state.stack (core g)))%nat eqn:Hover; [done|].
  unfold execInstruction.
  destruct (state.stack (core g)) as [|instr rest] eqn:Hstack.
  { cbn in Hlen. done. }
  apply Forall_cons in Hok as [ [Hop Hcall] Hrest].
  unfold decodeInstruction.
  set (g1 := setCore (state.popped rest (core g)) g).
  change (state.popped rest (core g)) with (core g1).
  assert (Forall (playable pf) (state.stack (core g1))) as Hok1 by exact Hrest.
  assert (status g1 = status g) as Hg1 by reflexivity.
  assert (execOpcode false pf (Z.rem instr 100) (core g1) = Next s' ->
          (exists msg,
             match executeOpcode (Some pf) (Z.rem instr 100) g1 with
             | Returns true g2 => Returns true g2
             | Returns false g2 => Returns false (setStatus failed g2)
             | TypeError g2 => TypeError g2
             end = Returns true (mkG s' (status g) msg)) /\
          Forall (playable pf) (state.stack s')) as Hrun.
  { intros He.
    destruct (executeOpcode_sim _ g1 s' Hop Hcall He) as [ [msg ->] Hok'].
    split; [|by apply Hok']. exists msg. by rewrite Hg1. }
  destruct (0 <? instr / 100); [|exact Hrun].
  destruct (read_cell _ _ _); [|done].
  destruct (Js.strict_ne _ _); [|exact Hrun].
  intros [= <-]. split; [|exact Hrest]. by eexists.
Qed.

Lemma stepState_won (maxSteps : Z) (g : gstate) (n : Z) (s' : state.t) :
  isFinished (status g) = false ->
  Solver.iteration pf maxSteps (core g) = Return (Solved n) s' ->
  stepState (Some pf) g
  = Returns false
      (mkG s' won ("Victory! Solved in " +:+ pretty n +:+ " steps")).
Proof.
  intros Hfin. unfold Solver.iteration, Solver.loopBody, Solver.afterLoop.
  unfold stepState. rewrite Hfin.
  destruct (Solver.loopCondition _ _).
  - destruct (state.stars (core g) =? 0); [by intros [= <- <-]|].
    destruct (_ <? _)%nat; [done|].
    intros He. by apply execInstruction_returns in He.
  - destruct (state.stars (core g) =? 0); [by intros [= <- <-]|done].
Qed.

Lemma steps_sim (maxSteps : Z) (fuel : nat) (g : gstate) (n : Z)
    (final : state.t) :
  isFinished (status g) = false ->
  Forall (playable pf) (state.stack (core g)) ->
  Solver.run pf maxSteps fuel (core g) = Done (Solved n) final ->
  GameSession.steps fuel (Some pf) g
  = Some (GameSession.Stopped
            (mkG final won ("Victory! Solved in " +:+ pretty n +:+ " steps"))).
Proof.
  revert g. induction fuel as [|fuel IH]; intros g Hfin Hok; [done|].
  cbn [Solver.run GameSession.steps].
  destruct (Solver.iteration pf maxSteps (core g)) as [s1|r s1|s1] eqn:Hi; [| |done].
  - destruct (stepState_sim _ _ _ Hfin Hok Hi) as [ [msg ->] Hok1].
    intros Hrun. by apply IH.
  - intros [= -> ->]. by rewrite (stepState_won _ _ _ _ Hfin Hi).
Qed.

End Replay.

End ReplayFacts.

(** X19. A solution of the solver replays as a win in the game: when
    [Solver.executeProgram] reports a program solved in [n] steps, and every
    instruction of the program has one of the ten opcodes and calls only
    functions the program has, then the engine, after [loadLevel],
    [loadProgram] and [run], stops with status won, in the final state of
    the solver's run, with the message that counts the same [n] steps. *)
Theorem solution_replays (levelData : level.t) (pf : list (list Z))
    (maxSteps n : Z) (final : state.t) (e : GameSession.t) :
  Forall (Forall (playable pf)) pf ->
  Solver.executeProgram levelData pf maxSteps = Done (Solved n) final ->
  exists e',
    GameSession.run (Solver.fuelFor maxSteps)
      (GameSession.loadProgram pf (GameSession.loadLevel levelData e))
    = Some (inl e') /\
    GameSession.state e'
    = Some (GameEngine.mkG final GameEngine.won
              ("Victory! Solved in " +:+ pretty n +:+ " steps")) /\
    GameSession.running e' = false.
Proof.
  intros Hpf Hrun. unfold GameSession.run, GameSession.loadProgram,
    GameSession.loadLevel, GameSession.reset.
  cbn [GameSession.levelData GameSession.state GameSession.programFunctions
         GameSession.initialState GameEngine.core state.x state.y state.dir
         state.stars state.board].
  erewrite (ReplayFacts.steps_sim pf Hpf maxSteps); [| |  |exact Hrun].
  - eexists. split; [reflexivity|]. by split.
  - reflexivity.
  - cbn [GameEngine.core state.stack].
    destruct (pf !! 0%nat) as [f|] eqn:Hf; [|constructor].
    eapply (proj1 (Forall_forall _ _) Hpf), list_elem_of_lookup_2, Hf.
Qed.

Lemma solution_replays_witness :
  exists e',
    GameSession.run (Solver.fuelFor 10000)
      (GameSession.loadProgram [[1; 1; 1; 107]]
         (GameSession.loadLevel zigzagLevel GameSession.create))
    = Some (inl e') /\
    GameSession.running e' = false.
Proof.
  pose proof (zigzag_solve (fun _ => [])) as Hsolve.
  apply solve_sound_aux in Hsolve as [final Hrun].
  destruct (solution_replays zigzagLevel [[1; 1; 1; 107]] 10000 7 final
              GameSession.create) as (e' & Hrun' & _ & Hstop).
  - repeat first [apply List.Forall_nil | apply List.Forall_cons];
      (split; [vm_compute; split; discriminate | intros _; vm_compute; reflexivity]).
  - exact Hrun.
  - exists e'. split; [exact Hrun'|exact Hstop].
Defined.

Lemma engine_spin_step (pf : list (list Z)) (g : GameEngine.gstate) :
  pf !! 0%nat = Some [INST.TL; INST.F0] ->
  GameEngine.isFinished (GameEngine.status g) = false ->
  state.stars (GameEngine.core g) <> 0 ->
  spinStack (state.stack (GameEngine.core g)) ->
  exists g',
    GameEngine.stepState (Some pf) g = GameEngine.Returns true g' /\
    GameEngine.isFinished (GameEngine.status g') = false /\
    state.stars (GameEngine.core g') <> 0 /\
    spinStack (state.stack (GameEngine.core g')).
Proof.
  intros Hpf Hfin Hstars Hspin. unfold GameEngine.stepState.
  rewrite Hfin, (proj2 (Z.eqb_neq _ _) Hstars).
  destruct Hspin as [-> | ->]; cbn [length Nat.ltb Nat.leb].
  - eexists. split; [reflexivity|]. cbn. split; [done|]. split; [done|by right].
  - unfold decodeInstruction, GameEngine.executeOpcode.
    change (INST.F0 / 100) with 0. change (Z.rem INST.F0 100) with 7.
    cbn [Z.ltb Z.compare Z.eqb Pos.eqb INST.NO INST.FW INST.TL INST.TR INST.P1
           INST.P2 INST.P3 INST.F0 INST.F1 INST.F2 orb].
    unfold GameEngine.callFunction.
    replace (Js.index pf (7 - INST.F0)) with (Some [INST.TL; INST.F0])
      by (symmetry; exact Hpf).
    eexists. split; [reflexivity|]. cbn. split; [done|]. split; [done|by left].
Qed.

(** X20. The interactive engine has no step cap: on the program
    [F0 = [TL; F0]], which the solver's executor gives up on at its cap and
    the loop detection stops after 8 steps, [run()] never comes to an end
    while a star is left; only [stop()] ends it. *)
Theorem engine_spins_forever (levelData : level.t) (pf : list (list Z))
    (e : GameSession.t) (fuel : nat) :
  pf !! 0%nat = Some [INST.TL; INST.F0] ->
  level.stars levelData <> 0 ->
  GameSession.run fuel
    (GameSession.loadProgram pf (GameSession.loadLevel levelData e)) = None.
Proof.
  intros Hpf Hstars.
  unfold GameSession.run, GameSession.loadProgram, GameSession.loadLevel,
    GameSession.reset.
  cbn [GameSession.levelData GameSession.state GameSession.programFunctions
         GameSession.initialState GameEngine.core state.x state.y state.dir
         state.stars state.board].
  rewrite Hpf.
  match goal with
  | |- match GameSession.steps _ _ ?g with _ => _ end = _ =>
      assert (GameSession.steps fuel (Some pf) g = None) as ->; [|done];
      assert (GameEngine.isFinished (GameEngine.status g) = false) as Hfin by done;
      assert (state.stars (GameEngine.core g) <> 0) as Hst by done;
      assert (spinStack (state.stack (GameEngine.core g))) as Hspin by (by left);
      generalize dependent g
  end.
  induction fuel as [|fuel IH]; intros g Hfin Hst Hspin; [done|].
  cbn [GameSession.steps].
  destruct (engine_spin_step pf g Hpf Hfin Hst Hspin) as (g' & -> & ? & ? & ?).
  by apply IH.
Qed.

Lemma engine_spins_forever_witness :
  GameSession.run 1000
    (GameSession.loadProgram [[INST.TL; INST.F0]]
       (GameSession.loadLevel zigzagLevel GameSession.create)) = None.
Proof. apply engine_spins_forever; [reflexivity|discriminate]. Defined.

Module FailureFacts.
Import GameEngine.

(** The messages the engine leaves when a program fails. *)
Lemma moveForward_fail (g : gstate) (r : RunResult) (s' : state.t) :
  forward (core g) = Return r s' ->
  s' = core g /\
  (moveForward g = Returns false (setMessage "Out of bounds" g) \/
   moveForward g = Returns false (setMessage "Fell into void" g)).
Proof.
  unfold forward, moveForward.
  repeat match goal with
         | |- context [match ?e with _ => _ end] => destruct e
         end; intros H; inversion H; split; auto.
Qed.

Lemma executeOpcode_fail (pf : list (list Z)) (opcode : Z) (g : gstate)
    (r : RunResult) (s' : state.t) :
  execOpcode false pf opcode (core g) = Return r s' ->
  s' = core g /\
  (executeOpcode (Some pf) opcode g = Returns false (setMessage "Out of bounds" g) \/
   executeOpcode (Some pf) opcode g = Returns false (setMessage "Fell into void" g)).
Proof.
  unfold execOpcode, executeOpcode, paint.
  destruct (Z.eqb_spec opcode INST.FW) as [->|Hne].
  - cbn [Z.eqb INST.FW INST.NO]. apply moveForward_fail.
  - repeat match goal with
           | |- context [if ?e then _ else _] => destruct e
           | |- context [match ?e with _ => _ end] => destruct e
           end; discriminate.
Qed.

Section Failure.

Variable pf : list (list Z).
Hypothesis Hpf : Forall (Forall (playable pf)) pf.

Lemma stepState_failed (maxSteps : Z) (g : gstate) (s' : state.t) :
  isFinished (status g) = false ->
  state.steps (core g) < maxSteps ->
  Solver.iteration pf maxSteps (core g) = Return Unsolved s' ->
  exists msg,
    stepState (Some pf) g = Returns false (mkG s' failed msg) /\
    msg ∈ ["Program ended without collecting all stars";
           "Stack overflow (>100 instructions)"; "Out of bounds";
           "Fell into void"].
Proof.
  intros Hfin Hsteps.
  unfold Solver.iteration, Solver.loopCondition, Solver.loopBody, Solver.afterLoop.
  rewrite (proj2 (Z.ltb_lt _ _) Hsteps). cbn [andb].
  unfold stepState. rewrite Hfin.
  destruct (state.stack (core g)) as [|instr rest] eqn:Hstack.
  { cbn [length Nat.ltb Nat.leb].
    destruct (state.stars (core g) =? 0); [done|]. intros [= <-].
    eexists. split; [reflexivity|]. set_solver. }
  change (0 <? length (instr :: rest))%nat with true. cbn iota.
  destruct (state.stars (core g) =? 0); [done|].
  destruct (100 <? length (instr :: rest))%nat eqn:Hover.
  { intros [= <-]. eexists. split; [reflexivity|]. set_solver. }
  unfold execInstruction. rewrite Hstack.
  unfold decodeInstruction.
  set (g1 := setCore (state.popped rest (core g)) g).
  change (state.popped rest (core g)) with (core g1).
  assert (execOpcode false pf (Z.rem instr 100) (core g1) = Return Unsolved s' ->
          exists msg,
            match executeOpcode (Some pf) (Z.rem instr 100) g1 with
            | Returns true g2 => Returns true g2
            | Returns false g2 => Returns false (setStatus failed g2)
            | TypeError g2 => TypeError g2
            end = Returns false (mkG s' failed msg) /\
            msg ∈ ["Program ended without collecting all stars";
                   "Stack overflow (>100 instructions)"; "Out of bounds";
                   "Fell into void"]) as Hrun.
  { intros He. apply executeOpcode_fail in He as [-> [-> | ->] ];
      (eexists; split; [reflexivity|set_solver]). }
  destruct (0 <? instr / 100); [|exact Hrun].
  destruct (read_cell _ _ _); [|done].
  destruct (Js.strict_ne _ _); [done|exact Hrun].
Qed.

Lemma steps_fail (maxSteps : Z) (fuel : nat) (g : gstate) (final : state.t) :
  isFinished (status g) = false ->
  Forall (playable pf) (state.stack (core g)) ->
  Solver.run pf maxSteps fuel (core g) = Done Unsolved final ->
  state.steps final < maxSteps ->
  exists msg,
    GameSession.steps fuel (Some pf) g
    = Some (GameSession.Stopped (mkG final failed msg)) /\
    msg ∈ ["Program ended without collecting all stars";
           "Stack overflow (>100 instructions)"; "Out of bounds";
           "Fell into void"].
Proof.
  revert g. induction fuel as [|fuel IH]; intros g Hfin Hok; [done|].
  cbn [Solver.run GameSession.steps].
  destruct (Solver.iteration pf maxSteps (core g)) as [s1|r s1|s1] eqn:Hi; [| |done].
  - destruct (ReplayFacts.stepState_sim pf Hpf _ _ _ Hfin Hok Hi) as [ [msg ->] Hok1].
    intros Hrun Hcap. by apply IH.
  - intros [= -> ->] Hcap.
    assert (state.steps (core g) < maxSteps) as Hsteps.
    { revert Hi. unfold Solver.iteration, Solver.loopCondition, Solver.loopBody.
      destruct (Z.ltb_spec (state.steps (core g)) maxSteps) as [Hlt|Hge]; [done|].
      cbn [andb]. intros [= _ <-]. lia. }
    destruct (stepState_failed _ _ _ Hfin Hsteps Hi) as (msg & -> & Hmsg).
    by exists msg.
Qed.

End Failure.

End FailureFacts.

(** X21. A failure of the solver's executor replays as a failure
    in the game: when [Solver.executeProgram] returns [{ solved: false }]
    before its step cap is reached, for a program of which every
    instruction has one of the ten opcodes and calls only functions the
    program has, then the engine, after [loadLevel], [loadProgram] and
    [run], stops with status failed in the final state of the solver's run;
    its message names the reason, which the solver's result does not: the
    program ended, the stack overflowed, the robot left the board, or it
    fell into the void. *)
Theorem failure_replays (levelData : level.t) (pf : list (list Z))
    (maxSteps : Z) (final : state.t) (e : GameSession.t) :
  Forall (Forall (playable pf)) pf ->
  Solver.executeProgram levelData pf maxSteps = Done Unsolved final ->
  state.steps final < maxSteps ->
  exists e' msg,
    GameSession.run (Solver.fuelFor maxSteps)
      (GameSession.loadProgram pf (GameSession.loadLevel levelData e))
    = Some (inl e') /\
    GameSession.state e' = Some (GameEngine.mkG final GameEngine.failed msg) /\
    msg ∈ ["Program ended without collecting all stars";
           "Stack overflow (>100 instructions)"; "Out of bounds";
           "Fell into void"].
Proof.
  intros Hpf Hrun Hcap. unfold GameSession.run, GameSession.loadProgram,
    GameSession.loadLevel, GameSession.reset.
  cbn [GameSession.levelData GameSession.state GameSession.programFunctions
         GameSession.initialState GameEngine.core state.x state.y state.dir
         state.stars state.board].
  edestruct (FailureFacts.steps_fail pf Hpf maxSteps) as (msg & -> & Hmsg);
    [| |exact Hrun|exact Hcap|].
  - reflexivity.
  - cbn [GameEngine.core state.stack].
    destruct (pf !! 0%nat) as [f|] eqn:Hf; [|constructor].
    eapply (proj1 (Forall_forall _ _) Hpf), list_elem_of_lookup_2, Hf.
  - eexists _, msg. split; [reflexivity|]. by split.
Qed.

Lemma failure_replays_witness :
  exists e' msg,
    GameSession.run (Solver.fuelFor 10000)
      (GameSession.loadProgram [[INST.TL; INST.FW]]
         (GameSession.loadLevel zigzagLevel GameSession.create))
    = Some (inl e') /\
    GameSession.state e'
    = Some (GameEngine.mkG
              (state.mk 0 0 1 1 (map Js.spread (level.board zigzagLevel)) [] 2)
              GameEngine.failed msg).
Proof.
  destruct (failure_replays zigzagLevel [[INST.TL; INST.FW]] 10000
              (state.mk 0 0 1 1 (map Js.spread (level.board zigzagLevel)) [] 2)
              GameSession.create) as (e' & msg & Hrun & Hstate & _).
  - repeat first [apply List.Forall_nil | apply List.Forall_cons];
      (split; [vm_compute; split; discriminate | intros Hc; vm_compute in Hc; by destruct Hc]).
  - by vm_compute.
  - cbn. lia.
  - exists e', msg. split; [exact Hrun|exact Hstate].
Defined.

(* ===================================================================== *)
(** ** The programs [ConstraintSolver] executes *)
(* ===================================================================== *)

Module CandidateFacts.
Import ConstraintSolver Deepening Candidates.

Lemma instructionsOf_lookup' (p : Store) (i : nat) :
  instructionsOf p !! i = omap id <$> p !! i.
Proof. unfold instructionsOf. change (map ?f ?l) with (f <$> l). apply list_lookup_fmap. Qed.

Lemma length_setAt (f : list (option Z)) (pos : nat) (e : option Z) :
  length (setAt f pos e) = Nat.max (length f) (S pos).
Proof.
  unfold setAt. destruct (Nat.ltb_spec pos (length f)).
  - rewrite length_insert. lia.
  - rewrite !length_app, length_replicate. cbn. lia.
Qed.

Lemma withinSlots_setEntry (fl : list Z) (p p' : Store) (idx pos : nat)
    (e : option Z) (flen : Z) :
  withinSlots fl p ->
  fl !! idx = Some flen ->
  Z.of_nat pos < flen ->
  setEntry p idx pos e = Some p' ->
  withinSlots fl p'.
Proof.
  unfold withinSlots, setEntry. intros Hw Hfl Hpos.
  destruct (p !! idx) as [f|] eqn:Hf; [|done]. intros [= <-].
  rewrite <- (list_insert_id fl idx flen Hfl).
  apply Forall2_insert; [done|].
  pose proof (Forall2_lookup_lr _ _ _ _ _ _ Hw Hf Hfl) as Hlen. cbn beta in Hlen.
  rewrite length_setAt. lia.
Qed.

Section Search.

Variables (lvl : level.t) (all fl : list Z) (total : Z).

Lemma good_quiet (p : Store) :
  inv fl (instructionsOf p) p -> good fl all (instructionsOf p) (mkRan Failure p []).
Proof. intros Hi. split; [constructor|]. by intros _. Qed.

Lemma forEach_good {A} (items : list A) (body : A -> Store -> Ran)
    (a0 : list (list Z)) :
  (forall a p, a ∈ items -> inv fl a0 p -> good fl all a0 (body a p)) ->
  forall p, inv fl a0 p -> good fl all a0 (forEach items body p).
Proof.
  induction items as [|a more IH]; intros Hbody p Hi; cbn [forEach].
  - split; [constructor|]. by intros _.
  - pose proof (Hbody a p ltac:(left) Hi) as Hr.
    remember (body a p) as r eqn:Er. clear Er.
    destruct (outcome r) eqn:Ho; [exact Hr| |exact Hr].
    destruct Hr as [Ht Hback]. specialize (Hback Ho).
    assert (forall a' p', a' ∈ more -> inv fl a0 p' -> good fl all a0 (body a' p'))
      as Hbody' by (intros a' p' Hin; apply Hbody; by right).
    destruct (IH Hbody' (store r) Hback) as [Ht2 Hback2].
    split.
    + unfold andThen; cbn [tested]. by apply Forall_app.
    + unfold andThen; cbn [store outcome]. exact Hback2.
Qed.

Lemma testProgram_good (p : Store) :
  inv fl (instructionsOf p) p ->
  allAdmitted all p ->
  good fl all (instructionsOf p) (testProgram lvl p).
Proof.
  intros Hi Ha. pose proof Hi as (_ & _ & Hs). unfold testProgram.
  destruct (executeProgram lvl (asProgram p) defaultMaxSteps) as [ [n| |] s|s|s];
    (split; [by repeat constructor|]); cbn [outcome store]; by intros.
Qed.

Section Fill.

Variables (idx : nat) (flen : Z) (later : list nat) (onComplete : Store -> Ran).

Hypothesis Hflen : fl !! idx = Some flen.
Hypothesis Hfresh : idx ∉ later.
Hypothesis Hcomplete : forall p,
  inv fl (instructionsOf p) p ->
  allAdmitted all p ->
  (forall i, i ∈ later -> instructionsOf p !! i = Some []) ->
  good fl all (instructionsOf p) (onComplete p).

Lemma fillSearch_good (remaining pos : nat) (c : Constraints) (p : Store)
    (a : list Z) :
  inv fl (instructionsOf p) p ->
  instructionsOf p !! idx = Some a ->
  length a = pos ->
  Z.of_nat (pos + remaining) <= flen ->
  (forall rest, admits all c rest -> admits all initialConstraints (a ++ rest)) ->
  (forall j b, j <> idx -> instructionsOf p !! j = Some b ->
               admits all initialConstraints b) ->
  (forall i, i ∈ later -> instructionsOf p !! i = Some []) ->
  good fl all (instructionsOf p) (fillSearch all idx onComplete remaining pos c p).
Proof.
  revert pos c p a. induction remaining as [|remaining IH];
    intros pos c p a Hi Ha Hpos Hroom Hcont Hothers Hlater; cbn [fillSearch].
  - apply Hcomplete; [done| |done].
    apply Forall_forall. intros f Hf.
    apply list_elem_of_lookup in Hf as [j Hj].
    destruct (decide (j = idx)) as [->|Hne].
    + rewrite instructionsOf_lookup', Hj in Ha. injection Ha as <-.
      cbn beta. rewrite <- (app_nil_r (omap id f)). by apply Hcont.
    + apply (Hothers j); [done|]. by rewrite instructionsOf_lookup', Hj.
  - apply (forEach_good _ _ (instructionsOf p)); [|done].
    intros instr p1 Hallowed (Hw1 & Ha1 & Hs1).
    rewrite <- Ha1 in Ha, Hothers, Hlater.
    destruct (DeepeningFacts.setEntry_push p1 idx a instr Hw1 Ha)
      as (p2 & Hset & Hw2 & Ha2).
    rewrite Hpos in Hset. rewrite Hset.
    destruct (DeepeningFacts.propagate_is_Some c instr) as [c' Hc'].
    rewrite Hc'.
    assert (idx < length (instructionsOf p1))%nat as Hidx
        by (eapply lookup_lt_Some; eauto).
    assert (withinSlots fl p2) as Hs2
        by (eapply withinSlots_setEntry; eauto; lia).
    assert (good fl all (instructionsOf p2)
              (fillSearch all idx onComplete remaining (S pos) c' p2))
      as [Ht2 Hback2].
    { apply (IH (S pos) c' p2 (a ++ [instr])).
      - by repeat split.
      - by rewrite Ha2, list_lookup_insert_eq.
      - rewrite length_app. cbn. lia.
      - lia.
      - intros rest Hrest. rewrite <- app_assoc. apply Hcont.
        cbn [app admits]. split; [done|]. by rewrite Hc'.
      - intros j b Hj. rewrite Ha2, list_lookup_insert_ne by done. by apply Hothers.
      - intros i Hin. rewrite Ha2, list_lookup_insert_ne; [by apply Hlater|].
        intros ->. by apply Hfresh. }
    remember (fillSearch all idx onComplete remaining (S pos) c' p2)
      as tried eqn:Et. clear Et.
    destruct (outcome tried) eqn:Ho.
    + split; [done|]. intros Hf. congruence.
    + destruct (Hback2 eq_refl) as (Hw3 & Ha3 & Hs3).
      destruct (DeepeningFacts.setEntry_clear _ idx a instr Hw3)
        as (p4 & Hset4 & Hw4 & Ha4).
      { rewrite Ha3, Ha2. by apply list_lookup_insert_eq. }
      rewrite Hpos in Hset4. rewrite Hset4.
      split; [done|]. intros _. cbn [store]. split; [done|]. split.
      * rewrite Ha4, Ha3, Ha2, list_insert_insert_eq.
        rewrite list_insert_id by done. exact Ha1.
      * eapply withinSlots_setEntry; eauto. lia.
    + split; [done|]. intros Hf. congruence.
Qed.

End Fill.

Lemma search_good (funcOrder : list nat) :
  NoDup funcOrder ->
  forall used p,
    inv fl (instructionsOf p) p ->
    allAdmitted all p ->
    (forall i, i ∈ funcOrder -> instructionsOf p !! i = Some []) ->
    good fl all (instructionsOf p) (search lvl all fl total funcOrder used p).
Proof.
  induction funcOrder as [|idx later IH]; intros Hnd used p Hi Hadm Hempty;
    cbn [search].
  - destruct (used =? total); [by apply testProgram_good|by apply good_quiet].
  - apply NoDup_cons in Hnd as [Hfresh Hnd].
    destruct (fl !! idx) as [flen|] eqn:Hflen; [|by apply good_quiet].
    apply (forEach_good _ _ (instructionsOf p)); [|done].
    intros len p1 Hlen (Hw1 & Ha1 & Hs1). unfold fillFunction.
    apply list_elem_of_In, elem_of_upTo in Hlen.
    rewrite <- Ha1.
    eapply (fillSearch_good idx flen later _ Hflen Hfresh) with (a := []).
    + intros p2 Hi2 Hadm2 Hlater2. by apply IH.
    + by repeat split.
    + rewrite Ha1. apply Hempty. by left.
    + done.
    + lia.
    + by intros rest.
    + intros j b _ Hj. rewrite Ha1 in Hj.
      rewrite instructionsOf_lookup' in Hj.
      destruct (p !! j) as [f|] eqn:Hf; [|done]. injection Hj as <-.
      apply (proj1 (Forall_forall _ _) Hadm). by eapply list_elem_of_lookup_2.
    + intros i Hin. rewrite Ha1. apply Hempty. by right.
Qed.

Lemma tryBuildProgram_good :
  good fl all (map (fun _ => []) fl)
    (tryBuildProgram lvl all fl total (funcOrderOf fl)).
Proof.
  unfold tryBuildProgram.
  assert (instructionsOf (map (fun _ => []) fl) = map (fun _ => []) fl) as Hinit.
  { unfold instructionsOf. clear. induction fl as [|flen l IH]; [done|].
    cbn. by rewrite IH. }
  rewrite <- Hinit at 1. apply search_good.
  - rewrite DeepeningFacts.funcOrderOf_perm. apply NoDup_seq.
  - split; [|split; [done|] ].
    + apply Forall_forall. intros f Hf. apply list_elem_of_In, in_map_iff in Hf as (_ & <- & _).
      by exists 0%nat.
    + unfold withinSlots. clear. induction fl as [|flen l IH]; [constructor|].
      cbn [map]. constructor; [cbn; lia|exact IH].
  - apply Forall_forall. intros f Hf. apply list_elem_of_In, in_map_iff in Hf as (_ & <- & _).
    exact I.
  - intros i Hin. rewrite DeepeningFacts.funcOrderOf_perm in Hin.
    apply elem_of_seq in Hin. rewrite Hinit.
    change (map ?f ?l) with (f <$> l). rewrite list_lookup_fmap.
    destruct (lookup_lt_is_Some_2 fl i ltac:(lia)) as [flen ->]. done.
Qed.

End Search.

End CandidateFacts.

Lemma candidate_fits (lvl : level.t) (d : Z) (q : list (list (option Z))) :
  q ∈ ConstraintSolver.candidatesAt lvl d ->
  withinSlots (functionLengthsOf lvl) q /\
  Forall (fun f =>
            Forall (fun i => i ∈ ConstraintSolver.buildInstructions
                                   (availableInstructionsOf lvl)) (omap id f) /\
            validEverywhere (omap id f)) q.
Proof.
  intros Hq. unfold ConstraintSolver.candidatesAt in Hq.
  destruct (CandidateFacts.tryBuildProgram_good lvl
              (ConstraintSolver.buildInstructions (availableInstructionsOf lvl))
              (functionLengthsOf lvl) d) as [Ht _].
  destruct (proj1 (Forall_forall _ _) Ht q Hq) as [Hs Ha].
  split; [done|]. eapply Forall_impl; [exact Ha|].
  intros f Hf. by apply admits_initial.
Qed.

Lemma solve_returns_candidate (lvl : level.t)
    (program : list (list (option Z))) (steps found : Z) :
  ConstraintSolver.solve lvl = Found program steps found ->
  exists d, program ∈ ConstraintSolver.candidatesAt lvl d.
Proof.
  unfold ConstraintSolver.solve. intros Hsolve.
  apply DeepeningFacts.deepen_Found in Hsolve
    as (before & d & after & _ & Hs & _ & _).
  exists d. unfold ConstraintSolver.candidatesAt.
  destruct (DeepeningFacts.tryBuildProgram_spec lvl
              (ConstraintSolver.buildInstructions (availableInstructionsOf lvl))
              (functionLengthsOf lvl) d) as (_ & Hj & _).
  unfold Deepening.judged in Hj. rewrite Hs in Hj.
  destruct Hj as (earlier & -> & _). apply elem_of_app. right. by left.
Qed.

(** X22. Every program [ConstraintSolver] executes, and so the
    program [solve] returns, has one array per function slot, none longer
    than its slot even with its [null] entries counted; the instructions of
    each function are instructions [buildInstructions] made from the
    level's names, and they pass the pruning at every position: nothing
    follows an unconditional call, no right turn follows two left turns and
    no left turn two right turns. *)
Theorem executed_programs_fit (lvl : level.t)
    (q : list (list (option Z))) :
  (exists d, q ∈ ConstraintSolver.candidatesAt lvl d) \/
  (exists steps found, ConstraintSolver.solve lvl = Found q steps found) ->
  length q = length (functionLengthsOf lvl) /\
  withinSlots (functionLengthsOf lvl) q /\
  Forall (fun f =>
            Forall (fun i => i ∈ ConstraintSolver.buildInstructions
                                   (availableInstructionsOf lvl)) (omap id f) /\
            validEverywhere (omap id f)) q.
Proof.
  intros Hq.
  assert (exists d, q ∈ ConstraintSolver.candidatesAt lvl d) as [d Hd].
  { destruct Hq as [Hd | (steps & found & Hsolve)]; [done|].
    by eapply solve_returns_candidate. }
  destruct (candidate_fits lvl d q Hd) as [Hs Hf].
  split; [by eapply Forall2_length|]. by split.
Qed.

Lemma executed_programs_fit_witness :
  withinSlots (functionLengthsOf zigzagLevel) [[Some INST.FW; Some INST.F0]].
Proof.
  apply (executed_programs_fit zigzagLevel [[Some INST.FW; Some INST.F0]]).
  right. exists 11, 10. by vm_compute.
Defined.

(* ===================================================================== *)
(** ** Instruction subsets *)
(* ===================================================================== *)

Lemma slice_subseteq {A} (a : list A) (start finish : Z) (v : A) :
  v ∈ slice a start finish -> v ∈ a.
Proof.
  unfold slice. intros Hv.
  apply subseteq_drop, subseteq_take in Hv. exact Hv.
Qed.

Lemma length_slice {A} (a : list A) (start finish : Z) :
  0 <= start -> 0 <= finish ->
  Z.of_nat (length (slice a start finish)) <= Z.max 0 (finish - start).
Proof.
  intros Hs Hf. unfold slice. rewrite length_drop, length_take.
  destruct (Z.ltb_spec start 0); [lia|].
  destruct (Z.ltb_spec finish 0); lia.
Qed.

(** X23. The instruction subsets [generateInstructionSubsets] plans
    (strategies 1 to 3, before the random draws) hold only instructions of
    the list they are taken from, and never more than the requested
    number; they can hold fewer. *)
Theorem plannedSubsets_spec (allInstr : list Z) (size : Z) (subset : list Z) :
  subset ∈ Solver.plannedSubsets allInstr size ->
  Forall (fun i => i ∈ allInstr) subset /\
  Z.of_nat (length subset) <= size.
Proof.
  unfold Solver.plannedSubsets.
  cbv zeta.
  set (funcCalls := filter (fun i => 7 <= i /\ i <= 9) allInstr).
  set (movement := filter (fun i => 1 <= i /\ i <= 3) allInstr).
  set (paint := filter (fun i => 4 <= i /\ i <= 6) allInstr).
  set (conditional := filter (fun i => 100 <= i) allInstr).
  assert (forall l s f v, (l = funcCalls \/ l = movement \/ l = paint \/ l = conditional) ->
            v ∈ slice l s f -> v ∈ allInstr) as Hin.
  { intros l s f v Hl Hv. apply slice_subseteq in Hv.
    destruct Hl as [-> | [-> | [-> | ->] ] ];
      by apply list_elem_of_filter in Hv as [_ Hv]. }
  rewrite !elem_of_app. intros [H1 | [H2 | H3] ].
  - destruct (3 <=? size) eqn:H3s; cbn [andb] in H1; [|by apply elem_of_nil in H1].
    apply Z.leb_le in H3s.
    destruct (_ && _) in H1; [|by apply elem_of_nil in H1].
    apply list_elem_of_In, in_map_iff in H1 as (i & <- & Hi).
    split.
    + apply Forall_app. split; apply Forall_forall; intros v Hv;
        (eapply Hin; [|exact Hv]);
        repeat first [left; reflexivity | right]; reflexivity.
    + rewrite length_app.
      pose proof (length_slice movement 0 (Z.min 2 (size - 1))
                    ltac:(lia) ltac:(lia)) as Hm.
      pose proof (length_slice conditional (Z.of_nat i)
                    (Z.of_nat i + (size - Z.of_nat
                       (length (slice movement 0 (Z.min 2 (size - 1))))))
                    ltac:(lia) ltac:(lia)) as Hc.
      lia.
  - destruct (4 <=? size) eqn:H4s; cbn [andb] in H2; [|by apply elem_of_nil in H2].
    apply Z.leb_le in H4s.
    destruct (_ && _) in H2; [|by apply elem_of_nil in H2].
    apply list_elem_of_singleton in H2 as ->.
    split.
    + repeat (apply Forall_app; split); apply Forall_forall; intros v Hv;
        (eapply Hin; [|exact Hv]);
        repeat first [left; reflexivity | right]; reflexivity.
    + rewrite !length_app.
      pose proof (length_slice movement 0 2 ltac:(lia) ltac:(lia)).
      pose proof (length_slice paint 0 1 ltac:(lia) ltac:(lia)).
      pose proof (length_slice conditional 0 (size - 3) ltac:(lia) ltac:(lia)).
      lia.
  - destruct (4 <=? size) eqn:H4s; cbn [andb] in H3; [|by apply elem_of_nil in H3].
    apply Z.leb_le in H4s.
    destruct (_ && _) in H3; [|by apply elem_of_nil in H3].
    apply list_elem_of_singleton in H3 as ->.
    split.
    + repeat (apply Forall_app; split); apply Forall_forall; intros v Hv;
        (eapply Hin; [|exact Hv]);
        repeat first [left; reflexivity | right]; reflexivity.
    + rewrite !length_app.
      pose proof (length_slice movement 0 2 ltac:(lia) ltac:(lia)).
      pose proof (length_slice funcCalls 0 (Z.min 2 (size - 2)) ltac:(lia) ltac:(lia)).
      pose proof (length_slice conditional 0 (Z.max 0 (size - 4)) ltac:(lia) ltac:(lia)).
      lia.
Qed.

Lemma plannedSubsets_spec_witness :
  Forall (fun i => i ∈ [1; 7; 101; 107; 201; 207; 301; 307]) [1; 101; 107] /\
  Z.of_nat (length [1; 101; 107]) <= 3.
Proof.
  apply plannedSubsets_spec. vm_compute. apply list_elem_of_here.
Defined.

(* ===================================================================== *)
(** ** The search of [FinalSolver] *)
(* ===================================================================== *)

Module FinalSearchFacts.
Import ConstraintSolver FinalCandidates.

(** *** Reading a sequence up to a position *)

Lemma isValidSequence_agree (s s' : list Z) (pos : nat) :
  (forall j, (j <= pos)%nat -> s !! j = s' !! j) ->
  FinalSolver.isValidSequence s (Z.of_nat pos)
  = FinalSolver.isValidSequence s' (Z.of_nat pos).
Proof.
  intros Hagree.
  assert (forall k, k <= Z.of_nat pos -> Js.index s k = Js.index s' k) as Hidx.
  { intros k Hk. unfold Js.index. destruct (Z.leb_spec 0 k); [|done].
    apply Hagree. lia. }
  unfold FinalSolver.isValidSequence.
  by rewrite !(Hidx _) by lia.
Qed.

Lemma validEverywhere_snoc (a : list Z) (i : Z) :
  validEverywhere (a ++ [i]) <->
  validEverywhere a /\ acceptsNext (lastTwo a) i = true.
Proof.
  rewrite <- (PruningFacts.isValidSequence_next a []).
  unfold validEverywhere. rewrite length_app. cbn [length]. split.
  - intros H. split; [|apply H; lia].
    intros pos Hpos. rewrite <- (H pos ltac:(lia)).
    rewrite <- (Z2Nat.id pos) by lia. apply isValidSequence_agree.
    intros j Hj. symmetry. apply lookup_app_l. lia.
  - intros [Ha Hi] pos Hpos.
    destruct (Z.eq_dec pos (Z.of_nat (length a))) as [->|Hne]; [done|].
    rewrite <- (Ha pos ltac:(lia)).
    rewrite <- (Z2Nat.id pos) by lia. apply isValidSequence_agree.
    intros j Hj. apply lookup_app_l. lia.
Qed.

Lemma validEverywhere_nil : validEverywhere [].
Proof. intros pos Hpos. cbn in Hpos. lia. Qed.

(** *** Writing an entry *)

Lemma setAt_next (f : list (option Z)) (a : list Z) (i : Z) :
  take (length a) f = map Some a ->
  take (S (length a)) (setAt f (length a) (Some i)) = map Some (a ++ [i]).
Proof.
  intros Ht.
  assert (length a <= length f)%nat as Hlen.
  { apply (f_equal length) in Ht. rewrite length_take, length_map in Ht. lia. }
  unfold setAt. destruct (Nat.ltb_spec (length a) (length f)) as [Hlt|Hge].
  - rewrite (take_S_r _ _ (Some i)) by (by apply list_lookup_insert_eq).
    rewrite take_insert_ge by lia. rewrite Ht. by rewrite map_app.
  - replace (length a - length f)%nat with 0%nat by lia. cbn [replicate app].
    rewrite take_ge in Ht by lia.
    rewrite take_ge by (rewrite length_app; cbn [length]; lia).
    rewrite Ht. by rewrite map_app.
Qed.

Lemma asNumber_prefix (f : list (option Z)) (b : list Z) (j : nat) :
  take (length b) f = map Some b ->
  (j < length b)%nat ->
  map asNumber f !! j = b !! j.
Proof.
  intros Ht Hj. change (map asNumber f) with (asNumber <$> f).
  rewrite list_lookup_fmap.
  rewrite <- (lookup_take_lt f (length b) j) by done.
  rewrite Ht. change (map Some b) with (Some <$> b).
  rewrite list_lookup_fmap. by destruct (b !! j).
Qed.

(** *** The order in which instructions are tried *)

Lemma insertByPriority_perm (i : Z) (sorted : list Z) :
  FinalSolverSearch.insertByPriority i sorted ≡ₚ i :: sorted.
Proof.
  induction sorted as [|j rest IH]; cbn [FinalSolverSearch.insertByPriority]; [done|].
  destruct (_ <? _); [done|]. rewrite IH. apply Permutation_swap.
Qed.

Lemma sortByPriority_perm (l : list Z) : FinalSolverSearch.sortByPriority l ≡ₚ l.
Proof.
  unfold FinalSolverSearch.sortByPriority.
  assert (forall acc,
            foldl (fun sorted i => FinalSolverSearch.insertByPriority i sorted) acc l
            ≡ₚ l ++ acc) as H.
  { induction l as [|e l IH]; intros acc; cbn [foldl app]; [done|].
    rewrite IH, insertByPriority_perm. symmetry. apply Permutation_middle. }
  rewrite H. by rewrite app_nil_r.
Qed.

Lemma orderInstructions_perm (instructions : list Z) (pos : nat) :
  FinalSolverSearch.orderInstructions instructions pos ≡ₚ instructions.
Proof.
  unfold FinalSolverSearch.orderInstructions.
  destruct (pos =? 0)%nat; [apply sortByPriority_perm|done].
Qed.

(** *** Counting instructions *)

Lemma count_app (p q : Store) :
  Deepening.count (p ++ q) = Deepening.count p + Deepening.count q.
Proof.
  unfold Deepening.count, instrCount, instructionsOf.
  rewrite map_app, concat_app, length_app. lia.
Qed.

Lemma count_nonneg (p : Store) : 0 <= Deepening.count p.
Proof. unfold Deepening.count, instrCount. lia. Qed.

Lemma count_empty {A} (l : list A) :
  Deepening.count (map (fun _ => []) l) = 0.
Proof.
  unfold Deepening.count, instrCount, instructionsOf.
  induction l as [|x l IH]; [done|exact IH].
Qed.

Lemma count_cons (a : list Z) (p : Store) :
  Deepening.count (map Some a :: p) = Z.of_nat (length a) + Deepening.count p.
Proof.
  unfold Deepening.count, instrCount, instructionsOf. cbn [map concat].
  pose proof (DeepeningFacts.omap_filled a 0) as Ho.
  cbn [replicate] in Ho. rewrite app_nil_r in Ho.
  rewrite Ho, length_app. lia.
Qed.

Lemma count_fill (p : Store) (funcIdx : nat) (a : list Z) :
  p !! funcIdx = Some [] ->
  Deepening.count (<[funcIdx := map Some a]> p)
  = Deepening.count p + Z.of_nat (length a).
Proof.
  intros Hp.
  assert (funcIdx < length p)%nat as Hidx by (by eapply lookup_lt_Some).
  rewrite <- (take_drop_middle (<[funcIdx := map Some a]> p) funcIdx (map Some a))
    by (by apply list_lookup_insert_eq).
  rewrite take_insert_ge, drop_insert_lt by lia.
  pose proof (take_drop_middle p funcIdx [] Hp) as Hsplit.
  apply (f_equal Deepening.count) in Hsplit.
  rewrite count_app in Hsplit. change [] with (map Some (@nil Z)) in Hsplit.
  rewrite count_cons in Hsplit. cbn [length] in Hsplit.
  rewrite count_app, count_cons. lia.
Qed.

(** *** The loop-detecting executor returns *)

Lemma final_run_wellPlaced (pf : list (list Z)) (maxSteps : Z) (fuel : nat)
    (s : state.t) (cache : gset string) :
  wellPlaced s -> forall s', FinalSolver.run pf maxSteps fuel s cache <> Threw s'.
Proof.
  revert s cache. induction fuel as [|fuel IH]; intros s cache Hw s'; [done|].
  cbn [FinalSolver.run].
  unfold FinalSolver.iteration, FinalSolver.loopBody.
  destruct (FinalSolver.loopCondition maxSteps s); [|done].
  destruct (state.stars s =? 0); [done|].
  destruct (bool_decide _); [done|].
  destruct (execInstruction_wellPlaced true pf s Hw) as [Hno Hnext].
  destruct (execInstruction true pf s) as [s1|r s1|s1] eqn:He; [|done|].
  - apply IH. by apply Hnext.
  - by destruct (Hno s1).
Qed.

Lemma executeWithLoopDetection_returns (lvl : level.t) (pf : list (list Z))
    (maxSteps : Z) :
  (forall s, FinalSolver.executeWithLoopDetection lvl pf maxSteps <> OutOfFuel s) /\
  (wellFormedLevel lvl ->
   forall s, FinalSolver.executeWithLoopDetection lvl pf maxSteps <> Threw s).
Proof.
  split.
  - apply final_run_enough_fuel. cbn. lia.
  - intros Hwf. apply final_run_wellPlaced. by apply initialState_wellPlaced.
Qed.

(** *** Loops that stop at the first solved result *)

Section Search.

Variable lvl : level.t.
Variable instructions funcLengths : list Z.
Variable total : Z.

Lemma final_spec_quiet (after due : Store -> Prop) (p : Store) :
  after p -> (forall q, ~ due q) ->
  spec lvl instructions funcLengths total after due (mkRan Failure p []).
Proof.
  intros Hp Hnone. split; [by constructor|]. split; [by constructor|].
  split; [done|].
  intros _. split; [done|]. intros q Hq. by destruct (Hnone q).
Qed.

Lemma final_spec_weaken (after after' due due' : Store -> Prop) (r : Ran) :
  (forall p, after p -> after' p) ->
  (forall q, due' q -> due q) ->
  spec lvl instructions funcLengths total after due r ->
  spec lvl instructions funcLengths total after' due' r.
Proof.
  intros Himp Hdue (Hc & Hj & Hsafe & Hback). split; [done|]. split; [done|].
  split; [done|].
  intros Ho. destruct (Hback Ho) as [Hs Hall]. split; [by apply Himp|].
  intros q Hq. by apply Hall, Hdue.
Qed.

Lemma forEach_inv {A} (items : list A) (body : A -> Store -> Ran)
    (loop : Store -> Prop) (due : A -> Store -> Prop) :
  (forall a p, a ∈ items -> loop p ->
               spec lvl instructions funcLengths total loop (due a) (body a p)) ->
  forall p, loop p ->
            spec lvl instructions funcLengths total loop
                 (fun q => exists a, a ∈ items /\ due a q)
                 (forEach items body p).
Proof.
  induction items as [|a more IH]; intros Hbody p Hp; cbn [forEach].
  - apply final_spec_quiet; [done|]. intros q (a & Ha & _). by apply elem_of_nil in Ha.
  - pose proof (Hbody a p ltac:(left) Hp) as Hr.
    remember (body a p) as r eqn:Er. clear Er.
    destruct (outcome r) eqn:Ho.
    + destruct Hr as (Hcand & Hjudged & Hsafe & _).
      split; [done|]. split; [done|]. split; [done|].
      rewrite Ho. done.
    + destruct Hr as (Hcand & Hjudged & _ & Hback).
      destruct (Hback Ho) as [Hloop Hdue].
      assert (forall a' p', a' ∈ more -> loop p' ->
                spec lvl instructions funcLengths total loop (due a') (body a' p'))
        as Hbody' by (intros a' p' Hin; apply Hbody; by right).
      destruct (IH Hbody' (store r) Hloop) as (Hcand2 & Hjudged2 & Hsafe2 & Hback2).
      unfold judged in Hjudged. rewrite Ho in Hjudged.
      split; [|split; [|split] ].
      * unfold andThen; cbn [tested]. by apply Forall_app.
      * unfold judged in *. unfold andThen; cbn [store outcome tested].
        destruct (outcome (forEach more body (store r))) as [q steps| |].
        -- destruct Hjudged2 as (earlier & -> & Hun & Hsol).
           exists (tested r ++ earlier).
           rewrite <- app_assoc. repeat split; [by apply Forall_app|done].
        -- by apply Forall_app.
        -- done.
      * exact Hsafe2.
      * unfold andThen; cbn [store outcome tested]. intros Hf.
        destruct (Hback2 Hf) as [Hloop2 Hdue2]. split; [done|].
        intros q (a' & Ha' & Hq). apply elem_of_app.
        apply elem_of_cons in Ha' as [->|Ha'].
        -- left. by apply Hdue.
        -- right. apply Hdue2. by exists a'.
    + destruct Hr as (Hcand & Hjudged & Hsafe & _).
      split; [done|]. split; [done|]. split; [done|].
      rewrite Ho. done.
Qed.

(** *** Filling one function *)

Lemma validEverywhere_take (b : list Z) (n : nat) :
  validEverywhere b -> validEverywhere (take n b).
Proof.
  intros Hb. rewrite <- (take_drop n b) in Hb.
  induction (drop n b) as [|x rest IH] using rev_ind; [by rewrite app_nil_r in Hb|].
  rewrite app_assoc in Hb. apply validEverywhere_snoc in Hb as [Hb _]. by apply IH.
Qed.

Lemma final_fillSearch_spec (funcIdx : nat) (p0 : Store) (len : nat)
    (onComplete : Store -> Ran) (due : list Z -> Store -> Prop) :
  (funcIdx < length p0)%nat ->
  (forall a, length a = len -> Forall (fun i => i ∈ instructions) a ->
             validEverywhere a ->
             spec lvl instructions funcLengths total
                  (eq (<[funcIdx := map Some a]> p0)) (due a)
                  (onComplete (<[funcIdx := map Some a]> p0))) ->
  forall remaining pos a f,
    (pos + remaining = len)%nat ->
    length a = pos ->
    Forall (fun i => i ∈ instructions) a ->
    validEverywhere a ->
    take pos f = map Some a ->
    (length f <= len)%nat ->
    spec lvl instructions funcLengths total
         (fun p => exists f', p = <[funcIdx := f']> p0 /\
                              take pos f' = map Some a /\
                              (length f' <= len)%nat)
         (fun q => exists b, length b = len /\ take pos b = a /\
                             Forall (fun i => i ∈ instructions) b /\
                             validEverywhere b /\ due b q)
         (FinalSolverSearch.fillSearch instructions funcIdx onComplete
            remaining pos (<[funcIdx := f]> p0)).
Proof.
  intros Hidx Hdone.
  induction remaining as [|remaining IH]; intros pos a f Hlen Ha Hin Hvalid Hf Hfl;
    cbn [FinalSolverSearch.fillSearch].
  - assert (f = map Some a) as ->.
    { rewrite <- Hf. symmetry. apply take_ge. lia. }
    eapply final_spec_weaken; [| |apply Hdone; [lia|done|done] ].
    + intros p <-. exists (map Some a). split; [done|]. split.
      * apply take_ge. rewrite length_map. lia.
      * rewrite length_map. lia.
    + intros q (b & Hb & Htake & _ & _ & Hq).
      rewrite take_ge in Htake by lia. by subst b.
  - subst pos.
    eapply final_spec_weaken;
      [intros p Hp; exact Hp| |
       apply (forEach_inv _ _ _
                (fun instr q =>
                   exists b, length b = len /\
                             take (S (length a)) b = a ++ [instr] /\
                             Forall (fun i => i ∈ instructions) b /\
                             validEverywhere b /\ due b q))].
    { intros q (b & Hb & Htake & Hbin & Hbvalid & Hq).
      destruct (lookup_lt_is_Some_2 b (length a) ltac:(lia)) as [instr Hinstr].
      exists instr. split.
      - rewrite (orderInstructions_perm instructions (length a)).
        apply (proj1 (Forall_lookup _ _) Hbin _ _ Hinstr).
      - exists b. split; [done|]. split; [|done].
        by rewrite (take_S_r _ _ _ Hinstr), Htake. }
    2:{ exists f. by repeat split. }
    intros instr p Hinstr (f' & -> & Hf' & Hfl').
    unfold setEntry. rewrite list_lookup_insert_eq by done.
    rewrite list_insert_insert_eq.
    rewrite list_lookup_insert_eq by done.
    pose proof (setAt_next f' a instr Hf') as Hnext.
    assert (length (setAt f' (length a) (Some instr)) <= len)%nat as Hlen2.
    { unfold setAt. destruct (Nat.ltb_spec (length a) (length f')).
      - rewrite length_insert. lia.
      - rewrite !length_app, length_replicate. cbn [length]. lia. }
    assert (take (length a) (setAt f' (length a) (Some instr)) = map Some a)
      as Hkeep.
    { apply (f_equal (take (length a))) in Hnext.
      rewrite take_take in Hnext. rewrite Nat.min_l in Hnext by lia.
      rewrite Hnext, map_app, take_app_length'; [done|by rewrite length_map]. }
    assert (FinalSolver.isValidSequence
              (map asNumber (setAt f' (length a) (Some instr)))
              (Z.of_nat (length a))
            = acceptsNext (lastTwo a) instr) as ->.
    { rewrite <- (PruningFacts.isValidSequence_next a [] instr).
      apply isValidSequence_agree. intros j Hj.
      rewrite (asNumber_prefix _ (a ++ [instr])).
      - done.
      - rewrite length_app. cbn [length].
        by replace (length a + 1)%nat with (S (length a)) by lia.
      - rewrite length_app. cbn [length]. lia. }
    destruct (acceptsNext (lastTwo a) instr) eqn:Hacc.
    + eapply final_spec_weaken; [| |apply (IH (S (length a)) (a ++ [instr]))].
      * intros p (f3 & -> & Hf3 & Hfl3). exists f3. split; [done|]. split; [|done].
        apply (f_equal (take (length a))) in Hf3.
        rewrite take_take in Hf3. rewrite Nat.min_l in Hf3 by lia.
        rewrite Hf3, map_app, take_app_length'; [done|by rewrite length_map].
      * intros q Hq. exact Hq.
      * lia.
      * rewrite length_app. cbn [length]. lia.
      * apply Forall_app. split; [done|]. apply Forall_singleton.
        by rewrite <- (orderInstructions_perm instructions (length a)).
      * by apply validEverywhere_snoc.
      * exact Hnext.
      * exact Hlen2.
    + apply final_spec_quiet; [by eexists|].
      intros q (b & _ & Htake & _ & Hbvalid & _).
      apply (validEverywhere_take b (S (length a))) in Hbvalid.
      rewrite Htake in Hbvalid. apply validEverywhere_snoc in Hbvalid as [_ Hb].
      congruence.
Qed.

Lemma final_fillFunction_spec (funcIdx : nat) (p0 : Store) (len : nat)
    (onComplete : Store -> Ran) (due : list Z -> Store -> Prop) :
  p0 !! funcIdx = Some [] ->
  (forall a, length a = len -> Forall (fun i => i ∈ instructions) a ->
             validEverywhere a ->
             spec lvl instructions funcLengths total
                  (eq (<[funcIdx := map Some a]> p0)) (due a)
                  (onComplete (<[funcIdx := map Some a]> p0))) ->
  spec lvl instructions funcLengths total (eq p0)
       (fun q => exists b, length b = len /\
                           Forall (fun i => i ∈ instructions) b /\
                           validEverywhere b /\ due b q)
       (FinalSolverSearch.fillFunction instructions p0 funcIdx len onComplete).
Proof.
  intros Hp0 Hdone.
  assert (funcIdx < length p0)%nat as Hidx by (by eapply lookup_lt_Some).
  assert (<[funcIdx := []]> p0 = p0) as Hsame by (by apply list_insert_id).
  unfold FinalSolverSearch.fillFunction. destruct len as [|len].
  - pose proof (Hdone [] eq_refl ltac:(constructor) validEverywhere_nil) as H.
    cbn [map] in H. rewrite Hsame in H.
    eapply final_spec_weaken; [intros p Hp; exact Hp| |exact H].
    intros q (b & Hb & _ & _ & Hq). by destruct b.
  - destruct (final_fillSearch_spec funcIdx p0 (S len) onComplete due Hidx Hdone
                (S len) 0%nat [] [] eq_refl eq_refl ltac:(constructor)
                validEverywhere_nil eq_refl ltac:(cbn; lia))
      as (Hcand & Hjudged & Hsafe & Hback).
    split; [exact Hcand|]. split; [exact Hjudged|]. split; [exact Hsafe|].
    cbn [outcome store tested]. intros Ho.
    destruct (Hback Ho) as [(f' & -> & _) Hall]. split.
    + by rewrite list_insert_insert_eq.
    + intros q (b & Hb & Hbin & Hbvalid & Hq). apply Hall.
      exists b. by repeat split.
Qed.

(** *** The search over the functions *)

Lemma final_testProgram_spec (p : Store) :
  candidate instructions funcLengths total p ->
  spec lvl instructions funcLengths total (eq p) (eq p)
       (FinalSolverSearch.testProgram lvl p).
Proof.
  intros Hcand. unfold FinalSolverSearch.testProgram.
  assert (forall q, p = q -> q ∈ [p]) as Hdue by (intros q <-; by left).
  pose proof (executeWithLoopDetection_returns lvl (asProgram p)
                FinalSolver.defaultMaxSteps) as [Hfuel Hthrow].
  destruct (FinalSolver.executeWithLoopDetection lvl (asProgram p)
              FinalSolver.defaultMaxSteps) as [v s|e|s] eqn:Hrun.
  - destruct v.
    all: split; [by constructor|]; split; [|done].
    all: unfold judged; cbn [outcome tested].
    1: { exists []. split; [done|]. split; [constructor|]. by exists s. }
    all: constructor; [|constructor].
    all: intros steps' [s' Hs']; congruence.
  - split; [by constructor|]. split; [done|]. split; [|done].
    intros Hwf. by destruct (Hthrow Hwf e).
  - by destruct (Hfuel s).
Qed.

Lemma final_search_spec (later : list Z) :
  forall (before : list Z) (used : Z) (p : Store),
    funcLengths = before ++ later ->
    Forall2 (okFunction instructions) before (take (length before) p) ->
    drop (length before) p = map (fun _ => []) later ->
    Deepening.count p = used ->
    spec lvl instructions funcLengths total (eq p)
         (fun q => candidate instructions funcLengths total q /\
                   take (length before) q = take (length before) p)
         (FinalSolverSearch.search lvl instructions total later
            (length before) used p).
Proof.
  induction later as [|flen later IH]; intros before used p Hfl Hbefore Hlater Hused;
    cbn [FinalSolverSearch.search].
  - assert (forall q, candidate instructions funcLengths total q /\
                      take (length before) q = take (length before) p -> p = q)
      as Hsame.
    { intros q [[Hq _] Htake].
      apply Forall2_length in Hq. rewrite Hfl, app_nil_r in Hq.
      rewrite <- (take_drop (length before) p), Hlater. cbn [map].
      rewrite app_nil_r, <- Htake. apply take_ge. lia. }
    destruct (Z.eqb_spec used total) as [Heq|Hne].
    + eapply final_spec_weaken; [intros p' Hp'; exact Hp'|exact Hsame|].
      apply final_testProgram_spec. split; [|congruence].
      rewrite Hfl, app_nil_r.
      rewrite <- (take_drop (length before) p), Hlater. cbn [map].
      by rewrite app_nil_r.
    + apply final_spec_quiet; [done|].
      intros q Hq. pose proof (Hsame q Hq) as <-. destruct Hq as [[_ Hc] _]. lia.
  - assert (p !! length before = Some []) as Hhere.
    { rewrite <- (Nat.add_0_r (length before)), <- lookup_drop, Hlater. done. }
    assert (length before < length p)%nat as Hidx by (by eapply lookup_lt_Some).
    eapply final_spec_weaken;
      [intros p' Hp'; exact Hp'| |
       apply (forEach_inv _ _ _
                (fun len q =>
                   exists b, length b = len /\
                             Forall (fun i => i ∈ instructions) b /\
                             validEverywhere b /\
                             candidate instructions funcLengths total q /\
                             take (length (before ++ [flen])) q
                             = take (length (before ++ [flen]))
                                 (<[length before := map Some b]> p)))].
    { intros q [[Hq Hcount] Htake].
      pose proof (Forall2_length _ _ _ Hq) as Hlen.
      rewrite Hfl, length_app in Hlen. cbn [length] in Hlen.
      destruct (lookup_lt_is_Some_2 q (length before) ltac:(lia)) as [f Hf].
      assert (okFunction instructions flen f) as (b & -> & Hb & Hbin & Hbvalid).
      { apply (Forall2_lookup_lr _ _ _ (length before) flen f Hq); [|done].
        rewrite Hfl. by apply list_lookup_middle. }
      assert (Z.of_nat (length b) <= total - used) as Hroom.
      { pose proof (f_equal Deepening.count (take_drop_middle q _ _ Hf)) as Hqs.
        rewrite count_app, count_cons, Htake in Hqs.
        pose proof (f_equal Deepening.count (take_drop (length before) p)) as Hps.
        rewrite count_app, Hlater, count_empty in Hps.
        pose proof (count_nonneg (drop (S (length before)) q)). lia. }
      exists (length b). split.
      - unfold upTo. apply elem_of_seq. lia.
      - exists b. split; [done|]. split; [done|]. split; [done|].
        split; [by split|].
        rewrite length_app. cbn [length].
        replace (length before + 1)%nat with (S (length before)) by lia.
        rewrite (take_S_r _ _ _ Hf).
        rewrite (take_S_r _ _ (map Some b)) by (by apply list_lookup_insert_eq).
        rewrite take_insert_ge by lia. by rewrite Htake. }
    2: done.
    intros len p' Hlen <-.
    eapply final_spec_weaken;
      [intros p' Hp'; exact Hp'| |
       apply (final_fillFunction_spec (length before) p len _
                (fun b q =>
                   candidate instructions funcLengths total q /\
                   take (length (before ++ [flen])) q
                   = take (length (before ++ [flen]))
                       (<[length before := map Some b]> p)));
       [exact Hhere|] ].
    { intros q (b & Hb & Hbin & Hbvalid & Hq). by exists b. }
    intros a Ha Hin Hvalid.
    replace (S (length before)) with (length (before ++ [flen]))
      by (rewrite length_app; cbn [length]; lia).
    apply IH.
    + by rewrite <- app_assoc.
    + rewrite length_app. cbn [length].
      replace (length before + 1)%nat with (S (length before)) by lia.
      rewrite (take_S_r _ _ (map Some a)) by (by apply list_lookup_insert_eq).
      rewrite take_insert_ge by lia.
      apply Forall2_app; [exact Hbefore|].
      constructor; [|constructor].
      exists a. split; [done|]. split; [|done].
      unfold upTo in Hlen. apply elem_of_seq in Hlen. lia.
    + rewrite length_app. cbn [length].
      replace (length before + 1)%nat with (S (length before)) by lia.
      rewrite drop_insert_lt by lia.
      rewrite <- (Nat.add_1_r (length before)), <- drop_drop, Hlater. done.
    + rewrite (count_fill _ _ _ Hhere). lia.
Qed.

Lemma final_searchDepth_spec :
  spec lvl instructions funcLengths total (eq (map (fun _ => []) funcLengths))
       (candidate instructions funcLengths total)
       (FinalSolverSearch.searchDepth lvl instructions funcLengths total).
Proof.
  unfold FinalSolverSearch.searchDepth.
  eapply final_spec_weaken;
    [intros p Hp; exact Hp| |
     apply (final_search_spec funcLengths [] 0); [done|constructor|done|apply count_empty] ].
  intros q Hq. by split.
Qed.

End Search.

(** *** The deepening loop *)

Lemma final_deepen_found (lvl : level.t) (instructions functionLengths : list Z)
    (depths : list Z) (n : Z) (p : Store) (steps instrCount found : Z) :
  FinalSolverSearch.deepen lvl instructions functionLengths depths n
  = FinalSolverSearch.FoundProgram p steps instrCount found ->
  exists before after,
    depths = before ++ instrCount :: after /\
    outcome (FinalSolverSearch.searchDepth lvl instructions functionLengths instrCount)
    = Success p steps /\
    Forall (fun d' =>
              outcome (FinalSolverSearch.searchDepth lvl instructions
                         functionLengths d') = Failure) before /\
    found = n + Z.of_nat
                  (length
                     (flat_map
                        (fun d' => tested (FinalSolverSearch.searchDepth lvl
                                             instructions functionLengths d'))
                        (before ++ [instrCount]))).
Proof.
  revert n. induction depths as [|d deeper IH]; intros n;
    cbn [FinalSolverSearch.deepen]; [done|].
  destruct (outcome (FinalSolverSearch.searchDepth lvl instructions functionLengths d))
    as [q steps'| |] eqn:Ho; [| |done].
  - intros [= -> -> <- <-]. exists [], deeper. repeat split; [done|constructor|].
    cbn. by rewrite app_nil_r.
  - intros Hd. apply IH in Hd as (before & after & -> & Hs & Hf & ->).
    exists (d :: before), after. repeat split; [done|by constructor|].
    cbn [app flat_map]. rewrite length_app. lia.
Qed.

Lemma final_deepen_escaped (lvl : level.t) (instructions functionLengths : list Z)
    (depths : list Z) (n : Z) :
  FinalSolverSearch.deepen lvl instructions functionLengths depths n
  = FinalSolverSearch.Escaped ->
  exists d, outcome (FinalSolverSearch.searchDepth lvl instructions
                       functionLengths d) = Error.
Proof.
  revert n. induction depths as [|d deeper IH]; intros n;
    cbn [FinalSolverSearch.deepen]; [done|].
  destruct (outcome (FinalSolverSearch.searchDepth lvl instructions functionLengths d))
    as [q steps'| |] eqn:Ho; [done| |by exists d].
  apply IH.
Qed.

Lemma depthsTo_elem (sum d : Z) :
  d ∈ depthsTo sum <-> 1 <= d <= sum.
Proof.
  unfold depthsTo. rewrite list_elem_of_In, in_map_iff. split.
  - intros (k & <- & Hk). apply in_seq in Hk. lia.
  - intros Hd. exists (Z.to_nat d). split; [lia|]. apply in_seq. lia.
Qed.

End FinalSearchFacts.

(* ===================================================================== *)
(** ** The search of [FinalSolver] under its deadline *)
(* ===================================================================== *)

Module TimedSearchFacts.
Import ConstraintSolver FinalCandidates.

Section Search.

Variable alive : Z -> bool.
Variable lvl : level.t.
Variable instructions funcLengths : list Z.
Variable total : Z.

Lemma timed_quiet (count : Z) (after due : Store -> Prop) (p : Store) :
  after p -> (forall q, ~ due q) ->
  timedSpec alive lvl instructions funcLengths total count after due
    (mkRan Failure p []).
Proof.
  intros Hp Hnone. split; [by constructor|].
  intros _. split; [done|]. split.
  - intros q Hq. by destruct (Hnone q).
  - intros k q Hk. cbn [tested] in Hk. by rewrite lookup_nil in Hk.
Qed.

Lemma timed_weaken (count : Z) (after after' due due' : Store -> Prop) (r : Ran) :
  (forall p, after p -> after' p) ->
  (forall q, due' q -> due q) ->
  timedSpec alive lvl instructions funcLengths total count after due r ->
  timedSpec alive lvl instructions funcLengths total count after' due' r.
Proof.
  intros Himp Hdue (Hc & Hback). split; [done|].
  intros Ho. destruct (Hback Ho) as (Hs & Hall & Hun). split; [by apply Himp|].
  split; [|done]. intros q Hq. by apply Hall, Hdue.
Qed.

Lemma timed_forEach {A} (items : list A) (body : A -> Store -> Z -> Ran)
    (loop : Store -> Prop) (due : A -> Store -> Prop) :
  (forall a p count, a ∈ items -> loop p ->
     timedSpec alive lvl instructions funcLengths total count loop (due a)
       (body a p count)) ->
  forall p count, loop p ->
    timedSpec alive lvl instructions funcLengths total count loop
      (fun q => exists a, a ∈ items /\ due a q)
      (FinalSolverTimed.forEach items body p count).
Proof.
  induction items as [|a more IH]; intros Hbody p count Hp;
    cbn [FinalSolverTimed.forEach].
  - apply timed_quiet; [done|]. intros q (a & Ha & _). by apply elem_of_nil in Ha.
  - pose proof (Hbody a p count ltac:(left) Hp) as Hr.
    remember (body a p count) as r eqn:Er. clear Er.
    destruct (outcome r) eqn:Ho.
    + destruct Hr as (Hcand & _). split; [done|]. rewrite Ho. done.
    + destruct Hr as (Hcand & Hback).
      destruct (Hback Ho) as (Hloop & Hdue & Hun).
      assert (forall a' p' count', a' ∈ more -> loop p' ->
                timedSpec alive lvl instructions funcLengths total count' loop
                  (due a') (body a' p' count'))
        as Hbody' by (intros a' p' count' Hin; apply Hbody; by right).
      destruct (IH Hbody' (store r) (count + Z.of_nat (length (tested r))) Hloop)
        as (Hcand2 & Hback2).
      split.
      * unfold andThen; cbn [tested]. by apply Forall_app.
      * unfold andThen; cbn [store outcome tested]. intros Hf.
        destruct (Hback2 Hf) as (Hloop2 & Hdue2 & Hun2).
        split; [done|]. split.
        -- intros q (a' & Ha' & Hq). apply elem_of_app.
           apply elem_of_cons in Ha' as [->|Ha'].
           ++ left. by apply Hdue.
           ++ right. apply Hdue2. by exists a'.
        -- intros k q Hk Halive.
           destruct (Nat.lt_ge_cases k (length (tested r))) as [Hlt|Hge].
           ++ rewrite lookup_app_l in Hk by done. by eapply Hun.
           ++ rewrite lookup_app_r in Hk by done.
              eapply Hun2; [exact Hk|].
              rewrite <- Halive. f_equal. lia.
    + destruct Hr as (Hcand & _). split; [done|]. rewrite Ho. done.
Qed.

Lemma timed_fillSearch (funcIdx : nat) (p0 : Store) (len : nat)
    (onComplete : Store -> Z -> Ran) (due : list Z -> Store -> Prop) :
  (funcIdx < length p0)%nat ->
  (forall a count,
     length a = len -> Forall (fun i => i ∈ instructions) a ->
     validEverywhere a ->
     timedSpec alive lvl instructions funcLengths total count
       (eq (<[funcIdx := map Some a]> p0)) (due a)
       (onComplete (<[funcIdx := map Some a]> p0) count)) ->
  forall remaining pos a f count,
    (pos + remaining = len)%nat ->
    length a = pos ->
    Forall (fun i => i ∈ instructions) a ->
    validEverywhere a ->
    take pos f = map Some a ->
    (length f <= len)%nat ->
    timedSpec alive lvl instructions funcLengths total count
      (fun p => exists f', p = <[funcIdx := f']> p0 /\
                           take pos f' = map Some a /\
                           (length f' <= len)%nat)
      (fun q => exists b, length b = len /\ take pos b = a /\
                          Forall (fun i => i ∈ instructions) b /\
                          validEverywhere b /\ due b q)
      (FinalSolverTimed.fillSearch instructions funcIdx onComplete
         remaining pos (<[funcIdx := f]> p0) count).
Proof.
  intros Hidx Hdone.
  induction remaining as [|remaining IH];
    intros pos a f count Hlen Ha Hin Hvalid Hf Hfl;
    cbn [FinalSolverTimed.fillSearch].
  - assert (f = map Some a) as ->.
    { rewrite <- Hf. symmetry. apply take_ge. lia. }
    eapply timed_weaken; [| |apply Hdone; [lia|done|done] ].
    + intros p <-. exists (map Some a). split; [done|]. split.
      * apply take_ge. rewrite length_map. lia.
      * rewrite length_map. lia.
    + intros q (b & Hb & Htake & _ & _ & Hq).
      rewrite take_ge in Htake by lia. by subst b.
  - subst pos.
    eapply timed_weaken;
      [intros p Hp; exact Hp| |
       apply (timed_forEach _ _ _
                (fun instr q =>
                   exists b, length b = len /\
                             take (S (length a)) b = a ++ [instr] /\
                             Forall (fun i => i ∈ instructions) b /\
                             validEverywhere b /\ due b q))].
    { intros q (b & Hb & Htake & Hbin & Hbvalid & Hq).
      destruct (lookup_lt_is_Some_2 b (length a) ltac:(lia)) as [instr Hinstr].
      exists instr. split.
      - rewrite (FinalSearchFacts.orderInstructions_perm instructions (length a)).
        apply (proj1 (Forall_lookup _ _) Hbin _ _ Hinstr).
      - exists b. split; [done|]. split; [|done].
        by rewrite (take_S_r _ _ _ Hinstr), Htake. }
    2:{ exists f. by repeat split. }
    intros instr p count' Hinstr (f' & -> & Hf' & Hfl').
    unfold setEntry. rewrite list_lookup_insert_eq by done.
    rewrite list_insert_insert_eq.
    rewrite list_lookup_insert_eq by done.
    pose proof (FinalSearchFacts.setAt_next f' a instr Hf') as Hnext.
    assert (length (setAt f' (length a) (Some instr)) <= len)%nat as Hlen2.
    { unfold setAt. destruct (Nat.ltb_spec (length a) (length f')).
      - rewrite length_insert. lia.
      - rewrite !length_app, length_replicate. cbn [length]. lia. }
    assert (take (length a) (setAt f' (length a) (Some instr)) = map Some a)
      as Hkeep.
    { apply (f_equal (take (length a))) in Hnext.
      rewrite take_take in Hnext. rewrite Nat.min_l in Hnext by lia.
      rewrite Hnext, map_app, take_app_length'; [done|by rewrite length_map]. }
    assert (FinalSolver.isValidSequence
              (map asNumber (setAt f' (length a) (Some instr)))
              (Z.of_nat (length a))
            = acceptsNext (lastTwo a) instr) as ->.
    { rewrite <- (PruningFacts.isValidSequence_next a [] instr).
      apply FinalSearchFacts.isValidSequence_agree. intros j Hj.
      rewrite (FinalSearchFacts.asNumber_prefix _ (a ++ [instr])).
      - done.
      - rewrite length_app. cbn [length].
        by replace (length a + 1)%nat with (S (length a)) by lia.
      - rewrite length_app. cbn [length]. lia. }
    destruct (acceptsNext (lastTwo a) instr) eqn:Hacc.
    + eapply timed_weaken; [| |apply (IH (S (length a)) (a ++ [instr]))].
      * intros p (f3 & -> & Hf3 & Hfl3). exists f3. split; [done|]. split; [|done].
        apply (f_equal (take (length a))) in Hf3.
        rewrite take_take in Hf3. rewrite Nat.min_l in Hf3 by lia.
        rewrite Hf3, map_app, take_app_length'; [done|by rewrite length_map].
      * intros q Hq. exact Hq.
      * lia.
      * rewrite length_app. cbn [length]. lia.
      * apply Forall_app. split; [done|]. apply Forall_singleton.
        by rewrite <- (FinalSearchFacts.orderInstructions_perm instructions (length a)).
      * by apply FinalSearchFacts.validEverywhere_snoc.
      * exact Hnext.
      * exact Hlen2.
    + apply timed_quiet; [by eexists|].
      intros q (b & _ & Htake & _ & Hbvalid & _).
      apply (FinalSearchFacts.validEverywhere_take b (S (length a))) in Hbvalid.
      rewrite Htake in Hbvalid.
      apply FinalSearchFacts.validEverywhere_snoc in Hbvalid as [_ Hb].
      congruence.
Qed.

Lemma timed_fillFunction (funcIdx : nat) (p0 : Store) (len : nat)
    (onComplete : Store -> Z -> Ran) (due : list Z -> Store -> Prop) (count : Z) :
  p0 !! funcIdx = Some [] ->
  (forall a count',
     length a = len -> Forall (fun i => i ∈ instructions) a ->
     validEverywhere a ->
     timedSpec alive lvl instructions funcLengths total count'
       (eq (<[funcIdx := map Some a]> p0)) (due a)
       (onComplete (<[funcIdx := map Some a]> p0) count')) ->
  timedSpec alive lvl instructions funcLengths total count (eq p0)
    (fun q => exists b, length b = len /\
                        Forall (fun i => i ∈ instructions) b /\
                        validEverywhere b /\ due b q)
    (FinalSolverTimed.fillFunction instructions p0 funcIdx len onComplete count).
Proof.
  intros Hp0 Hdone.
  assert (funcIdx < length p0)%nat as Hidx by (by eapply lookup_lt_Some).
  assert (<[funcIdx := []]> p0 = p0) as Hsame by (by apply list_insert_id).
  unfold FinalSolverTimed.fillFunction. destruct len as [|len].
  - pose proof (Hdone [] count eq_refl ltac:(constructor)
                  FinalSearchFacts.validEverywhere_nil) as H.
    cbn [map] in H. rewrite Hsame in H.
    eapply timed_weaken; [intros p Hp; exact Hp| |exact H].
    intros q (b & Hb & _ & _ & Hq). by destruct b.
  - destruct (timed_fillSearch funcIdx p0 (S len) onComplete due Hidx Hdone
                (S len) 0%nat [] [] count eq_refl eq_refl ltac:(constructor)
                FinalSearchFacts.validEverywhere_nil eq_refl ltac:(cbn; lia))
      as (Hcand & Hback).
    split; [exact Hcand|].
    cbn [outcome store tested]. intros Ho.
    destruct (Hback Ho) as ((f' & -> & _) & Hall & Hun). split; [|split].
    + by rewrite list_insert_insert_eq.
    + intros q (b & Hb & Hbin & Hbvalid & Hq). apply Hall.
      exists b. by repeat split.
    + exact Hun.
Qed.

Lemma timed_testProgram (p : Store) (count : Z) :
  candidate instructions funcLengths total p ->
  timedSpec alive lvl instructions funcLengths total count (eq p) (eq p)
    (FinalSolverTimed.testProgram alive lvl p count).
Proof.
  intros Hcand. unfold FinalSolverTimed.testProgram.
  assert (forall q, p = q -> q ∈ [p]) as Hdue by (intros q <-; by left).
  destruct (alive (count + 1)) eqn:Halive.
  - destruct (FinalSolver.executeWithLoopDetection lvl (asProgram p)
                FinalSolver.defaultMaxSteps) as [v s|e|s] eqn:Hrun.
    + destruct v.
      all: split; [by constructor|]; cbn [outcome store tested]; try done.
      all: intros _; split; [done|]; split; [done|].
      all: intros k q [_ <-]%list_lookup_singleton_Some _ steps' [s' Hs'];
        congruence.
    + split; [by constructor|]. done.
    + split; [by constructor|]. done.
  - split; [by constructor|]. cbn [outcome store tested].
    intros _. split; [done|]. split; [done|].
    intros k q [-> <-]%list_lookup_singleton_Some Hk.
    rewrite Z.add_0_r in Hk. congruence.
Qed.

Lemma timed_search (later : list Z) :
  forall (before : list Z) (used : Z) (p : Store) (count : Z),
    funcLengths = before ++ later ->
    Forall2 (okFunction instructions) before (take (length before) p) ->
    drop (length before) p = map (fun _ => []) later ->
    Deepening.count p = used ->
    timedSpec alive lvl instructions funcLengths total count (eq p)
      (fun q => candidate instructions funcLengths total q /\
                take (length before) q = take (length before) p)
      (FinalSolverTimed.search alive lvl instructions total later
         (length before) used p count).
Proof.
  induction later as [|flen later IH];
    intros before used p count Hfl Hbefore Hlater Hused;
    cbn [FinalSolverTimed.search].
  - assert (forall q, candidate instructions funcLengths total q /\
                      take (length before) q = take (length before) p -> p = q)
      as Hsame.
    { intros q [[Hq _] Htake].
      apply Forall2_length in Hq. rewrite Hfl, app_nil_r in Hq.
      rewrite <- (take_drop (length before) p), Hlater. cbn [map].
      rewrite app_nil_r, <- Htake. apply take_ge. lia. }
    destruct (Z.eqb_spec used total) as [Heq|Hne].
    + eapply timed_weaken; [intros p' Hp'; exact Hp'|exact Hsame|].
      apply timed_testProgram. split; [|congruence].
      rewrite Hfl, app_nil_r.
      rewrite <- (take_drop (length before) p), Hlater. cbn [map].
      by rewrite app_nil_r.
    + apply timed_quiet; [done|].
      intros q Hq. pose proof (Hsame q Hq) as <-. destruct Hq as [[_ Hc] _]. lia.
  - assert (p !! length before = Some []) as Hhere.
    { rewrite <- (Nat.add_0_r (length before)), <- lookup_drop, Hlater. done. }
    assert (length before < length p)%nat as Hidx by (by eapply lookup_lt_Some).
    eapply timed_weaken;
      [intros p' Hp'; exact Hp'| |
       apply (timed_forEach _ _ _
                (fun len q =>
                   exists b, length b = len /\
                             Forall (fun i => i ∈ instructions) b /\
                             validEverywhere b /\
                             candidate instructions funcLengths total q /\
                             take (length (before ++ [flen])) q
                             = take (length (before ++ [flen]))
                                 (<[length before := map Some b]> p)))].
    { intros q [[Hq Hcount] Htake].
      pose proof (Forall2_length _ _ _ Hq) as Hlen.
      rewrite Hfl, length_app in Hlen. cbn [length] in Hlen.
      destruct (lookup_lt_is_Some_2 q (length before) ltac:(lia)) as [f Hf].
      assert (okFunction instructions flen f) as (b & -> & Hb & Hbin & Hbvalid).
      { apply (Forall2_lookup_lr _ _ _ (length before) flen f Hq); [|done].
        rewrite Hfl. by apply list_lookup_middle. }
      assert (Z.of_nat (length b) <= total - used) as Hroom.
      { pose proof (f_equal Deepening.count (take_drop_middle q _ _ Hf)) as Hqs.
        rewrite FinalSearchFacts.count_app, FinalSearchFacts.count_cons, Htake in Hqs.
        pose proof (f_equal Deepening.count (take_drop (length before) p)) as Hps.
        rewrite FinalSearchFacts.count_app, Hlater, FinalSearchFacts.count_empty in Hps.
        pose proof (FinalSearchFacts.count_nonneg (drop (S (length before)) q)). lia. }
      exists (length b). split.
      - unfold upTo. apply elem_of_seq. lia.
      - exists b. split; [done|]. split; [done|]. split; [done|].
        split; [by split|].
        rewrite length_app. cbn [length].
        replace (length before + 1)%nat with (S (length before)) by lia.
        rewrite (take_S_r _ _ _ Hf).
        rewrite (take_S_r _ _ (map Some b)) by (by apply list_lookup_insert_eq).
        rewrite take_insert_ge by lia. by rewrite Htake. }
    2: done.
    intros len p' count' Hlen <-.
    eapply timed_weaken;
      [intros p' Hp'; exact Hp'| |
       apply (timed_fillFunction (length before) p len _
                (fun b q =>
                   candidate instructions funcLengths total q /\
                   take (length (before ++ [flen])) q
                   = take (length (before ++ [flen]))
                       (<[length before := map Some b]> p)));
       [exact Hhere|] ].
    { intros q (b & Hb & Hbin & Hbvalid & Hq). by exists b. }
    intros a count'' Ha Hin Hvalid.
    replace (S (length before)) with (length (before ++ [flen]))
      by (rewrite length_app; cbn [length]; lia).
    apply IH.
    + by rewrite <- app_assoc.
    + rewrite length_app. cbn [length].
      replace (length before + 1)%nat with (S (length before)) by lia.
      rewrite (take_S_r _ _ (map Some a)) by (by apply list_lookup_insert_eq).
      rewrite take_insert_ge by lia.
      apply Forall2_app; [exact Hbefore|].
      constructor; [|constructor].
      exists a. split; [done|]. split; [|done].
      unfold upTo in Hlen. apply elem_of_seq in Hlen. lia.
    + rewrite length_app. cbn [length].
      replace (length before + 1)%nat with (S (length before)) by lia.
      rewrite drop_insert_lt by lia.
      rewrite <- (Nat.add_1_r (length before)), <- drop_drop, Hlater. done.
    + rewrite (FinalSearchFacts.count_fill _ _ _ Hhere). lia.
Qed.

Lemma timed_searchDepth (count : Z) :
  timedSpec alive lvl instructions funcLengths total count
    (eq (map (fun _ => []) funcLengths))
    (candidate instructions funcLengths total)
    (FinalSolverTimed.searchDepth alive lvl instructions funcLengths total count).
Proof.
  unfold FinalSolverTimed.searchDepth.
  eapply timed_weaken;
    [intros p Hp; exact Hp| |
     apply (timed_search funcLengths [] 0);
     [done|constructor|done|apply FinalSearchFacts.count_empty] ].
  intros q Hq. by split.
Qed.

End Search.

(** *** The deepening loop *)

Lemma timed_deepen_none (alive : Z -> bool)
    (halted : Z -> option FinalSolverTimed.Halt) (lvl : level.t)
    (instructions functionLengths : list Z) (depths : list Z) (n found : Z) :
  FinalSolverTimed.deepen alive halted lvl instructions functionLengths depths n
  = FinalSolverTimed.NoProgram found ->
  exists asked : list Store,
    found = n + Z.of_nat (length asked) /\
    (forall q, q ∈ asked <->
               exists d, d ∈ depths /\
                         candidate instructions functionLengths d q) /\
    (forall k q, asked !! k = Some q ->
                 alive (n + Z.of_nat k + 1) = true -> unsolved lvl q).
Proof.
  revert n. induction depths as [|d deeper IH]; intros n;
    cbn [FinalSolverTimed.deepen].
  - intros [= <-]. exists []. split; [cbn; lia|]. split.
    + intros q. split; [by intros H%elem_of_nil|].
      intros (d & Hd & _). by apply elem_of_nil in Hd.
    + intros k q Hk. by rewrite lookup_nil in Hk.
  - destruct (halted d); [done|].
    pose proof (timed_searchDepth alive lvl instructions functionLengths d n)
      as [Hcand Hback].
    destruct (outcome (FinalSolverTimed.searchDepth alive lvl instructions
                         functionLengths d n)) as [q steps'| |] eqn:Ho;
      [done| |done].
    destruct (Hback eq_refl) as (_ & Hdue & Hun).
    intros Hd. apply IH in Hd as (asked & -> & Hmem & Hun2).
    exists (tested (FinalSolverTimed.searchDepth alive lvl instructions
                      functionLengths d n) ++ asked).
    split; [rewrite length_app; lia|]. split.
    + intros q. rewrite elem_of_app, Hmem. split.
      * intros [Hq|(d' & Hd' & Hq)].
        -- exists d. split; [by left|]. by apply (proj1 (Forall_forall _ _) Hcand).
        -- exists d'. split; [by right|done].
      * intros (d' & Hd' & Hq). apply elem_of_cons in Hd' as [->|Hd'].
        -- left. by apply Hdue.
        -- right. by exists d'.
    + intros k q Hk Halive.
      destruct (Nat.lt_ge_cases k
                  (length (tested (FinalSolverTimed.searchDepth alive lvl
                                     instructions functionLengths d n))))
        as [Hlt|Hge].
      * rewrite lookup_app_l in Hk by done. by eapply Hun.
      * rewrite lookup_app_r in Hk by done.
        eapply Hun2; [exact Hk|].
        rewrite <- Halive. f_equal. lia.
Qed.

(** *** The search without a deadline

    [FinalSolverSearch] is the search under a deadline that never passes:
    the callback returns true at every call and the top of the loop never
    gives up. *)

Lemma untimed_forEach {A} (items : list A) (body' : A -> Store -> Z -> Ran)
    (body : A -> Store -> Ran) :
  (forall a p count, a ∈ items -> body' a p count = body a p) ->
  forall p count,
    FinalSolverTimed.forEach items body' p count = forEach items body p.
Proof.
  induction items as [|a more IH]; intros Hbody p count;
    cbn [FinalSolverTimed.forEach forEach]; [done|].
  rewrite (Hbody a p count) by (by left).
  destruct (outcome (body a p)); [done| |done].
  rewrite IH; [done|]. intros a' p' count' Hin. apply Hbody. by right.
Qed.

Lemma untimed_fillSearch (instructions : list Z) (funcIdx : nat)
    (onComplete' : Store -> Z -> Ran) (onComplete : Store -> Ran) :
  (forall p count, onComplete' p count = onComplete p) ->
  forall remaining pos p count,
    FinalSolverTimed.fillSearch instructions funcIdx onComplete' remaining pos p count
    = FinalSolverSearch.fillSearch instructions funcIdx onComplete remaining pos p.
Proof.
  intros Hdone. induction remaining as [|remaining IH]; intros pos p count;
    cbn [FinalSolverTimed.fillSearch FinalSolverSearch.fillSearch]; [apply Hdone|].
  apply untimed_forEach. intros instr p' count' _.
  destruct (setEntry p' funcIdx pos (Some instr)) as [p1|]; [|done].
  destruct (p1 !! funcIdx) as [f|]; [|done].
  destruct (FinalSolver.isValidSequence _ _); [apply IH|done].
Qed.

Lemma untimed_search (lvl : level.t) (instructions : list Z) (total : Z)
    (later : list Z) :
  forall funcIdx used p count,
    FinalSolverTimed.search (fun _ => true) lvl instructions total later
      funcIdx used p count
    = FinalSolverSearch.search lvl instructions total later funcIdx used p.
Proof.
  induction later as [|flen later IH]; intros funcIdx used p count;
    cbn [FinalSolverTimed.search FinalSolverSearch.search]; [done|].
  apply untimed_forEach. intros len p' count' _.
  unfold FinalSolverTimed.fillFunction, FinalSolverSearch.fillFunction.
  destruct len as [|len]; [apply IH|].
  by rewrite (untimed_fillSearch instructions funcIdx _
                (fun program =>
                   FinalSolverSearch.search lvl instructions total later
                     (S funcIdx) (used + Z.of_nat (S len)) program))
    by (intros; apply IH).
Qed.

Lemma untimed_deepen (lvl : level.t) (instructions functionLengths : list Z)
    (depths : list Z) (n : Z) :
  FinalSolverTimed.deepen (fun _ => true) (fun _ => None) lvl instructions
    functionLengths depths n
  = match FinalSolverSearch.deepen lvl instructions functionLengths depths n with
    | FinalSolverSearch.FoundProgram program steps instrCount tested =>
        FinalSolverTimed.FoundProgram program steps instrCount tested
    | FinalSolverSearch.NoProgram tested => FinalSolverTimed.NoProgram tested
    | FinalSolverSearch.Escaped => FinalSolverTimed.Escaped
    end.
Proof.
  revert n. induction depths as [|d deeper IH]; intros n;
    cbn [FinalSolverTimed.deepen FinalSolverSearch.deepen]; [done|].
  unfold FinalSolverTimed.searchDepth, FinalSolverSearch.searchDepth.
  rewrite untimed_search.
  destruct (outcome _); [done|apply IH|done].
Qed.

Lemma untimed_solve (lvl : level.t) :
  FinalSolverTimed.solve (fun _ => true) (fun _ => None) lvl
  = match FinalSolverSearch.solve lvl with
    | FinalSolverSearch.FoundProgram program steps instrCount tested =>
        FinalSolverTimed.FoundProgram program steps instrCount tested
    | FinalSolverSearch.NoProgram tested => FinalSolverTimed.NoProgram tested
    | FinalSolverSearch.Escaped => FinalSolverTimed.Escaped
    end.
Proof. apply untimed_deepen. Qed.

End TimedSearchFacts.

(** X24. A program [FinalSolver.solve] returns is one of its
    candidates and solves the level: it has one function per slot, each
    within its slot length, made of instructions [buildInstructions] gives
    and accepted by [isValidSequence] at every position; [instrCount] is
    its number of instructions, between 1 and the smaller of the slot total
    and 10; and [executeWithLoopDetection] as well as the plain executor of
    [Solver] report it solved in the returned number of steps. *)
Theorem final_solve_sound (lvl : level.t) (program : ConstraintSolver.Store)
    (steps instrCount found : Z) :
  FinalSolverSearch.solve lvl
  = FinalSolverSearch.FoundProgram program steps instrCount found ->
  1 <= instrCount <= Z.min (sumLengths (functionLengthsOf lvl)) 10 /\
  FinalCandidates.candidate
    (FinalSolverSearch.buildInstructions (availableInstructionsOf lvl))
    (functionLengthsOf lvl) instrCount program /\
  exists final,
    FinalSolver.executeWithLoopDetection lvl (ConstraintSolver.asProgram program)
      FinalSolver.defaultMaxSteps = Done (Solved steps) final /\
    Solver.executeProgram lvl (ConstraintSolver.asProgram program)
      FinalSolver.defaultMaxSteps = Done (Solved steps) final.
Proof.
  unfold FinalSolverSearch.solve. intros Hsolve.
  apply FinalSearchFacts.final_deepen_found in Hsolve
    as (before & after & Hsplit & Hs & Hf & ->).
  destruct (DeepeningFacts.depthsTo_split _ _ _ _ Hsplit) as [Hd _].
  destruct (FinalSearchFacts.final_searchDepth_spec lvl
              (FinalSolverSearch.buildInstructions (availableInstructionsOf lvl))
              (functionLengthsOf lvl) instrCount) as (Hc & Hj & _).
  unfold FinalCandidates.judged in Hj. rewrite Hs in Hj.
  destruct Hj as (earlier & Ht & Hun & final & Hsol).
  split; [exact Hd|]. split.
  - rewrite Ht in Hc. apply Forall_app in Hc as [_ Hc]. by inversion Hc.
  - exists final. split; [exact Hsol|].
    rewrite <- constraintSolver_executeProgram.
    by eapply final_run_agrees.
Qed.

Lemma final_solve_sound_witness :
  FinalCandidates.candidate
    (FinalSolverSearch.buildInstructions (availableInstructionsOf zigzagLevel))
    (functionLengthsOf zigzagLevel) 2 [[Some INST.FW; Some INST.F0]].
Proof.
  apply (final_solve_sound zigzagLevel [[Some INST.FW; Some INST.F0]] 11 2 10).
  by vm_compute.
Defined.

(** X25. [FinalSolver.solve] returns a program with the fewest
    instructions among its candidates: no candidate program with fewer
    instructions than the returned one is reported solved by
    [executeWithLoopDetection], the returned program is the last one
    executed at its own instruction count, and [tested] counts exactly the
    programs executed up to it. *)
Theorem final_solve_minimal (lvl : level.t) (program : ConstraintSolver.Store)
    (steps instrCount found : Z) :
  FinalSolverSearch.solve lvl
  = FinalSolverSearch.FoundProgram program steps instrCount found ->
  (forall d q,
     1 <= d < instrCount ->
     FinalCandidates.candidate
       (FinalSolverSearch.buildInstructions (availableInstructionsOf lvl))
       (functionLengthsOf lvl) d q ->
     FinalCandidates.unsolved lvl q) /\
  (exists earlier,
     FinalSolverSearch.candidatesAt lvl instrCount = earlier ++ [program] /\
     Forall (FinalCandidates.unsolved lvl) earlier) /\
  found = Z.of_nat
            (length (flat_map (FinalSolverSearch.candidatesAt lvl)
                       (map (fun k => Z.of_nat k) (seq 1 (Z.to_nat instrCount))))).
Proof.
  unfold FinalSolverSearch.solve. intros Hsolve.
  apply FinalSearchFacts.final_deepen_found in Hsolve
    as (before & after & Hsplit & Hs & Hf & ->).
  destruct (DeepeningFacts.depthsTo_split _ _ _ _ Hsplit) as [Hd Hbefore].
  pose proof (FinalSearchFacts.final_searchDepth_spec lvl
                (FinalSolverSearch.buildInstructions (availableInstructionsOf lvl))
                (functionLengthsOf lvl)) as Hspec.
  split; [|split].
  - intros d q Hdq Hq.
    destruct (Hspec d) as (_ & Hj & _ & Hback).
    pose proof (proj1 (Forall_forall _ _) Hf d (Hbefore d Hdq)) as Hfail.
    unfold FinalCandidates.judged in Hj. rewrite Hfail in Hj.
    apply (proj1 (Forall_forall _ _) Hj). by apply (Hback Hfail).
  - destruct (Hspec instrCount) as (_ & Hj & _).
    unfold FinalCandidates.judged in Hj. rewrite Hs in Hj.
    destruct Hj as (earlier & Ht & Hun & _). by exists earlier.
  - rewrite <- (DeepeningFacts.depthsTo_prefix _ _ _ _ Hsplit).
    unfold FinalSolverSearch.candidatesAt. lia.
Qed.

Lemma final_solve_minimal_witness :
  FinalCandidates.unsolved zigzagLevel [[Some INST.FW]].
Proof.
  destruct (final_solve_minimal zigzagLevel [[Some INST.FW; Some INST.F0]] 11 2 10)
    as (Hsmaller & _); [by vm_compute|].
  apply (Hsmaller 1); [lia|].
  split; [|done].
  constructor; [|constructor].
  exists [INST.FW]. split; [done|]. split; [cbn; lia|]. split.
  - apply Forall_singleton, list_elem_of_In. vm_compute. by left.
  - intros pos Hpos. cbn in Hpos. by replace pos with 0 by lia.
Defined.

(** X26. When [FinalSolver.solve] returns the unflagged
    [{ solved: false, tested }], its progress callback was called once for
    each program of a list that holds exactly the candidate programs of the
    totals from 1 to the smaller of the slot total and 10 (one function per
    slot, each within its slot length, made of the instructions
    [buildInstructions] gives and accepted by [isValidSequence] at every
    position), and [tested] is the number of these calls.  A candidate at
    whose call the callback returned true (the deadline had not passed and
    nobody had called [stop()]) is not reported solved by
    [executeWithLoopDetection]; a candidate at whose call it returned false
    was counted but not executed.  So the result says that no candidate
    solves the level only when the callback returned true at every call. *)
Theorem final_solve_exhaustive (alive : Z -> bool)
    (halted : Z -> option FinalSolverTimed.Halt) (lvl : level.t) (found : Z) :
  FinalSolverTimed.solve alive halted lvl = FinalSolverTimed.NoProgram found ->
  exists asked : list ConstraintSolver.Store,
    found = Z.of_nat (length asked) /\
    (forall q,
       q ∈ asked <->
       exists d,
         1 <= d <= Z.min (sumLengths (functionLengthsOf lvl)) 10 /\
         FinalCandidates.candidate
           (FinalSolverSearch.buildInstructions (availableInstructionsOf lvl))
           (functionLengthsOf lvl) d q) /\
    (forall k q,
       asked !! k = Some q -> alive (Z.of_nat k + 1) = true ->
       FinalCandidates.unsolved lvl q) /\
    ((forall k, 1 <= k <= found -> alive k = true) ->
     forall d q,
       1 <= d <= Z.min (sumLengths (functionLengthsOf lvl)) 10 ->
       FinalCandidates.candidate
         (FinalSolverSearch.buildInstructions (availableInstructionsOf lvl))
         (functionLengthsOf lvl) d q ->
       FinalCandidates.unsolved lvl q).
Proof.
  unfold FinalSolverTimed.solve. intros Hsolve.
  apply TimedSearchFacts.timed_deepen_none in Hsolve as (asked & -> & Hmem & Hun).
  exists asked. split; [lia|]. split; [|split].
  - intros q. rewrite Hmem. split.
    + intros (d & Hd & Hq). exists d. split; [|done].
      by apply FinalSearchFacts.depthsTo_elem.
    + intros (d & Hd & Hq). exists d. split; [|done].
      by apply FinalSearchFacts.depthsTo_elem.
  - intros k q Hk Halive. eapply Hun; [exact Hk|].
    rewrite <- Halive. f_equal.
  - intros Halive d q Hd Hq.
    assert (q ∈ asked) as Hin.
    { apply Hmem. exists d. split; [|done].
      by apply FinalSearchFacts.depthsTo_elem. }
    apply list_elem_of_lookup in Hin as [k Hk].
    eapply Hun; [exact Hk|].
    pose proof (lookup_lt_Some _ _ _ Hk).
    rewrite Z.add_0_l. apply Halive. lia.
Qed.

Lemma final_solve_exhaustive_witness :
  FinalSolverSearch.solve
    (level.mk 0 0 2 1 [[1; 1; 5]] (Some [FW; TL; C1]) (Some [2]))
  = FinalSolverSearch.FoundProgram [[Some INST.FW; Some INST.FW]] 2 2 5 /\
  FinalSolverTimed.solve (fun k => k <? 5) (fun _ => None)
    (level.mk 0 0 2 1 [[1; 1; 5]] (Some [FW; TL; C1]) (Some [2]))
  = FinalSolverTimed.NoProgram 20 /\
  exists asked : list ConstraintSolver.Store,
    20 = Z.of_nat (length asked) /\
    forall k q,
      asked !! k = Some q -> (Z.of_nat k + 1 <? 5) = true ->
      FinalCandidates.unsolved
        (level.mk 0 0 2 1 [[1; 1; 5]] (Some [FW; TL; C1]) (Some [2])) q.
Proof.
  split; [by vm_compute|]. split; [by vm_compute|].
  destruct (final_solve_exhaustive (fun k => k <? 5) (fun _ => None)
              (level.mk 0 0 2 1 [[1; 1; 5]] (Some [FW; TL; C1]) (Some [2])) 20)
    as (asked & Hlen & _ & Hun & _); [by vm_compute|].
  exists asked. split; [exact Hlen|exact Hun].
Defined.

(** X27. On a level with a 16 x 16 board and the robot on it,
    [FinalSolver.solve] returns a result: no exception escapes the search
    or the executor. *)
Theorem final_solve_returns (lvl : level.t) :
  wellFormedLevel lvl ->
  FinalSolverSearch.solve lvl <> FinalSolverSearch.Escaped.
Proof.
  intros Hwf Hsolve. unfold FinalSolverSearch.solve in Hsolve.
  apply FinalSearchFacts.final_deepen_escaped in Hsolve as [d Hd].
  destruct (FinalSearchFacts.final_searchDepth_spec lvl
              (FinalSolverSearch.buildInstructions (availableInstructionsOf lvl))
              (functionLengthsOf lvl) d) as (_ & _ & Hsafe & _).
  by apply Hsafe.
Qed.

Lemma final_solve_returns_witness :
  FinalSolverSearch.solve zigzagLevel <> FinalSolverSearch.Escaped.
Proof.
  apply (final_solve_returns zigzagLevel).
  unfold wellFormedLevel, zigzagLevel; cbn.
  repeat split; try lia. repeat constructor.
Defined.
